(** * CARLA road map raster (Source/Carla/MapGen/RoadMap.cpp)

    A shallow embedding of [URoadMap]: the grid of per-pixel road data, the
    world <-> pixel coordinate mapping, the area sampling of [Intersect], the
    colour encoding of [Encode] and the population operations
    [AppendPixel] / [Set].

    C++ [float] is IEEE-754 binary32 and [double] is binary64; both are
    modelled bit-exactly with the operators of [SpecFloat] (round to nearest,
    ties to even).  [uint32], [int32] and [uint8] are integers in [Z] with the
    wrap-around written out. *)

From Stdlib Require Import String ZArith Lia List Bool SpecFloat.
Import ListNotations.
Open Scope Z_scope.

#[local] Set Warnings "-abstract-large-number".

(* ===================================================================== *)
(** ** Machine numbers *)
(* ===================================================================== *)

Definition float : Set := spec_float.

(** C++ [float]: binary32, 24 bits of precision, exponent of infinity 128. *)
Module F32.
Definition prec : Z := 24.
Definition emax : Z := 128.

Definition add : float -> float -> float := SFadd prec emax.
Definition sub : float -> float -> float := SFsub prec emax.
Definition mul : float -> float -> float := SFmul prec emax.
Definition div : float -> float -> float := SFdiv prec emax.
Definition neg : float -> float := SFopp.
Definition ltb : float -> float -> bool := SFltb.
Definition leb : float -> float -> bool := SFleb.
Definition eqb : float -> float -> bool := SFeqb.

(** Conversion of an integer, as [static_cast<float>] does. *)
Definition of_Z (z : Z) : float := binary_normalize prec emax z 0 false.

Definition zero : float := S754_zero false.
Definition one : float := Eval cbv in of_Z 1.
Definition two : float := Eval cbv in of_Z 2.
Definition minus_one : float := Eval cbv in of_Z (-1).

Definition valid (x : float) : bool := valid_binary prec emax x.

Definition is_finite (x : float) : bool :=
  match x with
  | S754_zero _ | S754_finite _ _ _ => true
  | _ => false
  end.

(** Largest integer not above the value of a finite float. *)
Definition floor (x : float) : option Z :=
  match x with
  | S754_zero _ => Some 0
  | S754_finite s m e =>
      let v := if s then Zneg m else Zpos m in
      Some (if 0 <=? e then v * 2 ^ e else v / 2 ^ (- e))
  | _ => None
  end.
End F32.

(** C++ [double]: binary64. *)
Module F64.
Definition prec : Z := 53.
Definition emax : Z := 1024.

Definition mul : spec_float -> spec_float -> spec_float := SFmul prec emax.
Definition div : spec_float -> spec_float -> spec_float := SFdiv prec emax.
Definition of_Z (z : Z) : spec_float := binary_normalize prec emax z 0 false.

(** Promotion [float -> double] (exact). *)
Definition of_F32 (x : float) : spec_float :=
  match x with
  | S754_finite s m e => binary_round prec emax s m e
  | _ => x
  end.

(** Conversion [double -> float] (rounds). *)
Definition to_F32 (x : spec_float) : float :=
  match x with
  | S754_finite s m e => binary_round F32.prec F32.emax s m e
  | _ => x
  end.
End F64.

(** [uint32], [int32] and [uint8] conversions. *)
Definition u32 (z : Z) : Z := z mod 2 ^ 32.
Definition i32 (z : Z) : Z := (z + 2 ^ 31) mod 2 ^ 32 - 2 ^ 31.
Definition u8 (z : Z) : Z := z mod 2 ^ 8.

Definition INT32_MIN : Z := - 2 ^ 31.

(* ===================================================================== *)
(** ** Engine math used by the road map *)
(* ===================================================================== *)

Record FVector := mkVector { VX : float; VY : float; VZ : float }.
Record FQuat := mkQuat { QX : float; QY : float; QZ : float; QW : float }.
Record FRotator := mkRotator { Pitch : float; Yaw : float; Roll : float }.
Record FTransform :=
  mkTransform { Rotation : FQuat; Translation : FVector; Scale3D : FVector }.
Record FColor := mkColor { R : Z; G : Z; B : Z; A : Z }.

Definition ZeroVector : FVector := mkVector F32.zero F32.zero F32.zero.
Definition OneVector : FVector := mkVector F32.one F32.one F32.one.
Definition QuatIdentity : FQuat := mkQuat F32.zero F32.zero F32.zero F32.one.
Definition TransformIdentity : FTransform :=
  mkTransform QuatIdentity ZeroVector OneVector.

(** [FVector] operators: componentwise. *)
Definition vadd (a b : FVector) : FVector :=
  mkVector (F32.add (VX a) (VX b)) (F32.add (VY a) (VY b)) (F32.add (VZ a) (VZ b)).
Definition vsub (a b : FVector) : FVector :=
  mkVector (F32.sub (VX a) (VX b)) (F32.sub (VY a) (VY b)) (F32.sub (VZ a) (VZ b)).
Definition vmul (a b : FVector) : FVector :=
  mkVector (F32.mul (VX a) (VX b)) (F32.mul (VY a) (VY b)) (F32.mul (VZ a) (VZ b)).
Definition vscale (a : FVector) (s : float) : FVector :=
  mkVector (F32.mul (VX a) s) (F32.mul (VY a) s) (F32.mul (VZ a) s).
Definition vneg (a : FVector) : FVector :=
  mkVector (F32.neg (VX a)) (F32.neg (VY a)) (F32.neg (VZ a)).

(** [FVector::DotProduct(A, B)] is [A.X*B.X + A.Y*B.Y + A.Z*B.Z]. *)
Definition DotProduct (a b : FVector) : float :=
  F32.add (F32.add (F32.mul (VX a) (VX b)) (F32.mul (VY a) (VY b)))
          (F32.mul (VZ a) (VZ b)).

Definition CrossProduct (a b : FVector) : FVector :=
  mkVector (F32.sub (F32.mul (VY a) (VZ b)) (F32.mul (VZ a) (VY b)))
           (F32.sub (F32.mul (VZ a) (VX b)) (F32.mul (VX a) (VZ b)))
           (F32.sub (F32.mul (VX a) (VY b)) (F32.mul (VY a) (VX b))).

(** [FMath::FloorToInt]: the floor of the value as an [int32].  A value
    that does not fit (or is not a number) converts to the "integer
    indefinite" value [INT32_MIN], as the x86 conversion instruction does. *)
Definition FloorToInt (x : float) : Z :=
  match F32.floor x with
  | Some z => if (INT32_MIN <=? z) && (z <? 2 ^ 31) then z else INT32_MIN
  | None => INT32_MIN
  end.

(** [FMath::Clamp(X, Min, Max)] is [X<Min ? Min : X<Max ? X : Max]. *)
Definition Clamp (x lo hi : Z) : Z :=
  if x <? lo then lo else if x <? hi then x else hi.

(** The engine's transform arithmetic is not part of the repository: the
    road map is written against this interface. *)
Class TransformMath := {
  TransformPosition : FTransform -> FVector -> FVector;
  InverseTransformPosition : FTransform -> FVector -> FVector;
  GetForwardVector : FQuat -> FVector
}.

(** Conversions between quaternions and Euler angles ([FQuat::Rotator] and
    the constructor [FQuat(FRotator)]), likewise supplied by the engine. *)
Class RotatorMath := {
  Rotator : FQuat -> FRotator;
  MakeQuat : FRotator -> FQuat
}.

(** Reference instance: the engine's scalar formulas.
    [RotateVector(V) = V + W * T + Q x T] with [T = 2 * (Q x V)]. *)
Module Scalar.
Definition RotateVector (q : FQuat) (v : FVector) : FVector :=
  let Q := mkVector (QX q) (QY q) (QZ q) in
  let T := vscale (CrossProduct Q v) F32.two in
  vadd (vadd v (vscale T (QW q))) (CrossProduct Q T).

Definition UnrotateVector (q : FQuat) (v : FVector) : FVector :=
  let Q := mkVector (F32.neg (QX q)) (F32.neg (QY q)) (F32.neg (QZ q)) in
  let T := vscale (CrossProduct Q v) F32.two in
  vadd (vadd v (vscale T (QW q))) (CrossProduct Q T).

(** [SMALL_NUMBER] is [1.e-8f]. *)
Definition SMALL_NUMBER : float := S754_finite false 11259031 (-50).

(** One component of [GetSafeScaleReciprocal]. *)
Definition SafeReciprocal (s : float) : float :=
  if F32.leb (SFabs s) SMALL_NUMBER then F32.zero else F32.div F32.one s.

Definition TransformPosition (t : FTransform) (v : FVector) : FVector :=
  vadd (RotateVector (Rotation t) (vmul (Scale3D t) v)) (Translation t).

Definition InverseTransformPosition (t : FTransform) (v : FVector) : FVector :=
  vmul (UnrotateVector (Rotation t) (vsub v (Translation t)))
       (mkVector (SafeReciprocal (VX (Scale3D t)))
                 (SafeReciprocal (VY (Scale3D t)))
                 (SafeReciprocal (VZ (Scale3D t)))).

Definition GetForwardVector (q : FQuat) : FVector :=
  RotateVector q (mkVector F32.one F32.zero F32.zero).
End Scalar.

#[export] Instance ScalarMath : TransformMath := {
  TransformPosition := Scalar.TransformPosition;
  InverseTransformPosition := Scalar.InverseTransformPosition;
  GetForwardVector := Scalar.GetForwardVector
}.

(* ===================================================================== *)
(** ** Road map data *)
(* ===================================================================== *)

(** Modelled from the spec: the pixel record of [RoadMap.h], which is not
    among the sources ("offRoad", "hasDirection", "direction"). *)
Record FRoadMapPixelData := mkPixel {
  bIsOffRoad : bool;
  bHasDirection : bool;
  Direction : FVector
}.

(** Modelled from the spec: a default-constructed pixel is off-road and has
    no direction; its direction vector is never read. *)
Definition DefaultPixel : FRoadMapPixelData := mkPixel true false ZeroVector.

Record FRoadMapIntersectionResult := mkResult {
  OffRoad : float;
  OppositeLane : float
}.

(** The members of [URoadMap]. [Width] and [Height] are [uint32]. *)
Record URoadMap := mkRoadMap {
  WorldToMap : FTransform;
  MapOffset : FVector;
  PixelsPerCentimeter : float;
  Width : Z;
  Height : Z;
  RoadMap : list FRoadMapPixelData
}.

(** Modelled from the spec: [AppendEmptyPixel] of [RoadMap.h] appends one
    default pixel and leaves the dimensions alone. *)
Definition AppendEmptyPixel (g : URoadMap) : URoadMap :=
  mkRoadMap (WorldToMap g) (MapOffset g) (PixelsPerCentimeter g)
            (Width g) (Height g) (RoadMap g ++ [DefaultPixel]).

(** The constructor: a 1x1 map at one pixel per centimetre holding one
    empty pixel.  The transform and the offset are default-initialised. *)
Definition NewRoadMap : URoadMap :=
  AppendEmptyPixel
    (mkRoadMap TransformIdentity ZeroVector F32.one 1 1 []).

(** Modelled from the spec: [IsValid] of [RoadMap.h]: the map is not empty
    and holds [width * height] pixels. *)
Definition IsValid (g : URoadMap) : bool :=
  (0 <? Z.of_nat (length (RoadMap g)))
  && (Z.of_nat (length (RoadMap g)) =? Height g * Width g).

(** Results of operations that may hit a failed [check] (fatal) or, in the
    model, run out of loop fuel. *)
Inductive outcome (A : Type) : Type :=
| Done (a : A)
| Fatal
| OutOfFuel.
Arguments Done {A} a.
Arguments Fatal {A}.
Arguments OutOfFuel {A}.

Definition bind {A B} (c : outcome A) (k : A -> outcome B) : outcome B :=
  match c with
  | Done a => k a
  | Fatal => Fatal
  | OutOfFuel => OutOfFuel
  end.

Notation "x <- c ;; k" := (bind c (fun x => k))
  (at level 61, c at next level, right associativity).

(** Modelled from the spec: [GetDataAt(PixelX, PixelY)] of [RoadMap.h]
    returns [cells[y * width + x]]; indexing outside the array is fatal. *)
Definition GetDataAtPixel (g : URoadMap) (x y : Z) : outcome FRoadMapPixelData :=
  match nth_error (RoadMap g) (Z.to_nat (y * Width g + x)) with
  | Some d => if 0 <=? y * Width g + x then Done d else Fatal
  | None => Fatal
  end.

(** [ClampFloatToUInt]: the [int32] result of [Clamp] returned as [uint32]. *)
Definition ClampFloatToUInt (Value : float) (Min Max : Z) : Z :=
  u32 (Clamp (FloorToInt Value) Min Max).

Section Queries.
Context {TM : TransformMath}.

(** [GetWorldLocation(PixelX, PixelY)]. *)
Definition GetWorldLocation (g : URoadMap) (PixelX PixelY : Z) : FVector :=
  let RelativePosition :=
    mkVector (F32.div (F32.of_Z PixelX) (PixelsPerCentimeter g))
             (F32.div (F32.of_Z PixelY) (PixelsPerCentimeter g))
             F32.zero in
  InverseTransformPosition (WorldToMap g) (vadd RelativePosition (MapOffset g)).

(** The pixel indices computed by [GetDataAt(WorldLocation)].  The upper
    bounds [Width - 1] and [Height - 1] are [uint32] values passed as
    [int32] arguments. *)
Definition ToPixel (g : URoadMap) (WorldLocation : FVector) : Z * Z :=
  let Location := vsub (TransformPosition (WorldToMap g) WorldLocation) (MapOffset g) in
  let X := ClampFloatToUInt (F32.mul (PixelsPerCentimeter g) (VX Location))
                            0 (i32 (u32 (Width g - 1))) in
  let Y := ClampFloatToUInt (F32.mul (PixelsPerCentimeter g) (VY Location))
                            0 (i32 (u32 (Height g - 1))) in
  (X, Y).

(** [GetDataAt(WorldLocation)]: [check(IsValid())], then the pixel. *)
Definition GetDataAt (g : URoadMap) (WorldLocation : FVector)
  : outcome FRoadMapPixelData :=
  if IsValid g then
    let '(X, Y) := ToPixel g WorldLocation in
    GetDataAtPixel g X Y
  else Fatal.

(** *** [Intersect] *)

Inductive LogEntry := LogWarning (msg : string).

Record IntersectState := mkState {
  CheckCount : Z;
  Result : FRoadMapIntersectionResult
}.

Definition InitialState : IntersectState :=
  mkState 0 (mkResult F32.zero F32.zero).

(** How one sampled pixel changes the two counters. *)
Definition Classify (DirectionOfMovement : FVector) (Data : FRoadMapPixelData)
           (r : FRoadMapIntersectionResult) : FRoadMapIntersectionResult :=
  if bIsOffRoad Data then
    mkResult (F32.add (OffRoad r) F32.one) (OppositeLane r)
  else if bHasDirection Data
          && F32.ltb F32.zero (DotProduct (Direction Data) DirectionOfMovement)
  then mkResult (OffRoad r) (F32.add (OppositeLane r) F32.one)
  else r.

(** One pass through the loop body once the pixel is known: [++CheckCount]
    and the classification. *)
Definition Tally (DirectionOfMovement : FVector) (st : IntersectState)
           (Data : FRoadMapPixelData) : IntersectState :=
  mkState (u32 (CheckCount st + 1))
          (Classify DirectionOfMovement Data (Result st)).

Section Loops.
Variable g : URoadMap.
Variable BoxTransform : FTransform.
Variable BoxExtent : FVector.
Variable Step : float.
Variable DirectionOfMovement : FVector.

(** The body of the inner loop at the sample [(X, Y)]. *)
Definition Body (X Y : float) (st : IntersectState) : outcome IntersectState :=
  let Location := TransformPosition BoxTransform (mkVector X Y F32.zero) in
  Data <- GetDataAt g Location ;;
  Done (Tally DirectionOfMovement st Data).

(** [for (float Y = ...; Y < BoxExtent.Y; Y += Step)] *)
Fixpoint LoopY (fuel : nat) (X Y : float) (st : IntersectState)
  : outcome IntersectState :=
  match fuel with
  | O => OutOfFuel
  | S fuel' =>
      if F32.ltb Y (VY BoxExtent) then
        st' <- Body X Y st ;;
        LoopY fuel' X (F32.add Y Step) st'
      else Done st
  end.

(** [for (float X = ...; X < BoxExtent.X; X += Step)] *)
Fixpoint LoopX (fuelY fuel : nat) (X : float) (st : IntersectState)
  : outcome IntersectState :=
  match fuel with
  | O => OutOfFuel
  | S fuel' =>
      if F32.ltb X (VX BoxExtent) then
        st' <- LoopY fuelY X (F32.neg (VY BoxExtent)) st ;;
        LoopX fuelY fuel' (F32.add X Step) st'
      else Done st
  end.
End Loops.

Definition ZeroChecksWarning : LogEntry :=
  LogWarning "URoadMap::Intersect did zero checks"%string.

(** The division by the number of checks, or the warning. *)
Definition Finish (st : IntersectState)
  : FRoadMapIntersectionResult * list LogEntry :=
  if 0 <? CheckCount st then
    (mkResult (F32.div (OffRoad (Result st)) (F32.of_Z (CheckCount st)))
              (F32.div (OppositeLane (Result st)) (F32.of_Z (CheckCount st))),
     [])
  else (Result st, [ZeroChecksWarning]).

(** [Intersect(BoxTransform, BoxExtent, ChecksPerCentimeter)].  Each of
    the two loops may run for at most [fuel] iterations. *)
Definition Intersect (fuel : nat) (g : URoadMap) (BoxTransform : FTransform)
           (BoxExtent : FVector) (ChecksPerCentimeter : float)
  : outcome (FRoadMapIntersectionResult * list LogEntry) :=
  let DirectionOfMovement := GetForwardVector (Rotation BoxTransform) in
  let Step := F32.div F32.one ChecksPerCentimeter in
  st <- LoopX g BoxTransform BoxExtent Step DirectionOfMovement
              fuel fuel (F32.neg (VX BoxExtent)) InitialState ;;
  Done (Finish st).
End Queries.

(* ===================================================================== *)
(** ** Pixel encoding *)
(* ===================================================================== *)

(** The lambda [ToColor]: [FMath::FloorToInt(255.0 * (X + 1.0f) / 2.0f)].
    The sum is a [float]; the product and the quotient are computed in
    [double] and converted back to [float] for [FloorToInt]. *)
Definition ToColor (X : float) : Z :=
  FloorToInt
    (F64.to_F32
       (F64.div (F64.mul (F64.of_Z 255) (F64.of_F32 (F32.add X F32.one)))
                (F64.of_F32 F32.two))).

(** [Encode]: the [int32] channels are narrowed to the [uint8] parameters of
    the [FColor] constructor, whose alpha defaults to 255. *)
Definition Encode (Data : FRoadMapPixelData) : FColor :=
  if bIsOffRoad Data then mkColor 0 0 0 255
  else if negb (bHasDirection Data) then mkColor 255 255 255 255
  else mkColor (u8 (ToColor (VX (Direction Data))))
               (u8 (ToColor (VY (Direction Data))))
               (u8 (ToColor (VZ (Direction Data))))
               255.

(* ===================================================================== *)
(** ** Population *)
(* ===================================================================== *)

(** Modelled from the spec: the tags of [ECityMapMeshTag] that carry a
    direction; [OtherTag] stands for every other enumerator. *)
Inductive ECityMapMeshTag :=
| RoadTwoLanes_LaneLeft
| RoadTwoLanes_LaneRight
| Road90DegTurn_Lane0
| Road90DegTurn_Lane1
| Road90DegTurn_Lane2
| Road90DegTurn_Lane3
| OtherTag (n : nat).

Definition AddYaw (r : FRotator) (deg : Z) : FRotator :=
  mkRotator (Pitch r) (F32.add (Yaw r) (F32.of_Z deg)) (Roll r).

Section Population.
Context {TM : TransformMath} {RM : RotatorMath}.

(** The [switch] of [AppendPixel]: the rotator and the direction flag
    after it, from the rotator and the flag before it. *)
Definition SwitchTag (Tag : ECityMapMeshTag) (Rot : FRotator) (HasDirection : bool)
  : FRotator * bool :=
  match Tag with
  | RoadTwoLanes_LaneRight | Road90DegTurn_Lane0 => (Rot, true)
  | RoadTwoLanes_LaneLeft | Road90DegTurn_Lane1 => (AddYaw Rot 180, true)
  | Road90DegTurn_Lane2 => (AddYaw Rot 90, true)
  | Road90DegTurn_Lane3 => (AddYaw Rot 270, true)
  | OtherTag _ => (Rot, HasDirection)
  end.

(** [AppendPixel(Tag, Transform, bInvertDirection)]: [Data] is a reference
    to the last pixel of the array. *)
Definition AppendPixel (g : URoadMap) (Tag : ECityMapMeshTag)
           (Transform : FTransform) (bInvertDirection : bool) : URoadMap :=
  let g1 := AppendEmptyPixel g in
  let Data := last (RoadMap g1) DefaultPixel in
  let '(Rot, HasDirection) :=
    SwitchTag Tag (Rotator (Rotation Transform)) (bHasDirection Data) in
  let Dir :=
    if HasDirection then
      let Forward := GetForwardVector (MakeQuat Rot) in
      if bInvertDirection then vscale Forward F32.minus_one else Forward
    else Direction Data in
  mkRoadMap (WorldToMap g1) (MapOffset g1) (PixelsPerCentimeter g1)
            (Width g1) (Height g1)
            (removelast (RoadMap g1) ++ [mkPixel false HasDirection Dir]).
End Population.

(** [Set(inWidth, inHeight, inPinxelsPerCentimeter, inWorldToMap, inMapOffset)]. *)
Definition SetMap (g : URoadMap) (inWidth inHeight : Z)
           (inPinxelsPerCentimeter : float) (inWorldToMap : FTransform)
           (inMapOffset : FVector) : URoadMap :=
  mkRoadMap inWorldToMap inMapOffset inPinxelsPerCentimeter
            inWidth inHeight (RoadMap g).

(* ===================================================================== *)
(** ** Vocabulary of the statements *)
(* ===================================================================== *)

(** The type invariant of the [uint32] members. *)
Definition InRange (g : URoadMap) : Prop :=
  0 <= Width g < 2 ^ 32 /\ 0 <= Height g < 2 ^ 32.

(** The values a loop [for (v = start; v < hi; v += step)] visits, when it
    leaves within [fuel] tests of its condition. *)
Fixpoint AxisSamples (fuel : nat) (hi step v : float) : option (list float) :=
  match fuel with
  | O => None
  | S fuel' =>
      if F32.ltb v hi then
        match AxisSamples fuel' hi step (F32.add v step) with
        | Some l => Some (v :: l)
        | None => None
        end
      else Some []
  end.

(** The number of values such a loop visits, counted on the way. *)
Fixpoint AxisCount (fuel : nat) (hi step v : float) (count : Z) : option Z :=
  match fuel with
  | O => None
  | S fuel' =>
      if F32.ltb v hi then AxisCount fuel' hi step (F32.add v step) (count + 1)
      else Some count
  end.

(** The local offsets [(X, Y)] sampled by [Intersect], in the order of the
    nested loops; [None] when a loop has not left within [fuel] tests.  The
    inner loop is not entered when the outer range is empty. *)
Definition Samples (fuel : nat) (BoxExtent : FVector) (Step : float)
  : option (list (float * float)) :=
  match AxisSamples fuel (VX BoxExtent) Step (F32.neg (VX BoxExtent)) with
  | None => None
  | Some [] => Some []
  | Some xs =>
      match AxisSamples fuel (VY BoxExtent) Step (F32.neg (VY BoxExtent)) with
      | None => None
      | Some ys => Some (list_prod xs ys)
      end
  end.

(** The number of samples taken. *)
Definition SampleCount (fuel : nat) (BoxExtent : FVector) (Step : float) : option Z :=
  match Samples fuel BoxExtent Step with
  | Some ps => Some (Z.of_nat (length ps))
  | None => None
  end.

(** Running a step function over a list of samples, stopping at a failure. *)
Fixpoint FoldM {A B : Type} (f : B -> A -> outcome A) (l : list B) (a : A)
  : outcome A :=
  match l with
  | [] => Done a
  | b :: l' => a' <- f b a ;; FoldM f l' a'
  end.

Fixpoint MapM {A B : Type} (f : A -> outcome B) (l : list A) : outcome (list B) :=
  match l with
  | [] => Done []
  | a :: l' => b <- f a ;; bs <- MapM f l' ;; Done (b :: bs)
  end.

(** The pixel read for the local offset [p]. *)
Definition SampleAt {TM : TransformMath} (g : URoadMap) (T : FTransform)
           (p : float * float) : outcome FRoadMapPixelData :=
  GetDataAt g (TransformPosition T (mkVector (fst p) (snd p) F32.zero)).

(** The second branch of the classification. *)
Definition IsOpposite (Dir : FVector) (d : FRoadMapPixelData) : bool :=
  negb (bIsOffRoad d) && bHasDirection d
  && F32.ltb F32.zero (DotProduct (Direction d) Dir).

Definition CountOff (ds : list FRoadMapPixelData) : Z :=
  Z.of_nat (length (filter bIsOffRoad ds)).

Definition CountOpposite (Dir : FVector) (ds : list FRoadMapPixelData) : Z :=
  Z.of_nat (length (filter (IsOpposite Dir) ds)).

(** A [float] counter after [n] increments by [1.0f]: exact up to [2^24],
    where it stays. *)
Definition Counter (n : Z) : float := F32.of_Z (Z.min n (2 ^ 24)).

(** Non-negative finite binary32 values. *)
Definition NonNeg (x : float) : Prop :=
  x = F32.zero \/ exists m e, x = S754_finite false m e /\ F32.valid x = true.

Definition ValidVector (v : FVector) : Prop :=
  F32.valid (VX v) = true /\ F32.valid (VY v) = true /\ F32.valid (VZ v) = true.

Definition TagHasDirection (Tag : ECityMapMeshTag) : bool :=
  match Tag with
  | OtherTag _ => false
  | _ => true
  end.

(** The direction recorded by the last pixel of a map. *)
Definition LastDirection (g : URoadMap) : FVector :=
  Direction (last (RoadMap g) DefaultPixel).

(** The value of a finite binary32 number in units of [2^-300]; the
    exponent of such a number is at least [-149], so nothing is lost. *)
Definition Value300 (x : float) : Z :=
  match x with
  | S754_finite s m e => (if s then Zneg m else Zpos m) * 2 ^ (e + 300)
  | _ => 0
  end.

(** [floor(255 * (c + 1) / 2)] in exact arithmetic. *)
Definition ExactChannel (c : float) : Z :=
  (255 * (Value300 c + 2 ^ 300)) / 2 ^ 301.

(** The encoding in the words of the specification: black off the road,
    white on a road without direction, and otherwise the three channels
    [floor(255 * (component + 1) / 2)], with an opaque alpha. *)
Definition EncodeSpec (Data : FRoadMapPixelData) : FColor :=
  if bIsOffRoad Data then mkColor 0 0 0 255
  else if negb (bHasDirection Data) then mkColor 255 255 255 255
  else mkColor (ExactChannel (VX (Direction Data)))
               (ExactChannel (VY (Direction Data)))
               (ExactChannel (VZ (Direction Data)))
               255.

(** A component between [-1.0f] and [1.0f], as those of a normalised
    direction are. *)
Definition UnitComponent (x : float) : Prop :=
  F32.valid x = true /\
  F32.leb F32.minus_one x = true /\ F32.leb x F32.one = true.

(** *** Inputs used in the examples *)

Definition ForwardX : FVector := mkVector F32.one F32.zero F32.zero.

(** An on-road pixel whose lane runs along [+X]. *)
Definition LaneAlongX : FRoadMapPixelData := mkPixel false true ForwardX.

(** The largest binary32 number below [1.0f], and an on-road pixel whose
    lane runs along [+X] with that length. *)
Definition NearlyOne : float := S754_finite false 16777215 (-24).

Definition NearlyAlongX : FRoadMapPixelData :=
  mkPixel false true (mkVector NearlyOne F32.zero F32.zero).

(** A 3 x 1 map, one pixel off the road and two on a lane along [+X],
    whose pixel [(0, 0)] starts at [(-1.5, -0.5)]. *)
Definition ThirdsMap : URoadMap :=
  mkRoadMap TransformIdentity
            (mkVector (S754_finite true 12582912 (-23))
                      (S754_finite true 8388608 (-24)) F32.zero)
            F32.one 3 1 [DefaultPixel; LaneAlongX; LaneAlongX].

(** A box of 3 x 1 centimetres. *)
Definition ThirdsExtent : FVector :=
  mkVector (S754_finite false 12582912 (-23)) (S754_finite false 8388608 (-24))
           F32.zero.



(** A one-pixel map. *)
Definition SinglePixelMap (d : FRoadMapPixelData) : URoadMap :=
  mkRoadMap TransformIdentity ZeroVector F32.one 1 1 [d].

(** The binary32 number [2^k], for [-126 <= k <= 127]. *)
Definition Pow2 (k : Z) : float := S754_finite false 8388608 (k - 23).

(** A map at [2^k] pixels per centimetre, aligned with the world. *)
Definition AlignedMap (k W H : Z) (cells : list FRoadMapPixelData) : URoadMap :=
  mkRoadMap TransformIdentity ZeroVector (Pow2 k) W H cells.

(** The binary32 number [n / 2^k] for a whole number [n], as
    [GetWorldLocation] computes the coordinate of the pixel [n] at [2^k]
    pixels per centimetre. *)
Definition Scaled (n k : Z) : float := F32.div (F32.of_Z n) (Pow2 k).




(** A box of 65536 x 65536 centimetres. *)
Definition HugeExtent : FVector :=
  mkVector (F32.of_Z 32768) (F32.of_Z 32768) F32.zero.


Definition UnitExtent : FVector := mkVector F32.one F32.one F32.zero.

(** A stand-in for the engine's Euler conversions that is exact on the
    identity and on the half turn about the vertical axis. *)
#[export] Instance HalfTurns : RotatorMath := {
  Rotator := fun _ => mkRotator F32.zero F32.zero F32.zero;
  MakeQuat := fun r =>
    if F32.eqb (Yaw r) (F32.of_Z 180)
    then mkQuat F32.zero F32.zero F32.one F32.zero
    else QuatIdentity
}.

(* ===================================================================== *)
(** ** Image export and debug drawing *)
(* ===================================================================== *)

(** The engine services called by [SaveAsPNG] and
    [DrawDebugPixelsToLevel], recorded in the order of the calls.
    [LogSaved] is the line [UE_LOG(LogCarla, Log, ...)] with the path the
    engine reported. *)
Inductive EngineCall :=
| LogError (msg : string)
| LogSaved (ResultPath : string)
| SaveImage (Path : string) (BitMap : list FColor) (DestSize : Z * Z)
| FlushPersistentDebugLines
| DrawDebugPoint (Location : FVector) (Size : float) (Color : FColor)
                 (bPersistentLines : bool).

(** [FHighResScreenshotConfig::SaveImage] belongs to the engine: it writes
    the file and reports the path it used. *)
Class ScreenshotConfig := {
  ResultPathOf : string -> list FColor -> Z * Z -> string
}.

(** [SaveAsPNG(Path)]: the returned flag and the engine calls made.
    [FIntPoint DestSize(Width, Height)] takes the [uint32] dimensions as
    [int32]. *)
Definition SaveAsPNG {SC : ScreenshotConfig} (g : URoadMap) (Path : string)
  : bool * list EngineCall :=
  if negb (IsValid g) then
    (false, [LogError "Cannot save invalid road map to disk"%string])
  else
    let BitMap := map Encode (RoadMap g) in
    let DestSize := (i32 (Width g), i32 (Height g)) in
    let ResultPath := ResultPathOf Path BitMap DestSize in
    (true, [SaveImage Path BitMap DestSize; LogSaved ResultPath]).

(** The values of the variable of a loop [for (auto X = 0u; X < n; ++X)]. *)
Definition UIntRange (n : Z) : list Z := map Z.of_nat (seq 0 (Z.to_nat n)).

Section Debug.
Context {TM : TransformMath}.

(** The body of the loops of [DrawDebugPixelsToLevel] at the pixel [p]. *)
Definition DrawPixel (g : URoadMap) (p : Z * Z) : outcome EngineCall :=
  let Location := GetWorldLocation g (fst p) (snd p) in
  Data <- GetDataAtPixel g (fst p) (snd p) ;;
  Done (DrawDebugPoint Location (F32.of_Z 20) (Encode Data) true).

(** [DrawDebugPixelsToLevel(World, bJustFlushDoNotDraw)]: the outer loop
    runs over the columns, the inner loop over the rows. *)
Definition DrawDebugPixelsToLevel (g : URoadMap) (bJustFlushDoNotDraw : bool)
  : outcome (list EngineCall) :=
  if negb bJustFlushDoNotDraw then
    points <- MapM (DrawPixel g)
                   (list_prod (UIntRange (Width g)) (UIntRange (Height g))) ;;
    Done (FlushPersistentDebugLines :: points)
  else Done [FlushPersistentDebugLines].
End Debug.

(* ===================================================================== *)
(** ** Vocabulary of the further properties *)
(* ===================================================================== *)

(** Finite binary32 values other than the negative zero. *)
Definition Regular (x : float) : Prop :=
  x = F32.zero \/
  exists s m e, x = S754_finite s m e /\ F32.valid x = true.

(** One call of [AppendPixel] with its three arguments. *)
Definition Placement : Type := ECityMapMeshTag * FTransform * bool.

(** A sequence of calls of [AppendPixel], first to last. *)
Definition AppendPixels {TM : TransformMath} {RM : RotatorMath}
           (g : URoadMap) (l : list Placement) : URoadMap :=
  fold_left (fun g p => AppendPixel g (fst (fst p)) (snd (fst p)) (snd p)) l g.

(** The index of the pixel [(X, Y)] in the array of a map of width [W]. *)
Definition PixelIndex (W : Z) (p : Z * Z) : Z := snd p * W + fst p.

(** The engine call for the debug point of the pixel [p], when the array
    holds the pixel. *)
Definition DebugPoint {TM : TransformMath} (g : URoadMap) (p : Z * Z) : EngineCall :=
  DrawDebugPoint (GetWorldLocation g (fst p) (snd p)) (F32.of_Z 20)
                 (Encode (nth (Z.to_nat (PixelIndex (Width g) p)) (RoadMap g)
                              DefaultPixel))
                 true.

(** A stand-in for the engine's image writer that reports the path it was
    given. *)
#[export] Instance SamePath : ScreenshotConfig := {
  ResultPathOf := fun Path _ _ => Path
}.

(* ===================================================================== *)
(** ** Rounding to a binary format *)
(* ===================================================================== *)

Lemma digits2_bounds (p : positive) :
  2 ^ (Zpos (digits2_pos p) - 1) <= Zpos p < 2 ^ Zpos (digits2_pos p).
Proof.
  induction p as [p IH | p IH |]; cbn [digits2_pos].
  - rewrite Pos2Z.inj_succ. replace (Z.succ (Zpos (digits2_pos p)) - 1) with (Zpos (digits2_pos p)) by lia.
    rewrite Z.pow_succ_r by lia.
    assert (2 ^ Zpos (digits2_pos p) = 2 * 2 ^ (Zpos (digits2_pos p) - 1)).
    { rewrite <- Z.pow_succ_r by lia. f_equal. lia. }
    lia.
  - rewrite Pos2Z.inj_succ. replace (Z.succ (Zpos (digits2_pos p)) - 1) with (Zpos (digits2_pos p)) by lia.
    rewrite Z.pow_succ_r by lia.
    assert (2 ^ Zpos (digits2_pos p) = 2 * 2 ^ (Zpos (digits2_pos p) - 1)).
    { rewrite <- Z.pow_succ_r by lia. f_equal. lia. }
    lia.
  - cbn. lia.
Qed.

Lemma pow2_lt_mono_inv (a b : Z) : 0 <= a -> 0 <= b -> 2 ^ a < 2 ^ b -> a < b.
Proof. intros. apply Z.pow_lt_mono_r_iff with (a := 2); lia. Qed.

Lemma digits2_unique (p : positive) (d : Z) :
  2 ^ (d - 1) <= Zpos p < 2 ^ d -> Zpos (digits2_pos p) = d.
Proof.
  intros [Hlo Hhi]. pose proof (digits2_bounds p) as [Blo Bhi].
  assert (0 < d).
  { destruct (Z_lt_le_dec 0 d); [assumption |].
    exfalso. destruct (Z.eq_dec d 0) as [-> | ]; [cbn in Hhi; lia |].
    rewrite Z.pow_neg_r in Hhi by lia. lia. }
  assert (Zpos (digits2_pos p) - 1 < d).
  { apply pow2_lt_mono_inv; try lia. }
  assert (d - 1 < Zpos (digits2_pos p)).
  { apply pow2_lt_mono_inv; try lia. }
  lia.
Qed.

Lemma iter_xO_val (n : positive) (p : positive) :
  Zpos (Pos.iter xO p n) = Zpos p * 2 ^ Zpos n.
Proof.
  revert p. induction n using Pos.peano_ind; intros p.
  - cbn. lia.
  - rewrite Pos.iter_succ. rewrite Pos2Z.inj_succ, Z.pow_succ_r by lia.
    rewrite Pos2Z.inj_xO, IHn. lia.
Qed.

Lemma digits2_shift (p : positive) (k : Z) (q : positive) :
  0 <= k -> Zpos q = Zpos p * 2 ^ k ->
  Zpos (digits2_pos q) = Zpos (digits2_pos p) + k.
Proof.
  intros Hk Hq. apply digits2_unique. rewrite Hq.
  pose proof (digits2_bounds p) as [Blo Bhi].
  replace (Zpos (digits2_pos p) + k - 1) with ((Zpos (digits2_pos p) - 1) + k) by lia.
  rewrite !Z.pow_add_r by lia.
  assert (0 < 2 ^ k) by (apply Z.pow_pos_nonneg; lia).
  nia.
Qed.

(** iter_pos as n-fold iteration *)
Lemma iter_pos_iter {A} (f : A -> A) (n : positive) :
  forall x, iter_pos f n x = Pos.iter f x n.
Proof.
  induction n as [n IH | n IH |]; intros x; cbn [iter_pos Pos.iter].
  - rewrite !IH, !Pos.iter_swap. reflexivity.
  - rewrite !IH. reflexivity.
  - reflexivity.
Qed.

Lemma shr_1_exact (m : Z) :
  0 <= m -> shr_1 (Build_shr_record (2 * m) false false) = Build_shr_record m false false.
Proof. intros _. destruct m as [| p | p]; reflexivity. Qed.

Lemma shr_exact (n : positive) (m : Z) :
  0 <= m ->
  iter_pos shr_1 n (Build_shr_record (m * 2 ^ Zpos n) false false)
  = Build_shr_record m false false.
Proof.
  intros Hm. rewrite iter_pos_iter. induction n using Pos.peano_ind.
  - cbn [Pos.iter]. replace (m * 2 ^ 1) with (2 * m) by lia. now apply shr_1_exact.
  - rewrite Pos.iter_succ_r.
    rewrite Pos2Z.inj_succ, Z.pow_succ_r by lia.
    replace (m * (2 * 2 ^ Zpos n)) with (2 * (m * 2 ^ Zpos n)) by lia.
    rewrite shr_1_exact; [assumption |].
    apply Z.mul_nonneg_nonneg; [assumption | apply Z.pow_nonneg; lia].
Qed.

Lemma shr_1_m (mrs : shr_record) :
  0 <= shr_m mrs -> shr_m (shr_1 mrs) = shr_m mrs / 2.
Proof.
  destruct mrs as [m r s]. cbn [shr_m]. intros H.
  destruct m as [| [p | p |] | p]; cbn [shr_1 shr_m]; try reflexivity; try lia.
  - rewrite Pos2Z.inj_xI. apply Z.div_unique with (r := 1); lia.
  - rewrite Pos2Z.inj_xO. apply Z.div_unique with (r := 0); lia.
Qed.

Lemma shr_m_iter (n : positive) (mrs : shr_record) :
  0 <= shr_m mrs ->
  shr_m (iter_pos shr_1 n mrs) = shr_m mrs / 2 ^ Zpos n.
Proof.
  intros Hm. rewrite iter_pos_iter. induction n using Pos.peano_ind.
  - cbn [Pos.iter]. rewrite shr_1_m by assumption. reflexivity.
  - rewrite Pos.iter_succ. rewrite shr_1_m.
    + rewrite IHn. rewrite Pos2Z.inj_succ, Z.pow_succ_r by lia.
      rewrite Z.div_div by (try lia; apply Z.pow_pos_nonneg; lia).
      f_equal. lia.
    + rewrite IHn. apply Z.div_pos; [assumption | apply Z.pow_pos_nonneg; lia].
Qed.

Section Rounding.
Variables prec emax : Z.

Lemma bounded_spec (m : positive) (e : Z) :
  bounded prec emax m e = true <->
  fexp prec emax (Zpos (digits2_pos m) + e) = e /\ e <= emax - prec.
Proof.
  unfold bounded, canonical_mantissa. rewrite andb_true_iff, Z.eqb_eq, Z.leb_le.
  reflexivity.
Qed.

Lemma binary_round_aux_exact (s : bool) (m : positive) (e k : Z) :
  bounded prec emax m e = true -> 0 <= k ->
  binary_round_aux prec emax s (Zpos m * 2 ^ k) (e - k) loc_Exact
  = S754_finite s m e.
Proof.
  intros Hb Hk. apply bounded_spec in Hb as [Hc He].
  assert (Hpos : 0 < Zpos m * 2 ^ k).
  { apply Z.mul_pos_pos; [lia | apply Z.pow_pos_nonneg; lia]. }
  destruct (Zpos m * 2 ^ k) as [| q | q] eqn:Eq; try lia.
  pose proof (digits2_shift m k q Hk) as Hd. rewrite Eq in Hd.
  specialize (Hd eq_refl).
  unfold binary_round_aux, shr_fexp. cbn [Zdigits2 shr_record_of_loc].
  rewrite Hd. replace (Zpos (digits2_pos m) + k + (e - k)) with (Zpos (digits2_pos m) + e) by lia.
  rewrite Hc. replace (e - (e - k)) with k by lia.
  assert (Hshr : shr (Build_shr_record (Zpos q) false false) (e - k) k
                 = (Build_shr_record (Zpos m) false false, e)).
  { unfold shr. destruct k as [| p | p]; try lia.
    - f_equal; [| lia]. f_equal. rewrite Z.pow_0_r in Eq. lia.
    - f_equal; [| lia]. rewrite <- Eq. apply shr_exact. lia. }
  rewrite Hshr. cbn [shr_m loc_of_shr_record round_nearest_even Zdigits2 shr_record_of_loc].
  rewrite Hc. rewrite Z.sub_diag. cbn [shr shr_m].
  apply Z.leb_le in He. rewrite He. reflexivity.
Qed.

Lemma binary_round_exact (s : bool) (m' m : positive) (e' e c : Z) :
  bounded prec emax m e = true -> c <= e -> c <= e' ->
  Zpos m' * 2 ^ (e' - c) = Zpos m * 2 ^ (e - c) ->
  binary_round prec emax s m' e' = S754_finite s m e.
Proof.
  intros Hb Hce Hce' Hv. pose proof Hb as Hb'. apply bounded_spec in Hb' as [Hc He].
  unfold binary_round.
  (* both mantissas denote the same value, so digits + exponent agree *)
  assert (Hde : Zpos (digits2_pos m') + e' = Zpos (digits2_pos m) + e).
  { assert (H1 : 0 < Zpos m' * 2 ^ (e' - c)).
    { apply Z.mul_pos_pos; [lia | apply Z.pow_pos_nonneg; lia]. }
    destruct (Zpos m' * 2 ^ (e' - c)) as [| q | q] eqn:Eq; try lia.
    pose proof (digits2_shift m' (e' - c) q ltac:(lia)) as D1.
    rewrite Eq in D1. specialize (D1 eq_refl).
    pose proof (digits2_shift m (e - c) q ltac:(lia)) as D2.
    rewrite Hv in D2. specialize (D2 eq_refl). lia. }
  rewrite Hde, Hc. unfold shl_align.
  destruct (e - e') as [| d | d] eqn:Ed.
  - assert (e' = e) by lia. subst e'.
    assert (Zpos m' = Zpos m).
    { assert (0 < 2 ^ (e - c)) by (apply Z.pow_pos_nonneg; lia). nia. }
    replace m' with m by congruence.
    replace (Zpos m) with (Zpos m * 2 ^ 0) by (rewrite Z.pow_0_r; lia).
    replace e with (e - 0) at 1 by lia.
    apply binary_round_aux_exact; [assumption | lia].
  - (* e' < e : the input carries extra low zero bits *)
    assert (Hm : Zpos m' = Zpos m * 2 ^ Zpos d).
    { assert (0 < 2 ^ (e' - c)) by (apply Z.pow_pos_nonneg; lia).
      replace (e - c) with ((e' - c) + Zpos d) in Hv by lia.
      rewrite Z.pow_add_r in Hv by lia. nia. }
    rewrite Hm. replace e' with (e - Zpos d) by lia.
    apply binary_round_aux_exact; [assumption | lia].
  - (* e < e' : the input is shifted left to the canonical exponent *)
    rewrite iter_xO_val.
    assert (Hm : Zpos m' * 2 ^ Zpos d = Zpos m).
    { assert (0 < 2 ^ (e - c)) by (apply Z.pow_pos_nonneg; lia).
      replace (e' - c) with ((e - c) + Zpos d) in Hv by lia.
      rewrite Z.pow_add_r in Hv by lia. nia. }
    rewrite Hm.
    replace (Zpos m) with (Zpos m * 2 ^ 0) by (rewrite Z.pow_0_r; lia).
    replace e with (e - 0) at 1 by lia.
    apply binary_round_aux_exact; [assumption | lia].
Qed.
End Rounding.

Section RoundSpec.
Variables prec emax : Z.
Hypothesis Hprec : 0 < prec.

Lemma Zdigits2_bounds (m : Z) :
  0 < m -> 2 ^ (Zdigits2 m - 1) <= m < 2 ^ Zdigits2 m.
Proof. destruct m as [| p | p]; try lia. intros _. apply digits2_bounds. Qed.

Lemma Zdigits2_unique (m d : Z) :
  2 ^ (d - 1) <= m < 2 ^ d -> 0 < m -> Zdigits2 m = d.
Proof. destruct m as [| p | p]; try lia. intros H _. now apply digits2_unique. Qed.

Lemma Zdigits2_nonneg (m : Z) : 0 <= Zdigits2 m.
Proof. destruct m; cbn; lia. Qed.

Lemma round_nearest_even_range (m : Z) (l : location) :
  m <= round_nearest_even m l <= m + 1.
Proof.
  destruct l as [| []]; cbn [round_nearest_even]; try lia.
  destruct (Z.even m); lia.
Qed.

Lemma shr_m_shr (mrs : shr_record) (e n : Z) :
  0 <= shr_m mrs -> 0 <= n ->
  shr_m (fst (shr mrs e n)) = shr_m mrs / 2 ^ n /\ snd (shr mrs e n) = e + n.
Proof.
  intros Hm Hn. unfold shr. destruct n as [| p | p]; try lia; cbn [fst snd].
  - rewrite Z.pow_0_r, Z.div_1_r. split; [reflexivity | lia].
  - split; [now apply shr_m_iter | reflexivity].
Qed.

Lemma shr_record_of_loc_m (m : Z) (l : location) :
  shr_m (shr_record_of_loc m l) = m.
Proof. destruct l as [| []]; reflexivity. Qed.

(** The result of [binary_round_aux] on a mantissa with at least as many
    digits as the format wants: truncate to [m1] at the format's exponent
    [e1], then stay or move one unit up. *)
Lemma binary_round_aux_spec (s : bool) (mx ex : Z) (lx : location) :
  0 < mx -> ex <= fexp prec emax (Zdigits2 mx + ex) ->
  let e1 := fexp prec emax (Zdigits2 mx + ex) in
  let m1 := mx / 2 ^ (e1 - ex) in
  exists m2, m1 <= m2 <= m1 + 1 /\
    m1 < 2 ^ prec /\
    (emin prec emax < e1 -> 2 ^ (prec - 1) <= m1) /\
    binary_round_aux prec emax s mx ex lx =
      if m2 =? 0 then S754_zero s
      else if m2 <? 2 ^ prec then
        if e1 <=? emax - prec then S754_finite s (Z.to_pos m2) e1
        else S754_infinity s
      else
        if e1 + 1 <=? emax - prec then S754_finite s (Z.to_pos (2 ^ (prec - 1))) (e1 + 1)
        else S754_infinity s.
Proof.
  intros Hmx Hex e1 m1.
  pose proof (Zdigits2_bounds mx Hmx) as [Dlo Dhi].
  pose proof (Zdigits2_nonneg mx) as Dnn.
  assert (Dpos : 0 < Zdigits2 mx).
  { destruct (Z.eq_dec (Zdigits2 mx) 0) as [E0 | ]; [| lia].
    rewrite E0 in Dhi. cbn in Dhi. lia. }
  assert (He1 : e1 = Z.max (Zdigits2 mx + ex - prec) (emin prec emax)) by reflexivity.
  assert (Hn : 0 <= e1 - ex) by (unfold e1; lia).
  assert (Hp2 : 0 < 2 ^ (e1 - ex)) by (apply Z.pow_pos_nonneg; lia).
  (* bounds on the truncated mantissa *)
  assert (Hm1hi : m1 < 2 ^ prec).
  { unfold m1. apply Z.div_lt_upper_bound; [assumption |].
    rewrite <- Z.pow_add_r by lia.
    eapply Z.lt_le_trans; [exact Dhi |].
    apply Z.pow_le_mono_r; lia. }
  assert (Hm1lo : emin prec emax < e1 -> 2 ^ (prec - 1) <= m1).
  { intros Hgt. assert (Ee : e1 - ex = Zdigits2 mx - prec) by lia.
    unfold m1. rewrite Ee. apply Z.div_le_lower_bound.
    - apply Z.pow_pos_nonneg; lia.
    - rewrite <- Z.pow_add_r by lia.
      replace (Zdigits2 mx - prec + (prec - 1)) with (Zdigits2 mx - 1) by lia.
      assumption. }
  assert (Hm1nn : 0 <= m1) by (unfold m1; apply Z.div_pos; lia).
  unfold binary_round_aux.
  (* first shift *)
  pose proof (shr_m_shr (shr_record_of_loc mx lx) ex (e1 - ex)) as Hs1.
  rewrite shr_record_of_loc_m in Hs1. specialize (Hs1 ltac:(lia) Hn).
  destruct (shr (shr_record_of_loc mx lx) ex (e1 - ex)) as [mrs' e'] eqn:Es1.
  cbn [fst snd] in Hs1. destruct Hs1 as [Hmrs' He'].
  replace (ex + (e1 - ex)) with e1 in He' by lia. subst e'.
  fold m1 in Hmrs'.
  assert (Es1' : shr_fexp prec emax mx ex lx = (mrs', e1)) by exact Es1.
  rewrite Es1'. rewrite Hmrs'.
  set (m2 := round_nearest_even m1 (loc_of_shr_record mrs')).
  pose proof (round_nearest_even_range m1 (loc_of_shr_record mrs')) as Hm2.
  fold m2 in Hm2.
  exists m2. split; [assumption |]. split; [assumption |]. split; [assumption |].
  (* second shift *)
  unfold shr_fexp. cbn [shr_record_of_loc].
  destruct (Z.eqb_spec m2 0) as [E0 | N0].
  - rewrite E0. cbn [Zdigits2]. 
    assert (Hz : fexp prec emax (0 + e1) - e1 <= 0) by (unfold fexp; lia).
    unfold shr. destruct (fexp prec emax (0 + e1) - e1) as [| p | p]; try lia; reflexivity.
  - assert (Hm2pos : 0 < m2) by lia.
    pose proof (Zdigits2_bounds m2 Hm2pos) as [D2lo D2hi].
    destruct (Z.ltb_spec m2 (2 ^ prec)) as [Hlt | Hge].
    + assert (Hd2 : Zdigits2 m2 <= prec).
      { destruct (Z_le_gt_dec (Zdigits2 m2) prec); [assumption |].
        assert (2 ^ prec <= 2 ^ (Zdigits2 m2 - 1)) by (apply Z.pow_le_mono_r; lia).
        lia. }
      assert (Hz : fexp prec emax (Zdigits2 m2 + e1) - e1 <= 0) by (unfold fexp; lia).
      unfold shr. destruct (fexp prec emax (Zdigits2 m2 + e1) - e1) as [| p | p]; try lia;
        cbn [shr_m]; destruct m2 as [| q | q]; try lia; reflexivity.
    + assert (Em2 : m2 = 2 ^ prec) by lia.
      assert (Hd2 : Zdigits2 m2 = prec + 1).
      { apply Zdigits2_unique; [| assumption]. rewrite Em2.
        replace (prec + 1 - 1) with prec by lia. split; [lia |].
        apply Z.pow_lt_mono_r; lia. }
      rewrite Hd2.
      assert (Hz : fexp prec emax (prec + 1 + e1) - e1 = 1) by (unfold fexp; lia).
      rewrite Hz. unfold shr. rewrite Em2.
      replace (2 ^ prec) with (2 ^ (prec - 1) * 2 ^ 1).
      2:{ rewrite <- Z.pow_add_r by lia. f_equal. lia. }
      rewrite (shr_exact 1 (2 ^ (prec - 1))) by (apply Z.pow_nonneg; lia).
      cbn [shr_m].
      assert (0 < 2 ^ (prec - 1)) by (apply Z.pow_pos_nonneg; lia).
      destruct (2 ^ (prec - 1)) as [| q | q] eqn:Eq; try lia.
      cbn [Z.to_pos]. reflexivity.
Qed.
End RoundSpec.

(** A number below [2^d] has at most [d] digits. *)
Lemma digits2_le (p : positive) (d : Z) :
  0 <= d -> Zpos p < 2 ^ d -> Zpos (digits2_pos p) <= d.
Proof.
  intros Hd Hp. pose proof (digits2_bounds p) as [Dlo _].
  destruct (Z_le_gt_dec (Zpos (digits2_pos p)) d); [assumption | exfalso].
  assert (2 ^ d <= 2 ^ (Zpos (digits2_pos p) - 1)) by (apply Z.pow_le_mono_r; lia).
  lia.
Qed.

Section RoundBelow.
Variables prec emax : Z.
Hypothesis Hprec : 0 < prec.

(** [binary_round] first aligns the mantissa so that [binary_round_aux]
    only has to drop digits. *)
Lemma binary_round_aligned (s : bool) (mx : positive) (ex : Z) :
  exists mz ez,
    binary_round prec emax s mx ex
    = binary_round_aux prec emax s (Zpos mz) ez loc_Exact /\
    Zpos (digits2_pos mz) + ez = Zpos (digits2_pos mx) + ex /\
    ez <= fexp prec emax (Zpos (digits2_pos mz) + ez).
Proof.
  unfold binary_round, shl_align.
  set (e := fexp prec emax (Zpos (digits2_pos mx) + ex)).
  destruct (e - ex) as [| d | d] eqn:Ed.
  - exists mx, ex. repeat split; fold e; lia.
  - exists mx, ex. repeat split; fold e; lia.
  - exists (Pos.iter xO mx d), e.
    assert (Hd : Zpos (digits2_pos (Pos.iter xO mx d)) + e
                 = Zpos (digits2_pos mx) + ex).
    { rewrite (digits2_shift mx (Zpos d) (Pos.iter xO mx d) ltac:(lia)
                 (iter_xO_val d mx)). lia. }
    repeat split; [exact Hd |]. rewrite Hd. fold e. lia.
Qed.

(** Rounding a positive number below [2^t] gives zero, a number with
    exponent at most [t - prec], or [2^t] itself. *)
Lemma binary_round_below_pow2 (s : bool) (mx : positive) (ex t : Z) :
  Zpos (digits2_pos mx) + ex <= t ->
  emin prec emax <= t - prec -> t < emax ->
  binary_round prec emax s mx ex = S754_zero s \/
  (exists m e, binary_round prec emax s mx ex = S754_finite s m e /\
               Zpos m < 2 ^ prec /\ emin prec emax <= e <= t - prec) \/
  binary_round prec emax s mx ex
  = S754_finite s (Z.to_pos (2 ^ (prec - 1))) (t - prec + 1).
Proof.
  intros Ht Hmin Hmax.
  destruct (binary_round_aligned s mx ex) as (mz & ez & -> & Hd & Hez).
  destruct (binary_round_aux_spec prec emax Hprec s (Zpos mz) ez loc_Exact
              ltac:(lia) Hez) as (m2 & Hm2 & Hm1 & _ & ->).
  cbn [Zdigits2] in *. rewrite Hd in *.
  set (e1 := fexp prec emax (Zpos (digits2_pos mx) + ex)) in *.
  assert (He1 : emin prec emax <= e1 <= t - prec) by (unfold e1, fexp; lia).
  assert (Hp : 0 < 2 ^ (prec - 1)) by (apply Z.pow_pos_nonneg; lia).
  assert (Hpp : 2 ^ (prec - 1) < 2 ^ prec) by (apply Z.pow_lt_mono_r; lia).
  destruct (Z.eqb_spec m2 0) as [E0 | N0]; [now left |].
  destruct (Z.ltb_spec m2 (2 ^ prec)) as [Hlt | Hge].
  - destruct (Z.leb_spec e1 (emax - prec)) as [_ | Hbad]; [| lia].
    right; left. exists (Z.to_pos m2), e1. repeat split; lia.
  - destruct (Z.leb_spec (e1 + 1) (emax - prec)) as [_ | Hbad]; [| lia].
    destruct (Z.eq_dec e1 (t - prec)) as [E | N].
    + right; right. rewrite E. reflexivity.
    + right; left. exists (Z.to_pos (2 ^ (prec - 1))), (e1 + 1).
      repeat split; lia.
Qed.
End RoundBelow.

(** ** binary32 facts *)

Lemma F32_fexp (x : Z) : fexp F32.prec F32.emax x = Z.max (x - 24) (-149).
Proof. reflexivity. Qed.

Lemma F32_bounded (m : positive) (e : Z) :
  bounded F32.prec F32.emax m e = true <->
  Z.max (Zpos (digits2_pos m) + e - 24) (-149) = e /\ e <= 104.
Proof. rewrite bounded_spec, F32_fexp. reflexivity. Qed.

(** Multiplying by [-1.0f] flips the sign and nothing else. *)
Lemma F32_mul_minus_one (x : float) :
  F32.valid x = true -> F32.mul x F32.minus_one = F32.neg x.
Proof.
  destruct x as [[] | [] | | s m e]; intros Hv; try reflexivity.
  unfold F32.mul, F32.minus_one, SFmul. rewrite xorb_true_r.
  rewrite Pos2Z.inj_mul. change (Zpos 8388608) with (2 ^ 23).
  replace (e + -23) with (e - 23) by lia.
  apply binary_round_aux_exact; [exact Hv | lia].
Qed.

Lemma F32_mul_one_r (x : float) :
  F32.valid x = true -> F32.mul x F32.one = x.
Proof.
  destruct x as [[] | [] | | s m e]; intros Hv; try reflexivity.
  unfold F32.mul, F32.one, SFmul. rewrite xorb_false_r.
  rewrite Pos2Z.inj_mul. change (Zpos 8388608) with (2 ^ 23).
  replace (e + -23) with (e - 23) by lia.
  apply binary_round_aux_exact; [exact Hv | lia].
Qed.

Lemma F32_mul_one_l (x : float) :
  F32.valid x = true -> F32.mul F32.one x = x.
Proof.
  destruct x as [s | s | | s m e]; intros Hv; try reflexivity.
  unfold F32.mul, F32.one, SFmul. cbn [xorb].
  rewrite Pos2Z.inj_mul, Z.mul_comm. change (Zpos 8388608) with (2 ^ 23).
  replace (-23 + e) with (e - 23) by lia.
  apply binary_round_aux_exact; [exact Hv | lia].
Qed.

Lemma div_eucl_exact (a b : Z) : 0 < b -> Z.div_eucl (a * b) b = (a, 0).
Proof.
  intros Hb.
  assert (Hq : a * b / b = a) by (apply Z.div_mul; lia).
  assert (Hr : (a * b) mod b = 0) by (apply Z.mod_mul; lia).
  unfold Z.div, Z.modulo in Hq, Hr.
  destruct (Z.div_eucl (a * b) b) as [q r]. now subst.
Qed.

Lemma new_location_exact (n : Z) : new_location n 0 = loc_Exact.
Proof. unfold new_location. destruct (Z.even n); reflexivity. Qed.

(** [x / x] is exactly [1.0f] for a finite non-zero [x]. *)
Lemma F32_div_self (s : bool) (m : positive) (e : Z) :
  F32.div (S754_finite s m e) (S754_finite s m e) = F32.one.
Proof.
  unfold F32.div, SFdiv, SFdiv_core_binary. cbn [Zdigits2].
  rewrite !Z.sub_diag. rewrite F32_fexp.
  change (Z.min (Z.max (0 - 24) (-149)) 0) with (-24).
  change (0 - -24) with 24. cbv iota. rewrite Z.shiftl_mul_pow2 by lia.
  rewrite Z.mul_comm, div_eucl_exact by lia. rewrite new_location_exact.
  rewrite xorb_nilpotent. reflexivity.
Qed.

Lemma pow2_pos (k : Z) : 0 <= k -> 0 < 2 ^ k.
Proof. intros. apply Z.pow_pos_nonneg; lia. Qed.

(** The binary32 representation of a positive integer up to [2^24]. *)
Lemma F32_of_Z_rep (n : Z) :
  0 < n <= 2 ^ 24 ->
  exists m e,
    F32.of_Z n = S754_finite false m e /\
    bounded F32.prec F32.emax m e = true /\
    -23 <= e <= 1 /\
    Zpos m * 2 ^ (e + 23) = n * 2 ^ 23.
Proof.
  intros [Hpos Hle]. destruct n as [| p | p]; try lia.
  pose proof (digits2_bounds p) as [Dlo Dhi].
  set (d := Zpos (digits2_pos p)) in *.
  assert (Hd1 : 1 <= d) by (unfold d; lia).
  assert (Hd25 : d <= 25).
  { destruct (Z_le_gt_dec d 25); [assumption |].
    assert (2 ^ 25 <= 2 ^ (d - 1)) by (apply Z.pow_le_mono_r; lia). lia. }
  destruct (Z_le_gt_dec d 24) as [Hd | Hd].
  - pose proof (pow2_pos (24 - d) ltac:(lia)) as Hp.
    assert (Hm : Zpos (Z.to_pos (Zpos p * 2 ^ (24 - d))) = Zpos p * 2 ^ (24 - d)).
    { apply Z2Pos.id. lia. }
    set (m := Z.to_pos (Zpos p * 2 ^ (24 - d))) in *.
    assert (Hdm : Zpos (digits2_pos m) = 24).
    { rewrite (digits2_shift p (24 - d) m ltac:(lia) Hm). fold d. lia. }
    assert (Hb : bounded F32.prec F32.emax m (d - 24) = true).
    { apply F32_bounded. rewrite Hdm. lia. }
    assert (Hv : Zpos m * 2 ^ (d - 24 + 23) = Zpos p * 2 ^ 23).
    { rewrite Hm, <- Z.mul_assoc, <- Z.pow_add_r by lia. do 2 f_equal. lia. }
    exists m, (d - 24). repeat split; try assumption; try lia.
    unfold F32.of_Z, binary_normalize.
    apply binary_round_exact with (c := -23); try assumption; try lia.
    replace (d - 24 - -23) with (d - 24 + 23) by lia. rewrite Hv. reflexivity.
  - assert (Ep : Zpos p = 2 ^ 24).
    { assert (2 ^ 24 <= 2 ^ (d - 1)) by (apply Z.pow_le_mono_r; lia). lia. }
    rewrite Ep. exists 8388608%positive, 1. repeat split; try reflexivity; lia.
Qed.

Lemma shl_align_val (m : positive) (e e' : Z) :
  e' <= e -> Zpos (fst (shl_align m e e')) = Zpos m * 2 ^ (e - e').
Proof.
  intros H. unfold shl_align.
  destruct (e' - e) as [| d | d] eqn:Ed; cbn [fst]; try lia.
  - replace (e - e') with 0 by lia. rewrite Z.pow_0_r. lia.
  - rewrite iter_xO_val. do 2 f_equal. lia.
Qed.

Lemma F32_add_one_exact (n : Z) :
  0 <= n < 2 ^ 24 -> F32.add (F32.of_Z n) F32.one = F32.of_Z (n + 1).
Proof.
  intros Hn. destruct (Z.eq_dec n 0) as [-> | Hn0]; [reflexivity |].
  destruct (F32_of_Z_rep n ltac:(lia)) as (m & e & -> & Hb & He & Hv).
  destruct (F32_of_Z_rep (n + 1) ltac:(lia)) as (m' & e' & -> & Hb' & He' & Hv').
  unfold F32.add, F32.one, SFadd.
  rewrite Z.min_r by lia.
  pose proof (shl_align_val m e (-23) ltac:(lia)) as Ha.
  replace (e - -23) with (e + 23) in Ha by lia. rewrite Hv in Ha.
  change (fst (shl_align 8388608 (-23) (-23))) with 8388608%positive.
  cbn [cond_Zopp].
  rewrite <- Pos2Z.inj_add. unfold binary_normalize.
  apply binary_round_exact with (c := -23); try assumption; try lia.
  rewrite Pos2Z.inj_add, Ha. replace (e' - -23) with (e' + 23) by lia.
  rewrite Hv'. change (Zpos 8388608) with (2 ^ 23).
  replace (-23 - -23) with 0 by lia. lia.
Qed.

Lemma Counter_succ (n : Z) :
  0 <= n -> F32.add (Counter n) F32.one = Counter (n + 1).
Proof.
  intros Hn. unfold Counter.
  destruct (Z_lt_le_dec n (2 ^ 24)) as [Hlt | Hge].
  - rewrite !Z.min_l by lia. apply F32_add_one_exact. lia.
  - rewrite !Z.min_r by lia. reflexivity.
Qed.

Lemma F32_floor_of_Z (n : Z) :
  0 <= n <= 2 ^ 24 -> F32.floor (F32.of_Z n) = Some n.
Proof.
  intros Hn. destruct (Z.eq_dec n 0) as [-> | Hn0]; [reflexivity |].
  destruct (F32_of_Z_rep n ltac:(lia)) as (m & e & -> & Hb & He & Hv).
  cbn [F32.floor]. f_equal.
  destruct (Z.leb_spec 0 e) as [Hle | Hlt].
  - replace (e + 23) with (23 + e) in Hv by lia.
    rewrite Z.pow_add_r in Hv by lia. lia.
  - assert (Hm : Zpos m = n * 2 ^ (- e)).
    { assert (Hs : 2 ^ 23 = 2 ^ (- e) * 2 ^ (e + 23)).
      { rewrite <- Z.pow_add_r by lia. f_equal. lia. }
      rewrite Hs, Z.mul_assoc in Hv.
      pose proof (pow2_pos (e + 23) ltac:(lia)).
      apply Z.mul_reg_r in Hv; lia. }
    rewrite Hm. apply Z.div_mul. pose proof (pow2_pos (- e) ltac:(lia)). lia.
Qed.

(** [x / 1.0f] is [x]. *)
Lemma F32_div_one (x : float) :
  F32.valid x = true -> F32.div x F32.one = x.
Proof.
  destruct x as [[] | [] | | s m e]; intros Hv; try reflexivity.
  pose proof Hv as Hb. apply F32_bounded in Hb as [Hc He].
  unfold F32.div, F32.one, SFdiv, SFdiv_core_binary. cbn [Zdigits2].
  change (Zpos (digits2_pos 8388608)) with 24. rewrite F32_fexp.
  set (d := Zpos (digits2_pos m)) in *.
  replace (d + e - (24 + -23) - 24) with (d + e - 25) by lia.
  replace (e - -23) with (e + 23) by lia.
  rewrite xorb_false_r.
  destruct (Z.eq_dec e (-149)) as [E | N].
  - (* subnormal range: the exponent cannot go lower *)
    assert (Hmin : Z.min (Z.max (d + e - 25) (-149)) (e + 23) = e) by lia.
    rewrite Hmin. replace (e + 23 - e) with 23 by lia. cbv iota.
    rewrite Z.shiftl_mul_pow2 by lia. change (Zpos 8388608) with (2 ^ 23).
    rewrite div_eucl_exact by lia. rewrite new_location_exact.
    replace (Zpos m) with (Zpos m * 2 ^ 0) by (rewrite Z.pow_0_r; lia).
    replace e with (e - 0) at 1 by lia.
    apply binary_round_aux_exact; [exact Hv | lia].
  - assert (Hmin : Z.min (Z.max (d + e - 25) (-149)) (e + 23) = e - 1) by lia.
    rewrite Hmin. replace (e + 23 - (e - 1)) with 24 by lia. cbv iota.
    rewrite Z.shiftl_mul_pow2 by lia. change (Zpos 8388608) with (2 ^ 23).
    replace (Zpos m * 2 ^ 24) with ((Zpos m * 2 ^ 1) * 2 ^ 23) by lia.
    rewrite div_eucl_exact by lia. rewrite new_location_exact.
    apply binary_round_aux_exact; [exact Hv | lia].
Qed.

Lemma F32_rep_digits (m : positive) (e : Z) :
  bounded F32.prec F32.emax m e = true -> -149 < e ->
  2 ^ 23 <= Zpos m < 2 ^ 24.
Proof.
  intros Hb He. apply F32_bounded in Hb as [Hc _].
  assert (Hd : Zpos (digits2_pos m) = 24) by lia.
  pose proof (digits2_bounds m) as H. rewrite Hd in H. exact H.
Qed.

Lemma F32_leb_one (m : positive) (e : Z) :
  e < -23 \/ (e = -23 /\ Zpos m <= 2 ^ 23) ->
  F32.leb (S754_finite false m e) F32.one = true.
Proof.
  intros H. unfold F32.leb, SFleb, F32.one, SFcompare.
  destruct (Z.compare_spec e (-23)) as [E | L | G].
  - destruct H as [H | [_ H]]; [lia |].
    rewrite Pos.compare_cont_spec.
    destruct (Pos.compare_spec m 8388608) as [E' | L' | G']; try reflexivity.
    change (2 ^ 23) with (Zpos 8388608) in H. lia.
  - reflexivity.
  - lia.
Qed.

Lemma div_eucl_div (a b : Z) : Z.div_eucl a b = (a / b, a mod b).
Proof. unfold Z.div, Z.modulo. now destruct (Z.div_eucl a b). Qed.

(** Two normal binary32 numbers with the same value are the same. *)
Lemma F32_normal_unique (ma mn : positive) (ea en : Z) :
  2 ^ 23 <= Zpos ma < 2 ^ 24 -> 2 ^ 23 <= Zpos mn < 2 ^ 24 ->
  -23 <= ea -> -23 <= en ->
  Zpos ma * 2 ^ (ea + 23) = Zpos mn * 2 ^ (en + 23) ->
  ma = mn /\ ea = en.
Proof.
  intros Hma Hmn Hea Hen Hv.
  assert (Hmono : forall m m' e e',
             2 ^ 23 <= m < 2 ^ 24 -> 2 ^ 23 <= m' < 2 ^ 24 -> 0 <= e -> e < e' ->
             m * 2 ^ e < m' * 2 ^ e').
  { intros m m' e e' Hm Hm' He Hee.
    replace e' with (e + (e' - e)) by lia. rewrite Z.pow_add_r by lia.
    pose proof (pow2_pos e He) as Hp.
    assert (HQ : 2 ^ 1 <= 2 ^ (e' - e)) by (apply Z.pow_le_mono_r; lia).
    change (2 ^ 1) with 2 in HQ.
    assert (H1 : m * 2 ^ e < 2 ^ 24 * 2 ^ e) by (apply Z.mul_lt_mono_pos_r; lia).
    assert (H2 : 2 ^ 23 * 2 <= m' * 2 ^ (e' - e))
      by (apply Z.mul_le_mono_nonneg; lia).
    assert (H3 : 2 ^ 23 * 2 * 2 ^ e <= m' * 2 ^ (e' - e) * 2 ^ e)
      by (apply Z.mul_le_mono_nonneg_r; lia).
    lia. }
  destruct (Z.lt_trichotomy ea en) as [Hlt | [Heq | Hgt]].
  - pose proof (Hmono _ _ (ea + 23) (en + 23) Hma Hmn ltac:(lia) ltac:(lia)). lia.
  - subst en. split; [| reflexivity].
    pose proof (pow2_pos (ea + 23) ltac:(lia)) as Hp.
    apply Z.mul_reg_r in Hv; [congruence | lia].
  - pose proof (Hmono _ _ (en + 23) (ea + 23) Hmn Hma ltac:(lia) ltac:(lia)). lia.
Qed.

(** The quotient of two positive normal binary32 numbers, the first not
    above the second, lies between [0.0f] and [1.0f]. *)
Lemma F32_div_le_one (ma mn : positive) (ea en : Z) :
  bounded F32.prec F32.emax ma ea = true ->
  bounded F32.prec F32.emax mn en = true ->
  -23 <= ea <= 9 -> -23 <= en <= 9 ->
  Zpos ma * 2 ^ (ea + 23) <= Zpos mn * 2 ^ (en + 23) ->
  F32.leb F32.zero (F32.div (S754_finite false ma ea) (S754_finite false mn en))
  = true /\
  F32.leb (F32.div (S754_finite false ma ea) (S754_finite false mn en)) F32.one
  = true.
Proof.
  intros Hba Hbn Hea Hen Hle.
  pose proof (F32_rep_digits ma ea Hba ltac:(lia)) as Hma.
  pose proof (F32_rep_digits mn en Hbn ltac:(lia)) as Hmn.
  destruct (Z.eq_dec (Zpos ma * 2 ^ (ea + 23)) (Zpos mn * 2 ^ (en + 23)))
    as [Heq | Hne].
  { destruct (F32_normal_unique ma mn ea en Hma Hmn ltac:(lia) ltac:(lia) Heq)
      as [-> ->].
    rewrite F32_div_self. split; reflexivity. }
  assert (Hda : Zpos (digits2_pos ma) = 24) by (apply digits2_unique; exact Hma).
  assert (Hdn : Zpos (digits2_pos mn) = 24) by (apply digits2_unique; exact Hmn).
  (* the exponents are ordered like the values *)
  assert (Hlt : Zpos ma * 2 ^ (ea + 23) < Zpos mn * 2 ^ (en + 23)) by lia.
  assert (Hee : ea <= en).
  { destruct (Z_le_gt_dec ea en); [assumption | exfalso].
    assert (2 ^ (en + 24) <= 2 ^ (ea + 23)) by (apply Z.pow_le_mono_r; lia).
    assert (2 ^ (en + 24) = 2 * 2 ^ (en + 23)).
    { replace (en + 24) with (Z.succ (en + 23)) by lia. apply Z.pow_succ_r. lia. }
    pose proof (pow2_pos (en + 23) ltac:(lia)). nia. }
  set (k := en - ea).
  assert (Hk : Zpos ma < Zpos mn * 2 ^ k).
  { replace (en + 23) with (k + (ea + 23)) in Hlt by (unfold k; lia).
    rewrite (Z.pow_add_r 2 k (ea + 23)), Z.mul_assoc in Hlt by (unfold k; lia).
    pose proof (pow2_pos (ea + 23) ltac:(lia)).
    apply Z.mul_lt_mono_pos_r in Hlt; assumption. }
  unfold F32.div, SFdiv, SFdiv_core_binary. cbn [Zdigits2 xorb].
  rewrite Hda, Hdn, F32_fexp.
  replace (Z.min (Z.max (24 + ea - (24 + en) - 24) (-149)) (ea - en))
    with (ea - en - 24) by lia.
  replace (ea - en - (ea - en - 24)) with 24 by lia. cbv iota.
  rewrite Z.shiftl_mul_pow2 by lia. rewrite div_eucl_div.
  set (q := Zpos ma * 2 ^ 24 / Zpos mn).
  set (l := new_location (Zpos mn) ((Zpos ma * 2 ^ 24) mod Zpos mn)).
  assert (Hq23 : 2 ^ 23 <= q).
  { unfold q. apply Z.div_le_lower_bound; [lia |]. nia. }
  assert (Hqk : q < 2 ^ (k + 24)).
  { unfold q. apply Z.div_lt_upper_bound; [lia |].
    rewrite Z.pow_add_r by (unfold k; lia). nia. }
  assert (Hq25 : q < 2 ^ 25).
  { unfold q. apply Z.div_lt_upper_bound; [lia |]. nia. }
  pose proof (Zdigits2_bounds q ltac:(lia)) as [Dlo Dhi].
  assert (Hdq : 24 <= Zdigits2 q <= 25).
  { split.
    - destruct (Z_le_gt_dec 24 (Zdigits2 q)); [assumption | exfalso].
      assert (2 ^ Zdigits2 q <= 2 ^ 23) by (apply Z.pow_le_mono_r; lia). lia.
    - destruct (Z_le_gt_dec (Zdigits2 q) 25); [assumption | exfalso].
      assert (2 ^ 25 <= 2 ^ (Zdigits2 q - 1)) by (apply Z.pow_le_mono_r; lia). lia. }
  destruct (binary_round_aux_spec F32.prec F32.emax ltac:(reflexivity)
              false q (ea - en - 24) l ltac:(lia)) as (m2 & Hm2 & Hm1 & Hlo & ->).
  { rewrite F32_fexp. lia. }
  rewrite F32_fexp in *.
  replace (Z.max (Zdigits2 q + (ea - en - 24) - 24) (-149))
    with (Zdigits2 q - 24 - k - 24) in * by (unfold k; lia).
  set (n1 := Zdigits2 q - 24) in *.
  replace (n1 - k - 24 - (ea - en - 24)) with n1 in * by (unfold k, n1; lia).
  set (m1 := q / 2 ^ n1) in *.
  assert (Hm1k : m1 < 2 ^ (k + 24 - n1)).
  { unfold m1. apply Z.div_lt_upper_bound; [apply pow2_pos; unfold n1; lia |].
    rewrite <- Z.pow_add_r by (unfold n1, k; lia).
    replace (n1 + (k + 24 - n1)) with (k + 24) by lia. assumption. }
  specialize (Hlo ltac:(unfold F32.prec, F32.emax, emin, n1, k; cbn; lia)).
  change (2 ^ (F32.prec - 1)) with (2 ^ 23) in *.
  change (2 ^ F32.prec) with (2 ^ 24) in *.
  change (F32.emax - F32.prec) with 104.
  destruct (Z.eqb_spec m2 0) as [E0 | N0]; [lia |].
  destruct (Z.ltb_spec m2 (2 ^ 24)) as [Hlt24 | Hge24].
  - destruct (Z.leb_spec (n1 - k - 24) 104) as [_ | Hbad]; [| unfold n1, k in Hbad; lia].
    split; [reflexivity |].
    apply F32_leb_one. rewrite Z2Pos.id by lia.
    destruct (Z.eq_dec (n1 - k - 24) (-23)) as [E | N].
    + right. split; [assumption |].
      replace (k + 24 - n1) with 23 in Hm1k by lia. lia.
    + left. unfold n1, k in *. lia.
  - destruct (Z.leb_spec (n1 - k - 24 + 1) 104) as [_ | Hbad]; [| unfold n1, k in Hbad; lia].
    split; [reflexivity |].
    apply F32_leb_one. change (Zpos (Z.to_pos (2 ^ 23))) with (2 ^ 23).
    assert (Hpow : 2 ^ 24 <= 2 ^ (k + 24 - n1)) by lia.
    assert (24 <= k + 24 - n1).
    { apply Z.pow_le_mono_r_iff in Hpow; unfold n1, k in *; lia. }
    destruct (Z.eq_dec (n1 - k - 24 + 1) (-23)); [right | left]; lia.
Qed.


(** A normal binary32 number: full 24-bit mantissa. *)
Lemma F32_normal_bounded (m : positive) (e : Z) :
  2 ^ 23 <= Zpos m < 2 ^ 24 -> -149 <= e <= 104 ->
  bounded F32.prec F32.emax m e = true.
Proof.
  intros Hm He. apply F32_bounded.
  rewrite (digits2_unique m 24 Hm). lia.
Qed.

(** The binary32 value of an integer between [2^24] and [2^32]: rounded,
    normal, and not below [2^24]. *)
Lemma F32_of_Z_large (n : Z) :
  2 ^ 24 <= n < 2 ^ 32 ->
  exists m e,
    F32.of_Z n = S754_finite false m e /\
    bounded F32.prec F32.emax m e = true /\
    1 <= e <= 9 /\
    2 ^ 24 <= Zpos m * 2 ^ e.
Proof.
  intros Hn. destruct n as [| p | p]; try lia.
  pose proof (digits2_bounds p) as [Dlo Dhi].
  remember (Zpos (digits2_pos p)) as d eqn:Ed.
  assert (Hd : 25 <= d <= 32).
  { split.
    - destruct (Z_le_gt_dec 25 d); [assumption | exfalso].
      assert (2 ^ d <= 2 ^ 24) by (apply Z.pow_le_mono_r; lia). lia.
    - destruct (Z_le_gt_dec d 32); [assumption | exfalso].
      assert (2 ^ 32 <= 2 ^ (d - 1)) by (apply Z.pow_le_mono_r; lia). lia. }
  unfold F32.of_Z, binary_normalize, binary_round.
  rewrite <- Ed, F32_fexp.
  replace (Z.max (d + 0 - 24) (-149)) with (d - 24) by lia.
  unfold shl_align.
  destruct (d - 24 - 0) as [| q | q] eqn:Eq; try lia.
  assert (Hpp : 0 < Zpos p) by lia.
  destruct (binary_round_aux_spec F32.prec F32.emax ltac:(reflexivity)
              false (Zpos p) 0 loc_Exact Hpp) as (m2 & Hm2 & Hm1 & Hlo & ->).
  { cbn [Zdigits2]. rewrite <- Ed, F32_fexp. lia. }
  cbn [Zdigits2] in *. rewrite <- Ed in *. rewrite F32_fexp in *.
  replace (Z.max (d + 0 - 24) (-149)) with (d - 24) in * by lia.
  replace (d - 24 - 0) with (d - 24) in * by lia.
  set (m1 := Zpos p / 2 ^ (d - 24)) in *.
  specialize (Hlo ltac:(unfold F32.prec, F32.emax, emin; cbn; lia)).
  change (2 ^ (F32.prec - 1)) with (2 ^ 23) in *.
  change (2 ^ F32.prec) with (2 ^ 24) in *.
  change (F32.emax - F32.prec) with 104.
  pose proof (pow2_pos (d - 24) ltac:(lia)) as Hp.
  assert (Hval : 2 ^ 24 <= 2 ^ 23 * 2 ^ (d - 24)).
  { rewrite <- Z.pow_add_r by lia. apply Z.pow_le_mono_r; lia. }
  destruct (Z.eqb_spec m2 0) as [E0 | N0]; [lia |].
  destruct (Z.ltb_spec m2 (2 ^ 24)) as [Hlt | Hge].
  - destruct (Z.leb_spec (d - 24) 104) as [_ | Hbad]; [| lia].
    exists (Z.to_pos m2), (d - 24).
    assert (Hid : Zpos (Z.to_pos m2) = m2) by (apply Z2Pos.id; lia).
    split; [reflexivity |]. split.
    + apply F32_normal_bounded; lia.
    + split; [lia |]. rewrite Hid. nia.
  - destruct (Z.leb_spec (d - 24 + 1) 104) as [_ | Hbad]; [| lia].
    exists (Z.to_pos (2 ^ 23)), (d - 24 + 1).
    split; [reflexivity |]. split; [apply F32_normal_bounded; cbn; lia |].
    split; [lia |].
    change (Zpos (Z.to_pos (2 ^ 23))) with (2 ^ 23).
    rewrite Z.pow_add_r by lia. lia.
Qed.

(** A counter divided by the number of checks is a fraction: the counter
    never exceeds [2^24], nor the number of checks. *)
Lemma F32_div_fraction (a n : Z) :
  0 <= a <= n -> a <= 2 ^ 24 -> 0 < n < 2 ^ 32 ->
  F32.leb F32.zero (F32.div (F32.of_Z a) (F32.of_Z n)) = true /\
  F32.leb (F32.div (F32.of_Z a) (F32.of_Z n)) F32.one = true.
Proof.
  intros Ha Ha24 Hn.
  assert (Hrep : exists mn en,
             F32.of_Z n = S754_finite false mn en /\
             bounded F32.prec F32.emax mn en = true /\
             -23 <= en <= 9 /\
             (n <= 2 ^ 24 -> Zpos mn * 2 ^ (en + 23) = n * 2 ^ 23) /\
             (2 ^ 24 < n -> 2 ^ 24 * 2 ^ 23 <= Zpos mn * 2 ^ (en + 23))).
  { destruct (Z_le_gt_dec n (2 ^ 24)) as [Hs | Hl].
    - destruct (F32_of_Z_rep n ltac:(lia)) as (mn & en & Hr & Hb & He & Hv).
      exists mn, en. repeat split; try assumption; lia.
    - destruct (F32_of_Z_large n ltac:(lia)) as (mn & en & Hr & Hb & He & Hv).
      exists mn, en. repeat split; try assumption; try lia.
      intros _. rewrite (Z.add_comm en 23), Z.pow_add_r by lia. lia. }
  destruct Hrep as (mn & en & -> & Hbn & Hen & Hsmall & Hlarge).
  destruct (Z.eq_dec a 0) as [-> | Ha0]; [split; reflexivity |].
  destruct (F32_of_Z_rep a ltac:(lia)) as (ma & ea & -> & Hba & Hea & Hva).
  apply F32_div_le_one; try assumption; lia.
Qed.

(* ===================================================================== *)
(** ** Integer conversions and clamping *)
(* ===================================================================== *)

Lemma u32_range (z : Z) : 0 <= u32 z < 2 ^ 32.
Proof. unfold u32. apply Z.mod_pos_bound. lia. Qed.

Lemma u32_small (z : Z) : 0 <= z < 2 ^ 32 -> u32 z = z.
Proof. intros H. unfold u32. now apply Z.mod_small. Qed.

Lemma u32_succ (a b : Z) : u32 (u32 a + b) = u32 (a + b).
Proof. unfold u32. now rewrite Zplus_mod_idemp_l. Qed.

Lemma i32_small (z : Z) : 0 <= z < 2 ^ 31 -> i32 z = z.
Proof. intros H. unfold i32. rewrite Z.mod_small; lia. Qed.

Lemma i32_large (z : Z) : 2 ^ 31 <= z < 2 ^ 32 -> i32 z = z - 2 ^ 32.
Proof.
  intros H. unfold i32.
  replace (z + 2 ^ 31) with (z - 2 ^ 31 + 1 * 2 ^ 32) by lia.
  rewrite Z.mod_add by lia. rewrite Z.mod_small; lia.
Qed.

Lemma u32_wrap (z : Z) : - 2 ^ 32 <= z < 0 -> u32 z = z + 2 ^ 32.
Proof.
  intros H. unfold u32.
  replace z with (z + 2 ^ 32 + (-1) * 2 ^ 32) at 1 by lia.
  rewrite Z.mod_add by lia. rewrite Z.mod_small; lia.
Qed.

(** Whatever integer the floor produced, clamping it to [0 .. n - 1], with
    the bound passed through [int32], lands in [0 .. n - 1]. *)
Lemma Clamp_index (v n : Z) :
  1 <= n < 2 ^ 32 ->
  0 <= u32 (Clamp v 0 (i32 (u32 (n - 1)))) <= n - 1.
Proof.
  intros Hn. rewrite (u32_small (n - 1)) by lia.
  destruct (Z_lt_le_dec (n - 1) (2 ^ 31)) as [Hs | Hl].
  - rewrite i32_small by lia. unfold Clamp.
    destruct (Z.ltb_spec v 0); [rewrite u32_small; lia |].
    destruct (Z.ltb_spec v (n - 1)); rewrite u32_small; lia.
  - rewrite i32_large by lia. unfold Clamp.
    destruct (Z.ltb_spec v 0); [rewrite u32_small; lia |].
    destruct (Z.ltb_spec v (n - 1 - 2 ^ 32)); [lia |].
    rewrite u32_wrap; lia.
Qed.


Lemma ClampFloatToUInt_index (x : float) (n : Z) :
  1 <= n < 2 ^ 32 ->
  0 <= ClampFloatToUInt x 0 (i32 (u32 (n - 1))) <= n - 1.
Proof. intros Hn. unfold ClampFloatToUInt. now apply Clamp_index. Qed.

Lemma IsValid_dims (g : URoadMap) :
  InRange g -> IsValid g = true ->
  1 <= Width g < 2 ^ 32 /\ 1 <= Height g < 2 ^ 32 /\
  Z.of_nat (length (RoadMap g)) = Height g * Width g.
Proof.
  intros [HW HH] HV. unfold IsValid in HV.
  apply andb_true_iff in HV as [Hpos Heq].
  apply Z.ltb_lt in Hpos. apply Z.eqb_eq in Heq. nia.
Qed.

(* ===================================================================== *)
(** ** Point queries *)
(* ===================================================================== *)

Section QueryFacts.
Context {TM : TransformMath}.

Lemma ToPixel_range (g : URoadMap) (p : FVector) :
  InRange g -> IsValid g = true ->
  0 <= fst (ToPixel g p) <= Width g - 1 /\
  0 <= snd (ToPixel g p) <= Height g - 1.
Proof.
  intros HR HV. destruct (IsValid_dims g HR HV) as (HW & HH & _).
  unfold ToPixel; cbn [fst snd].
  split; now apply ClampFloatToUInt_index.
Qed.

Lemma GetDataAtPixel_in_range (g : URoadMap) (x y : Z) :
  Z.of_nat (length (RoadMap g)) = Height g * Width g ->
  0 <= x <= Width g - 1 -> 0 <= y <= Height g - 1 ->
  exists d, GetDataAtPixel g x y = Done d /\ In d (RoadMap g).
Proof.
  intros Hlen Hx Hy. unfold GetDataAtPixel.
  assert (Hidx : 0 <= y * Width g + x < Z.of_nat (length (RoadMap g))) by nia.
  destruct (nth_error (RoadMap g) (Z.to_nat (y * Width g + x))) as [d |] eqn:E.
  - exists d. split.
    + destruct (Z.leb_spec 0 (y * Width g + x)); [reflexivity | lia].
    + eapply nth_error_In; eauto.
  - apply nth_error_None in E. lia.
Qed.

Lemma GetDataAt_valid (g : URoadMap) (p : FVector) :
  InRange g -> IsValid g = true ->
  exists d, GetDataAt g p = Done d /\ In d (RoadMap g).
Proof.
  intros HR HV. unfold GetDataAt. rewrite HV.
  destruct (IsValid_dims g HR HV) as (_ & _ & Hlen).
  pose proof (ToPixel_range g p HR HV) as [Hx Hy].
  destruct (ToPixel g p) as [x y]; cbn [fst snd] in *.
  now apply GetDataAtPixel_in_range.
Qed.

(** A one-pixel map answers every query with its pixel. *)
Lemma GetDataAt_single (g : URoadMap) (d : FRoadMapPixelData) (p : FVector) :
  Width g = 1 -> Height g = 1 -> RoadMap g = [d] -> GetDataAt g p = Done d.
Proof.
  intros HW HH HM. unfold GetDataAt, IsValid. rewrite HM, HW, HH. cbn [length].
  change ((0 <? Z.of_nat 1) && (Z.of_nat 1 =? 1 * 1)) with true. cbv iota.
  unfold ToPixel. rewrite HW, HH.
  unfold ClampFloatToUInt.
  assert (Hc : forall v, u32 (Clamp v 0 (i32 (u32 (1 - 1)))) = 0).
  { intros v. pose proof (Clamp_index v 1 ltac:(lia)). lia. }
  rewrite !Hc. unfold GetDataAtPixel. rewrite HM, HW. reflexivity.
Qed.
End QueryFacts.

(* ===================================================================== *)
(** ** The loops of [Intersect] as a fold over the samples *)
(* ===================================================================== *)

Lemma bind_assoc {A B C : Type} (c : outcome A) (f : A -> outcome B)
      (h : B -> outcome C) :
  bind (bind c f) h = bind c (fun a => bind (f a) h).
Proof. destruct c; reflexivity. Qed.

Lemma MapM_app {A B : Type} (f : A -> outcome B) (l1 l2 : list A) :
  MapM f (l1 ++ l2)
  = (bs1 <- MapM f l1 ;; bs2 <- MapM f l2 ;; Done (bs1 ++ bs2)).
Proof.
  induction l1 as [| a l1 IH]; cbn [MapM app].
  - destruct (MapM f l2); reflexivity.
  - destruct (f a) as [b | |]; cbn [bind]; try reflexivity.
    rewrite IH. destruct (MapM f l1) as [bs1 | |]; cbn [bind]; try reflexivity.
    destruct (MapM f l2); reflexivity.
Qed.

Lemma MapM_length {A B : Type} (f : A -> outcome B) (l : list A) (bs : list B) :
  MapM f l = Done bs -> length bs = length l.
Proof.
  revert bs. induction l as [| a l IH]; intros bs H; cbn [MapM] in H.
  - injection H as <-. reflexivity.
  - destruct (f a) as [b | |]; cbn [bind] in H; try discriminate.
    destruct (MapM f l) as [bs' | |]; cbn [bind] in H; try discriminate.
    injection H as <-. cbn [length]. f_equal. now apply IH.
Qed.

Lemma MapM_const {A B : Type} (f : A -> outcome B) (b : B) (l : list A) :
  (forall a, In a l -> f a = Done b) -> MapM f l = Done (repeat b (length l)).
Proof.
  induction l as [| a l IH]; intros H; cbn [MapM length repeat].
  - reflexivity.
  - rewrite (H a (or_introl eq_refl)). cbn [bind].
    rewrite IH by (intros a' Ha'; apply H; now right). reflexivity.
Qed.

Lemma MapM_ok {A B : Type} (f : A -> outcome B) (P : B -> Prop) (l : list A) :
  (forall a, exists b, f a = Done b /\ P b) ->
  exists bs, MapM f l = Done bs /\ Forall P bs.
Proof.
  intros H. induction l as [| a l (bs & Hbs & HP)]; cbn [MapM].
  - exists []. split; [reflexivity | constructor].
  - destruct (H a) as (b & Hb & Pb). rewrite Hb, Hbs. cbn [bind].
    exists (b :: bs). split; [reflexivity | now constructor].
Qed.


Section LoopFacts.
Context {TM : TransformMath}.
Variable g : URoadMap.
Variable T : FTransform.
Variable E : FVector.
Variable Step : float.
Variable Dir : FVector.

Lemma LoopY_fold (fuel : nat) (X : float) :
  forall (Y : float) (ys : list float) (st : IntersectState),
    AxisSamples fuel (VY E) Step Y = Some ys ->
    LoopY g T E Step Dir fuel X Y st = FoldM (Body g T Dir X) ys st.
Proof.
  induction fuel as [| fuel IH]; intros Y ys st H; cbn in H |- *.
  - discriminate.
  - destruct (F32.ltb Y (VY E)).
    + destruct (AxisSamples fuel (VY E) Step (F32.add Y Step)) as [l |] eqn:El;
        [| discriminate].
      injection H as <-. cbn. destruct (Body g T Dir X Y st); cbn; auto.
    + injection H as <-. reflexivity.
Qed.

Lemma LoopX_fold (fuelY fuel : nat) :
  forall (X : float) (xs : list float) (st : IntersectState),
    AxisSamples fuel (VX E) Step X = Some xs ->
    LoopX g T E Step Dir fuelY fuel X st
    = FoldM (fun X st => LoopY g T E Step Dir fuelY X (F32.neg (VY E)) st) xs st.
Proof.
  induction fuel as [| fuel IH]; intros X xs st H; cbn in H |- *.
  - discriminate.
  - destruct (F32.ltb X (VX E)).
    + destruct (AxisSamples fuel (VX E) Step (F32.add X Step)) as [l |] eqn:El;
        [| discriminate].
      injection H as <-. cbn.
      destruct (LoopY g T E Step Dir fuelY X (F32.neg (VY E)) st); cbn; auto.
    + injection H as <-. reflexivity.
Qed.

(** A loop that has not left when the fuel is used up did not finish. *)
Lemma LoopY_stuck (fuel : nat) (X : float) :
  forall (Y : float) (st : IntersectState),
    AxisSamples fuel (VY E) Step Y = None ->
    forall st', LoopY g T E Step Dir fuel X Y st <> Done st'.
Proof.
  induction fuel as [| fuel IH]; intros Y st H st'; cbn in H |- *.
  - discriminate.
  - destruct (F32.ltb Y (VY E)); [| discriminate].
    destruct (AxisSamples fuel (VY E) Step (F32.add Y Step)) eqn:El;
      [discriminate |].
    destruct (Body g T Dir X Y st); cbn; try discriminate. now apply IH.
Qed.

Lemma LoopX_stuck (fuelY fuel : nat) :
  forall (X : float) (st : IntersectState),
    AxisSamples fuel (VX E) Step X = None ->
    forall st', LoopX g T E Step Dir fuelY fuel X st <> Done st'.
Proof.
  induction fuel as [| fuel IH]; intros X st H st'; cbn in H |- *.
  - discriminate.
  - destruct (F32.ltb X (VX E)); [| discriminate].
    destruct (AxisSamples fuel (VX E) Step (F32.add X Step)) eqn:El;
      [discriminate |].
    destruct (LoopY g T E Step Dir fuelY X (F32.neg (VY E)) st); cbn;
      try discriminate.
    now apply IH.
Qed.

(** The inner loop at [X]: read the pixels of the row, then tally them. *)
Lemma FoldBody_row (X : float) (ys : list float) :
  forall st,
    FoldM (Body g T Dir X) ys st
    = (ds <- MapM (SampleAt g T) (map (pair X) ys) ;;
       Done (fold_left (Tally Dir) ds st)).
Proof.
  induction ys as [| Y ys IH]; intros st; cbn [FoldM map MapM].
  - reflexivity.
  - unfold Body at 1, SampleAt at 1. cbn [fst snd].
    destruct (GetDataAt g (TransformPosition T (mkVector X Y F32.zero)))
      as [d | |]; cbn [bind]; try reflexivity.
    rewrite IH.
    destruct (MapM (SampleAt g T) (map (pair X) ys)); reflexivity.
Qed.

Lemma FoldRows (fuelY : nat) (xs ys : list float) :
  AxisSamples fuelY (VY E) Step (F32.neg (VY E)) = Some ys ->
  forall st,
    FoldM (fun X st => LoopY g T E Step Dir fuelY X (F32.neg (VY E)) st) xs st
    = (ds <- MapM (SampleAt g T) (list_prod xs ys) ;;
       Done (fold_left (Tally Dir) ds st)).
Proof.
  intros Hys. induction xs as [| X xs IH]; intros st; cbn [FoldM list_prod MapM].
  - reflexivity.
  - rewrite (LoopY_fold fuelY X _ ys st Hys), FoldBody_row, MapM_app.
    destruct (MapM (SampleAt g T) (map (pair X) ys)) as [ds1 | |];
      cbn [bind]; try reflexivity.
    rewrite IH.
    destruct (MapM (SampleAt g T) (list_prod xs ys)) as [ds2 | |];
      cbn [bind]; try reflexivity.
    now rewrite fold_left_app.
Qed.

(** The two loops: read the pixels under all the samples, then tally. *)
Lemma LoopX_samples (fuel : nat) (ps : list (float * float)) (st : IntersectState) :
  Samples fuel E Step = Some ps ->
  LoopX g T E Step Dir fuel fuel (F32.neg (VX E)) st
  = (ds <- MapM (SampleAt g T) ps ;; Done (fold_left (Tally Dir) ds st)).
Proof.
  unfold Samples. intros H.
  destruct (AxisSamples fuel (VX E) Step (F32.neg (VX E))) as [xs |] eqn:Ex;
    [| discriminate].
  rewrite (LoopX_fold fuel fuel _ xs st Ex).
  destruct xs as [| X xs].
  - injection H as <-. reflexivity.
  - destruct (AxisSamples fuel (VY E) Step (F32.neg (VY E))) as [ys |] eqn:Ey;
      [| discriminate].
    injection H as <-. exact (FoldRows fuel (X :: xs) ys Ey st).
Qed.

Lemma LoopX_no_samples (fuel : nat) (st st' : IntersectState) :
  Samples fuel E Step = None ->
  LoopX g T E Step Dir fuel fuel (F32.neg (VX E)) st <> Done st'.
Proof.
  unfold Samples. intros H.
  destruct (AxisSamples fuel (VX E) Step (F32.neg (VX E))) as [xs |] eqn:Ex;
    [| now apply LoopX_stuck].
  rewrite (LoopX_fold fuel fuel _ xs st Ex).
  destruct xs as [| X xs]; [discriminate |].
  destruct (AxisSamples fuel (VY E) Step (F32.neg (VY E))) as [ys |] eqn:Ey;
    [discriminate |].
  cbn [FoldM].
  pose proof (LoopY_stuck fuel X (F32.neg (VY E)) st Ey) as Hs.
  destruct (LoopY g T E Step Dir fuel X (F32.neg (VY E)) st); cbn [bind];
    try discriminate.
  now specialize (Hs a).
Qed.
End LoopFacts.

(** *** Tallying *)

Lemma Classify_counters (Dir : FVector) (d : FRoadMapPixelData) (a b : Z) :
  0 <= a -> 0 <= b ->
  Classify Dir d (mkResult (Counter a) (Counter b))
  = mkResult (Counter (a + CountOff [d])) (Counter (b + CountOpposite Dir [d])).
Proof.
  intros Ha Hb. unfold Classify, CountOff, CountOpposite, IsOpposite.
  cbn [filter OffRoad OppositeLane].
  destruct (bIsOffRoad d); cbn [negb andb length].
  - rewrite Counter_succ by assumption. now rewrite Z.add_0_r.
  - destruct (bHasDirection d && F32.ltb F32.zero (DotProduct (Direction d) Dir));
      cbn [length].
    + rewrite Counter_succ by assumption. now rewrite Z.add_0_r.
    + now rewrite !Z.add_0_r.
Qed.

Lemma CountOff_cons (d : FRoadMapPixelData) (ds : list FRoadMapPixelData) :
  CountOff (d :: ds) = CountOff [d] + CountOff ds.
Proof.
  unfold CountOff. cbn [filter]. destruct (bIsOffRoad d); cbn [length]; lia.
Qed.

Lemma CountOpposite_cons (Dir : FVector) (d : FRoadMapPixelData)
      (ds : list FRoadMapPixelData) :
  CountOpposite Dir (d :: ds) = CountOpposite Dir [d] + CountOpposite Dir ds.
Proof.
  unfold CountOpposite. cbn [filter]. destruct (IsOpposite Dir d); cbn [length]; lia.
Qed.

Lemma CountOff_nonneg (ds : list FRoadMapPixelData) : 0 <= CountOff ds.
Proof. unfold CountOff. lia. Qed.

Lemma CountOpposite_nonneg (Dir : FVector) (ds : list FRoadMapPixelData) :
  0 <= CountOpposite Dir ds.
Proof. unfold CountOpposite. lia. Qed.

(** A pixel is counted at most once. *)
Lemma Counts_exclusive (Dir : FVector) (ds : list FRoadMapPixelData) :
  CountOff ds + CountOpposite Dir ds <= Z.of_nat (length ds).
Proof.
  induction ds as [| d ds IH]; [cbn; lia |].
  rewrite CountOff_cons, CountOpposite_cons. cbn [length].
  unfold CountOff at 1, CountOpposite at 1, IsOpposite. cbn [filter].
  destruct (bIsOffRoad d); cbn [negb andb length]; [lia |].
  destruct (bHasDirection d && F32.ltb F32.zero (DotProduct (Direction d) Dir));
    cbn [length]; lia.
Qed.

(** The state after tallying the pixels [ds], from counters [a] and [b]. *)
Lemma Tally_fold (Dir : FVector) (ds : list FRoadMapPixelData) :
  forall c a b, 0 <= c < 2 ^ 32 -> 0 <= a -> 0 <= b ->
    fold_left (Tally Dir) ds (mkState c (mkResult (Counter a) (Counter b)))
    = mkState (u32 (c + Z.of_nat (length ds)))
              (mkResult (Counter (a + CountOff ds))
                        (Counter (b + CountOpposite Dir ds))).
Proof.
  induction ds as [| d ds IH]; intros c a b Hc Ha Hb.
  - cbn [fold_left length CountOff CountOpposite filter Z.of_nat].
    change (CountOff []) with 0. change (CountOpposite Dir []) with 0.
    rewrite !Z.add_0_r. now rewrite u32_small.
  - cbn [fold_left]. unfold Tally at 2. cbn [CheckCount Result].
    rewrite Classify_counters by assumption.
    rewrite IH.
    + rewrite u32_succ. rewrite (CountOff_cons d ds), (CountOpposite_cons Dir d ds).
      cbn [length]. rewrite Nat2Z.inj_succ. f_equal; [f_equal; lia |].
      f_equal; f_equal; lia.
    + apply u32_range.
    + pose proof (CountOff_nonneg [d]). lia.
    + pose proof (CountOpposite_nonneg Dir [d]). lia.
Qed.

(** The outcome of [Intersect] in terms of the pixels under its samples. *)
Lemma Intersect_samples {TM : TransformMath} (fuel : nat) (g : URoadMap)
      (T : FTransform) (E : FVector) (d : float) (ps : list (float * float)) :
  Samples fuel E (F32.div F32.one d) = Some ps ->
  Intersect fuel g T E d
  = (ds <- MapM (SampleAt g T) ps ;;
     Done (Finish (mkState (u32 (Z.of_nat (length ds)))
                           (mkResult (Counter (CountOff ds))
                                     (Counter (CountOpposite
                                                 (GetForwardVector (Rotation T)) ds)))))).
Proof.
  intros H. unfold Intersect.
  rewrite (LoopX_samples g T E _ (GetForwardVector (Rotation T)) fuel ps _ H).
  destruct (MapM (SampleAt g T) ps) as [ds | |]; cbn [bind]; try reflexivity.
  unfold InitialState. change F32.zero with (Counter 0).
  rewrite Tally_fold by lia. reflexivity.
Qed.

Lemma Intersect_no_samples {TM : TransformMath} (fuel : nat) (g : URoadMap)
      (T : FTransform) (E : FVector) (d : float)
      (out : FRoadMapIntersectionResult * list LogEntry) :
  Samples fuel E (F32.div F32.one d) = None ->
  Intersect fuel g T E d <> Done out.
Proof.
  intros H. unfold Intersect.
  pose proof (fun st' => LoopX_no_samples g T E _ (GetForwardVector (Rotation T))
                           fuel InitialState st' H) as Hs.
  destruct (LoopX g T E (F32.div F32.one d) (GetForwardVector (Rotation T))
                  fuel fuel (F32.neg (VX E)) InitialState) as [st | |];
    cbn [bind]; try discriminate.
  now specialize (Hs st).
Qed.


Lemma SampleCount_spec (fuel : nat) (E : FVector) (Step : float) (n : Z) :
  SampleCount fuel E Step = Some n <->
  exists ps, Samples fuel E Step = Some ps /\ n = Z.of_nat (length ps).
Proof.
  unfold SampleCount. destruct (Samples fuel E Step) as [ps |]; split.
  - intros [= <-]. now exists ps.
  - intros (ps' & [= <-] & ->). reflexivity.
  - discriminate.
  - intros (ps' & [=] & _).
Qed.

Lemma CountOff_repeat (c : FRoadMapPixelData) (n : nat) :
  CountOff (repeat c n) = if bIsOffRoad c then Z.of_nat n else 0.
Proof.
  induction n as [| n IH]; [now destruct (bIsOffRoad c) |].
  cbn [repeat]. rewrite CountOff_cons, IH. unfold CountOff. cbn [filter].
  destruct (bIsOffRoad c); cbn [length]; lia.
Qed.

Lemma CountOpposite_repeat (Dir : FVector) (c : FRoadMapPixelData) (n : nat) :
  CountOpposite Dir (repeat c n) = if IsOpposite Dir c then Z.of_nat n else 0.
Proof.
  induction n as [| n IH]; [now destruct (IsOpposite Dir c) |].
  cbn [repeat]. rewrite CountOpposite_cons, IH. unfold CountOpposite. cbn [filter].
  destruct (IsOpposite Dir c); cbn [length]; lia.
Qed.

(** On a map that answers every query with the same pixel, only the
    number of samples matters. *)
Lemma Intersect_uniform {TM : TransformMath} (fuel : nat) (g : URoadMap)
      (T : FTransform) (E : FVector) (d : float) (c : FRoadMapPixelData) (n : Z) :
  (forall p, GetDataAt g p = Done c) ->
  SampleCount fuel E (F32.div F32.one d) = Some n ->
  Intersect fuel g T E d
  = Done (Finish
            (mkState (u32 n)
               (mkResult
                  (Counter (if bIsOffRoad c then n else 0))
                  (Counter (if IsOpposite (GetForwardVector (Rotation T)) c
                            then n else 0))))).
Proof.
  intros Hc Hn. apply SampleCount_spec in Hn as (ps & Hps & ->).
  rewrite (Intersect_samples fuel g T E d ps Hps).
  rewrite (MapM_const (SampleAt g T) c ps) by (intros p _; apply Hc).
  cbn [bind]. rewrite repeat_length, CountOff_repeat, CountOpposite_repeat.
  reflexivity.
Qed.

Lemma AxisCount_length (fuel : nat) (hi step : float) :
  forall v count,
    AxisCount fuel hi step v count
    = option_map (fun l => count + Z.of_nat (length l)) (AxisSamples fuel hi step v).
Proof.
  induction fuel as [| fuel IH]; intros v count; cbn [AxisCount AxisSamples].
  - reflexivity.
  - destruct (F32.ltb v hi).
    + rewrite IH. destruct (AxisSamples fuel hi step (F32.add v step)) as [l |];
        cbn [option_map length]; [f_equal; lia | reflexivity].
    + cbn [option_map length]. f_equal. lia.
Qed.

Lemma SampleCount_axes (fuel : nat) (E : FVector) (Step : float) (nx ny : Z) :
  AxisCount fuel (VX E) Step (F32.neg (VX E)) 0 = Some nx ->
  AxisCount fuel (VY E) Step (F32.neg (VY E)) 0 = Some ny ->
  0 < nx ->
  SampleCount fuel E Step = Some (nx * ny).
Proof.
  intros Hx Hy Hpos. rewrite AxisCount_length in Hx, Hy.
  unfold SampleCount, Samples.
  destruct (AxisSamples fuel (VX E) Step (F32.neg (VX E))) as [xs |];
    [| discriminate].
  destruct (AxisSamples fuel (VY E) Step (F32.neg (VY E))) as [ys |];
    [| discriminate].
  cbn [option_map] in Hx, Hy. injection Hx as Hx. injection Hy as Hy.
  destruct xs as [| X xs]; [cbn in Hx; lia |].
  rewrite length_prod, Nat2Z.inj_mul. f_equal. lia.
Qed.

Lemma MapM_Forall {A B : Type} (f : A -> outcome B) (P : B -> Prop) (l : list A) :
  (forall a, In a l -> exists b, f a = Done b /\ P b) ->
  exists bs, MapM f l = Done bs /\ Forall P bs /\ length bs = length l.
Proof.
  induction l as [| a l IH]; intros H; cbn [MapM].
  - exists []. repeat split. constructor.
  - destruct (H a (or_introl eq_refl)) as (b & Hb & Pb).
    destruct IH as (bs & Hbs & HP & Hl); [intros a' Ha'; apply H; now right |].
    rewrite Hb, Hbs. cbn [bind]. exists (b :: bs).
    repeat split; [now constructor | cbn; now rewrite Hl].
Qed.

Lemma CountOff_none (ds : list FRoadMapPixelData) :
  Forall (fun d => bIsOffRoad d = false) ds -> CountOff ds = 0.
Proof.
  induction 1 as [| d ds Hd _ IH]; [reflexivity |].
  rewrite CountOff_cons, IH. unfold CountOff. cbn [filter]. now rewrite Hd.
Qed.


(** *** Empty ranges *)

(** An extent that is not above zero gives an empty range. *)
Lemma empty_range (x : float) :
  F32.ltb F32.zero x = false -> F32.ltb (F32.neg x) x = false.
Proof. destruct x as [[] | [] | | [] m e]; cbn; congruence. Qed.

Lemma Samples_empty_X (fuel : nat) (E : FVector) (Step : float) :
  F32.ltb F32.zero (VX E) = false -> Samples (S fuel) E Step = Some [].
Proof.
  intros H. unfold Samples. cbn [AxisSamples]. now rewrite (empty_range _ H).
Qed.

Lemma Samples_empty_Y (fuel : nat) (E : FVector) (Step : float) (xs : list float) :
  AxisSamples (S fuel) (VX E) Step (F32.neg (VX E)) = Some xs ->
  F32.ltb F32.zero (VY E) = false -> Samples (S fuel) E Step = Some [].
Proof.
  intros Hx Hy. unfold Samples. rewrite Hx. destruct xs as [| X xs]; [reflexivity |].
  cbn [AxisSamples]. rewrite (empty_range _ Hy). cbn [list_prod].
  clear Hx. induction xs as [| X' xs IH]; [reflexivity |].
  cbn [list_prod map app] in *. exact IH.
Qed.

(* ===================================================================== *)
(** ** The identity transform and the unit scale *)
(* ===================================================================== *)

Lemma NonNeg_of_Z (n : Z) : 0 <= n <= 2 ^ 24 -> NonNeg (F32.of_Z n).
Proof.
  intros Hn. destruct (Z.eq_dec n 0) as [-> | N0]; [now left |].
  destruct (F32_of_Z_rep n ltac:(lia)) as (m & e & Hr & Hb & _).
  right. exists m, e. split; [exact Hr |]. rewrite Hr. exact Hb.
Qed.

Lemma NonNeg_valid (x : float) : NonNeg x -> F32.valid x = true.
Proof. intros [-> | (m & e & -> & H)]; [reflexivity | exact H]. Qed.

Lemma F32_add_zero_r (x : float) : NonNeg x -> F32.add x F32.zero = x.
Proof. intros [-> | (m & e & -> & _)]; reflexivity. Qed.

Lemma F32_sub_zero_r (x : float) : NonNeg x -> F32.sub x F32.zero = x.
Proof. intros [-> | (m & e & -> & _)]; reflexivity. Qed.

Lemma F32_mul_zero_l (s : bool) (x : float) :
  NonNeg x -> F32.mul (S754_zero s) x = S754_zero s.
Proof. intros [-> | (m & e & -> & _)]; destruct s; reflexivity. Qed.

Lemma F32_sub_zero_zero (s : bool) :
  F32.sub (S754_zero s) (S754_zero s) = F32.zero.
Proof. destruct s; reflexivity. Qed.

(** The identity transform leaves non-negative positions alone. *)
Lemma Cross_zero_l (s : bool) (v : FVector) :
  NonNeg (VX v) -> NonNeg (VY v) -> NonNeg (VZ v) ->
  CrossProduct (mkVector (S754_zero s) (S754_zero s) (S754_zero s)) v = ZeroVector.
Proof.
  intros Hx Hy Hz. unfold CrossProduct. cbn [VX VY VZ].
  rewrite !F32_mul_zero_l by assumption. rewrite F32_sub_zero_zero. reflexivity.
Qed.

Lemma NonNeg_zero : NonNeg F32.zero.
Proof. now left. Qed.

Lemma vadd_zero_r (v : FVector) :
  NonNeg (VX v) -> NonNeg (VY v) -> NonNeg (VZ v) -> vadd v ZeroVector = v.
Proof.
  intros Hx Hy Hz. unfold vadd, ZeroVector. cbn [VX VY VZ].
  rewrite !F32_add_zero_r by assumption. now destruct v.
Qed.

Lemma vsub_zero_r (v : FVector) :
  NonNeg (VX v) -> NonNeg (VY v) -> NonNeg (VZ v) -> vsub v ZeroVector = v.
Proof.
  intros Hx Hy Hz. unfold vsub, ZeroVector. cbn [VX VY VZ].
  rewrite !F32_sub_zero_r by assumption. now destruct v.
Qed.

Lemma Rotate_zero (s : bool) (w : float) (v : FVector) :
  NonNeg (VX v) -> NonNeg (VY v) -> NonNeg (VZ v) -> NonNeg w ->
  let Q := mkVector (S754_zero s) (S754_zero s) (S754_zero s) in
  let T := vscale (CrossProduct Q v) F32.two in
  vadd (vadd v (vscale T w)) (CrossProduct Q T) = v.
Proof.
  intros Hx Hy Hz Hw Q T. unfold T, Q.
  rewrite (Cross_zero_l s v Hx Hy Hz).
  change (vscale ZeroVector F32.two) with ZeroVector.
  assert (Hs : vscale ZeroVector w = ZeroVector).
  { unfold vscale, ZeroVector, F32.zero. cbn [VX VY VZ].
    now rewrite (F32_mul_zero_l false w Hw). }
  rewrite Hs.
  rewrite (Cross_zero_l s ZeroVector NonNeg_zero NonNeg_zero NonNeg_zero).
  now rewrite !(vadd_zero_r v Hx Hy Hz).
Qed.

Lemma Scalar_TransformPosition_identity (v : FVector) :
  NonNeg (VX v) -> NonNeg (VY v) -> NonNeg (VZ v) ->
  Scalar.TransformPosition TransformIdentity v = v.
Proof.
  intros Hx Hy Hz. unfold Scalar.TransformPosition, TransformIdentity.
  cbn [Rotation Scale3D Translation].
  assert (Hm : vmul OneVector v = v).
  { unfold vmul, OneVector. cbn [VX VY VZ].
    rewrite !F32_mul_one_l by (now apply NonNeg_valid). now destruct v. }
  rewrite Hm. unfold Scalar.RotateVector, QuatIdentity. cbn [QX QY QZ QW].
  change F32.zero with (S754_zero false).
  rewrite (Rotate_zero false F32.one v Hx Hy Hz).
  - now apply vadd_zero_r.
  - right. exists 8388608%positive, (-23). split; reflexivity.
Qed.

Lemma Scalar_InverseTransformPosition_identity (v : FVector) :
  NonNeg (VX v) -> NonNeg (VY v) -> NonNeg (VZ v) ->
  Scalar.InverseTransformPosition TransformIdentity v = v.
Proof.
  intros Hx Hy Hz. unfold Scalar.InverseTransformPosition, TransformIdentity.
  cbn [Rotation Scale3D Translation].
  rewrite (vsub_zero_r v Hx Hy Hz).
  unfold Scalar.UnrotateVector, QuatIdentity. cbn [QX QY QZ QW].
  change (F32.neg F32.zero) with (S754_zero true).
  rewrite (Rotate_zero true F32.one v Hx Hy Hz).
  - change (Scalar.SafeReciprocal (VX OneVector)) with F32.one.
    change (Scalar.SafeReciprocal (VY OneVector)) with F32.one.
    change (Scalar.SafeReciprocal (VZ OneVector)) with F32.one.
    unfold vmul. cbn [VX VY VZ].
    rewrite !F32_mul_one_r by (now apply NonNeg_valid). now destruct v.
  - right. exists 8388608%positive, (-23). split; reflexivity.
Qed.

Lemma FloorToInt_of_Z (n : Z) : 0 <= n <= 2 ^ 24 -> FloorToInt (F32.of_Z n) = n.
Proof.
  intros Hn. unfold FloorToInt. rewrite (F32_floor_of_Z n Hn).
  unfold INT32_MIN.
  destruct (Z.leb_spec (- 2 ^ 31) n); [| lia].
  destruct (Z.ltb_spec n (2 ^ 31)); [reflexivity | lia].
Qed.

(* ===================================================================== *)
(** *** Power-of-two scales *)




(** ** The colour formula on unit components *)

(** The binary32 numbers between [-1.0f] and [1.0f]. *)
Lemma F32_unit_interval (x : float) :
  F32.valid x = true ->
  F32.leb F32.minus_one x = true -> F32.leb x F32.one = true ->
  (exists s, x = S754_zero s) \/ x = F32.one \/ x = F32.minus_one \/
  exists s m e, x = S754_finite s m e /\ Zpos m < 2 ^ 24 /\ -149 <= e <= -24.
Proof.
  intros Hv Hlo Hhi. destruct x as [s | [] | | s m e]; try discriminate.
  - left. now exists s.
  - unfold F32.valid in Hv. cbn [valid_binary] in Hv.
    pose proof Hv as Hb. apply F32_bounded in Hb as [Hc He].
    pose proof (digits2_bounds m) as [Dlo Dhi].
    assert (Hm : Zpos m < 2 ^ 24).
    { eapply Z.lt_le_trans; [exact Dhi |]. apply Z.pow_le_mono_r; lia. }
    unfold F32.leb, SFleb, F32.one, F32.minus_one, SFcompare in Hlo, Hhi.
    destruct s.
    + destruct (Z.compare_spec (-23) e) as [E | L | G]; try discriminate.
      * rewrite Pos.compare_cont_spec in Hlo. cbn [Pos.switch_Eq] in Hlo.
        destruct (Pos.compare_spec 8388608 m) as [E' | L' | G']; try discriminate.
        -- right; right; left. subst. reflexivity.
        -- exfalso. subst e.
           assert (Zpos (digits2_pos m) = 24) by lia.
           assert (2 ^ 23 <= Zpos m) by (replace 23 with (24 - 1) by lia; congruence).
           change (2 ^ 23) with (Zpos 8388608) in *. lia.
      * right; right; right. exists true, m, e. repeat split; lia.
    + destruct (Z.compare_spec e (-23)) as [E | L | G]; try discriminate.
      * rewrite Pos.compare_cont_spec in Hhi. cbn [Pos.switch_Eq] in Hhi.
        destruct (Pos.compare_spec m 8388608) as [E' | L' | G']; try discriminate.
        -- right; left. subst. reflexivity.
        -- exfalso. subst e.
           assert (Zpos (digits2_pos m) = 24) by lia.
           assert (2 ^ 23 <= Zpos m) by (replace 23 with (24 - 1) by lia; congruence).
           change (2 ^ 23) with (Zpos 8388608) in *. lia.
      * right; right; right. exists false, m, e. repeat split; lia.
Qed.

(** Adding [1.0f] to a number strictly between [-1.0f] and [1.0f] gives a
    number below [2.0f], or [2.0f] itself. *)
Lemma F32_add_one_unit (s : bool) (m : positive) (e : Z) :
  Zpos m < 2 ^ 24 -> -149 <= e <= -24 ->
  F32.add (S754_finite s m e) F32.one = S754_zero false \/
  (exists m' e', F32.add (S754_finite s m e) F32.one = S754_finite false m' e' /\
                 Zpos m' < 2 ^ 24 /\ -149 <= e' <= -23) \/
  F32.add (S754_finite s m e) F32.one = F32.two.
Proof.
  intros Hm He. unfold F32.add, F32.one, SFadd.
  rewrite Z.min_l by lia.
  rewrite (shl_align_val m e e ltac:(lia)), Z.sub_diag, Z.pow_0_r, Z.mul_1_r.
  rewrite (shl_align_val 8388608 (-23) e ltac:(lia)).
  change (Zpos 8388608) with (2 ^ 23). rewrite <- Z.pow_add_r by lia.
  replace (23 + (-23 - e)) with (- e) by lia. cbn [cond_Zopp].
  assert (Hp : 2 ^ 24 <= 2 ^ (- e)) by (apply Z.pow_le_mono_r; lia).
  assert (H2 : 2 ^ (1 - e) = 2 * 2 ^ (- e)).
  { replace (1 - e) with (Z.succ (- e)) by lia. apply Z.pow_succ_r. lia. }
  assert (HM : 0 < cond_Zopp s (Zpos m) + 2 ^ (- e) < 2 ^ (1 - e)).
  { destruct s; cbn [cond_Zopp]; lia. }
  destruct (cond_Zopp s (Zpos m) + 2 ^ (- e)) as [| p | p] eqn:Ep; try lia.
  unfold binary_normalize.
  apply (binary_round_below_pow2 F32.prec F32.emax ltac:(reflexivity) false p e 1).
  - pose proof (digits2_le p (1 - e) ltac:(lia) ltac:(lia)). lia.
  - cbv. discriminate.
  - reflexivity.
Qed.

(** *** binary64: the exact steps of the colour formula *)

Lemma F64_fexp (x : Z) : fexp F64.prec F64.emax x = Z.max (x - 53) (-1074).
Proof. reflexivity. Qed.

Lemma F64_normal_bounded (m : positive) (e : Z) :
  2 ^ 52 <= Zpos m < 2 ^ 53 -> -1074 <= e <= 971 ->
  bounded F64.prec F64.emax m e = true.
Proof.
  intros Hm He. apply bounded_spec. rewrite F64_fexp.
  rewrite (digits2_unique m 53 Hm). change (F64.emax - F64.prec) with 971. lia.
Qed.

(** The 53-bit mantissa of a positive integer of at most 53 bits. *)
Lemma F64_mantissa (n : positive) :
  Zpos n < 2 ^ 53 ->
  2 ^ 52 <= Zpos n * 2 ^ (53 - Zpos (digits2_pos n)) < 2 ^ 53.
Proof.
  intros Hn. pose proof (digits2_bounds n) as [Dlo Dhi].
  pose proof (digits2_le n 53 ltac:(lia) Hn) as Hd.
  set (d := Zpos (digits2_pos n)) in *.
  assert (0 < d) by (unfold d; lia).
  pose proof (pow2_pos (53 - d) ltac:(lia)) as Hp.
  replace (2 ^ 52) with (2 ^ (d - 1) * 2 ^ (53 - d)).
  2:{ rewrite <- Z.pow_add_r by lia. f_equal. lia. }
  replace (2 ^ 53) with (2 ^ d * 2 ^ (53 - d)).
  2:{ rewrite <- Z.pow_add_r by lia. f_equal. lia. }
  split; [apply Z.mul_le_mono_nonneg_r | apply Z.mul_lt_mono_pos_r]; lia.
Qed.

(** Promotion to [double] is exact. *)
Lemma F64_of_F32_exact (m : positive) (e : Z) (M : positive) :
  Zpos m < 2 ^ 24 -> -149 <= e <= 104 ->
  Zpos M = Zpos m * 2 ^ (53 - Zpos (digits2_pos m)) ->
  F64.of_F32 (S754_finite false m e)
  = S754_finite false M (e - (53 - Zpos (digits2_pos m))).
Proof.
  intros Hm He HM.
  pose proof (F64_mantissa m ltac:(lia)) as HMr. rewrite <- HM in HMr.
  pose proof (digits2_le m 24 ltac:(lia) Hm) as Hd.
  assert (0 < Zpos (digits2_pos m)) by lia.
  cbn [F64.of_F32].
  apply binary_round_exact with (c := e - (53 - Zpos (digits2_pos m))); try lia.
  - apply F64_normal_bounded; lia.
  - rewrite Z.sub_diag, Z.pow_0_r, Z.mul_1_r, HM. do 2 f_equal. lia.
Qed.

(** [255.0 * x] is exact for a [double] that came from a [float]. *)
Lemma F64_mul_255_exact (m : positive) (e : Z) (M Mp : positive) :
  Zpos m < 2 ^ 24 -> -149 <= e <= 104 ->
  Zpos M = Zpos m * 2 ^ (53 - Zpos (digits2_pos m)) ->
  Zpos Mp = Zpos (255 * m) * 2 ^ (53 - Zpos (digits2_pos (255 * m))) ->
  F64.mul (F64.of_Z 255)
          (S754_finite false M (e - (53 - Zpos (digits2_pos m))))
  = S754_finite false Mp (e - (53 - Zpos (digits2_pos (255 * m)))).
Proof.
  intros Hm He HM HMp.
  assert (H255 : Zpos (255 * m) < 2 ^ 53) by lia.
  pose proof (F64_mantissa (255 * m) H255) as HMr. rewrite <- HMp in HMr.
  pose proof (digits2_le (255 * m) 53 ltac:(lia) H255) as Hdp.
  pose proof (digits2_bounds (255 * m)) as [_ Dhi].
  pose proof (digits2_le m (Zpos (digits2_pos (255 * m))) ltac:(lia) ltac:(lia)) as Hdd.
  set (D := Zpos (digits2_pos m)) in *.
  set (Dp := Zpos (digits2_pos (255 * m))) in *.
  assert (0 < D) by (unfold D; lia).
  change (F64.of_Z 255) with (S754_finite false 8972014882652160 (-45)).
  unfold F64.mul, SFmul. cbn [xorb].
  replace (-45 + (e - (53 - D))) with (e - (53 - Dp) - (Dp - D + 45)) by lia.
  replace (Zpos (8972014882652160 * M)) with (Zpos Mp * 2 ^ (Dp - D + 45)).
  - apply binary_round_aux_exact; [| lia]. apply F64_normal_bounded; lia.
  - rewrite HMp, !Pos2Z.inj_mul, HM.
    change (Zpos 8972014882652160) with (255 * 2 ^ 45).
    replace (53 - D) with ((53 - Dp) + (Dp - D)) by lia.
    replace (Dp - D + 45) with ((Dp - D) + 45) by lia.
    rewrite !Z.pow_add_r by lia. ring.
Qed.

(** Halving a normal [double] lowers the exponent. *)
Lemma F64_div_two_exact (M : positive) (E : Z) :
  2 ^ 52 <= Zpos M < 2 ^ 53 -> -1000 <= E <= 900 ->
  F64.div (S754_finite false M E) (F64.of_F32 F32.two)
  = S754_finite false M (E - 1).
Proof.
  intros HM HE.
  change (F64.of_F32 F32.two) with (S754_finite false 4503599627370496 (-51)).
  unfold F64.div, SFdiv, SFdiv_core_binary. cbn [Zdigits2 xorb].
  rewrite (digits2_unique M 53 HM).
  change (Zpos (digits2_pos 4503599627370496)) with 53. rewrite F64_fexp.
  replace (Z.min (Z.max (53 + E - (53 + -51) - 53) (-1074)) (E - -51))
    with (E - 2) by lia.
  replace (E - -51 - (E - 2)) with 53 by lia. cbv iota.
  rewrite Z.shiftl_mul_pow2 by lia.
  change (Zpos 4503599627370496) with (2 ^ 52).
  replace (Zpos M * 2 ^ 53) with ((Zpos M * 2 ^ 1) * 2 ^ 52) by lia.
  rewrite div_eucl_exact by lia. rewrite new_location_exact.
  replace (E - 2) with (E - 1 - 1) by lia.
  apply binary_round_aux_exact; [| lia].
  apply F64_normal_bounded; lia.
Qed.

(** Converting a [double] below 255 to [float] and flooring it gives a
    byte. *)
Lemma F64_to_F32_floor_byte (M : positive) (ex : Z) :
  2 ^ 52 <= Zpos M < 2 ^ 53 -> Zpos M < 255 * 2 ^ (- ex) ->
  0 <= FloorToInt (F64.to_F32 (S754_finite false M ex)) <= 255.
Proof.
  intros HM Hlt.
  assert (Hex : ex <= -45).
  { destruct (Z_le_gt_dec ex (-45)); [assumption | exfalso].
    destruct (Z_le_gt_dec 0 (- ex)) as [Hn | Hn].
    - assert (2 ^ (- ex) <= 2 ^ 44) by (apply Z.pow_le_mono_r; lia). lia.
    - rewrite Z.pow_neg_r in Hlt by lia. lia. }
  cbn [F64.to_F32]. unfold binary_round.
  pose proof (digits2_unique M 53 HM) as HD. rewrite HD, F32_fexp.
  set (e1 := Z.max (53 + ex - 24) (-149)).
  assert (He1 : ex < e1 <= -16) by (unfold e1; lia).
  unfold shl_align. destruct (e1 - ex) as [| d | d] eqn:Ed; try lia.
  destruct (binary_round_aux_spec F32.prec F32.emax ltac:(reflexivity)
              false (Zpos M) ex loc_Exact ltac:(lia))
    as (m2 & Hm2 & _ & _ & ->).
  { cbn [Zdigits2]. rewrite HD, F32_fexp. fold e1. lia. }
  cbn [Zdigits2] in *. rewrite HD, F32_fexp in *. fold e1 in Hm2 |- *.
  change (2 ^ F32.prec) with (2 ^ 24). change (F32.emax - F32.prec) with 104.
  change (2 ^ (F32.prec - 1)) with (2 ^ 23).
  pose proof (pow2_pos (e1 - ex) ltac:(lia)) as Hp1.
  pose proof (pow2_pos (- e1) ltac:(lia)) as Hp2.
  assert (Hm1 : Zpos M / 2 ^ (e1 - ex) < 255 * 2 ^ (- e1)).
  { apply Z.div_lt_upper_bound; [assumption |].
    replace (2 ^ (e1 - ex) * (255 * 2 ^ (- e1))) with (255 * 2 ^ (- ex)); [assumption |].
    replace (- ex) with ((e1 - ex) + (- e1)) at 1 by lia.
    rewrite Z.pow_add_r by lia. ring. }
  assert (Hm1n : 0 <= Zpos M / 2 ^ (e1 - ex)) by (apply Z.div_pos; lia).
  assert (Hbyte : forall z, 0 <= z <= 255 ->
            0 <= (if (INT32_MIN <=? z) && (z <? 2 ^ 31) then z else INT32_MIN) <= 255).
  { intros z Hz. unfold INT32_MIN.
    destruct (Z.leb_spec (- 2 ^ 31) z); [| lia].
    destruct (Z.ltb_spec z (2 ^ 31)); [| lia]. cbn [andb]. exact Hz. }
  assert (Hdiv : forall n, 0 <= n <= 255 * 2 ^ (- e1) -> 0 <= n / 2 ^ (- e1) <= 255).
  { intros n Hn. split; [apply Z.div_pos; lia |].
    apply Z.div_le_upper_bound; lia. }
  destruct (Z.eqb_spec m2 0) as [E0 | N0].
  { unfold FloorToInt. cbn [F32.floor]. apply Hbyte. lia. }
  destruct (Z.ltb_spec m2 (2 ^ 24)) as [Hlt24 | Hge24].
  - destruct (Z.leb_spec e1 104) as [_ | Hbad]; [| lia].
    unfold FloorToInt. cbn [F32.floor].
    destruct (Z.leb_spec 0 e1) as [Hbad | _]; [lia |].
    rewrite Z2Pos.id by lia. apply Hbyte, Hdiv. lia.
  - destruct (Z.leb_spec (e1 + 1) 104) as [_ | Hbad]; [| lia].
    unfold FloorToInt. cbn [F32.floor].
    destruct (Z.leb_spec 0 (e1 + 1)) as [Hbad | _]; [lia |].
    change (Zpos (Z.to_pos (2 ^ 23))) with (2 ^ 23).
    replace (2 ^ 23 / 2 ^ (- (e1 + 1))) with (2 ^ 24 / 2 ^ (- e1)).
    + apply Hbyte, Hdiv. lia.
    + replace (- e1) with (Z.succ (- (e1 + 1))) by lia.
      rewrite Z.pow_succ_r by lia. change (2 ^ 24) with (2 * 2 ^ 23).
      apply Z.div_mul_cancel_l; [| lia].
      pose proof (pow2_pos (- (e1 + 1)) ltac:(lia)). lia.
Qed.

(** The colour value of a sum [X + 1.0f] below [2.0f]. *)
Lemma ToColor_sum_below_two (m : positive) (e : Z) :
  Zpos m < 2 ^ 24 -> -149 <= e <= -23 ->
  0 <= FloorToInt
         (F64.to_F32
            (F64.div (F64.mul (F64.of_Z 255) (F64.of_F32 (S754_finite false m e)))
                     (F64.of_F32 F32.two))) <= 255.
Proof.
  intros Hm He.
  assert (H255 : Zpos (255 * m) < 2 ^ 53) by lia.
  pose proof (F64_mantissa m ltac:(lia)) as HMr.
  pose proof (F64_mantissa (255 * m) H255) as HMpr.
  pose proof (digits2_le (255 * m) 53 ltac:(lia) H255) as Hdp.
  set (D := Zpos (digits2_pos m)) in *.
  set (Dp := Zpos (digits2_pos (255 * m))) in *.
  assert (0 < Dp) by (unfold Dp; lia).
  set (M := Z.to_pos (Zpos m * 2 ^ (53 - D))).
  set (Mp := Z.to_pos (Zpos (255 * m) * 2 ^ (53 - Dp))).
  assert (HM : Zpos M = Zpos m * 2 ^ (53 - D)) by (unfold M; apply Z2Pos.id; lia).
  assert (HMp : Zpos Mp = Zpos (255 * m) * 2 ^ (53 - Dp))
    by (unfold Mp; apply Z2Pos.id; lia).
  rewrite (F64_of_F32_exact m e M Hm ltac:(lia) HM).
  rewrite (F64_mul_255_exact m e M Mp Hm ltac:(lia) HM HMp). fold Dp.
  rewrite F64_div_two_exact by lia.
  apply F64_to_F32_floor_byte; [lia |].
  rewrite HMp, Pos2Z.inj_mul.
  replace (- (e - (53 - Dp) - 1)) with ((1 - e) + (53 - Dp)) by lia.
  rewrite Z.pow_add_r by lia.
  assert (2 ^ 24 <= 2 ^ (1 - e)) by (apply Z.pow_le_mono_r; lia).
  pose proof (pow2_pos (53 - Dp) ltac:(lia)) as Hp.
  rewrite Z.mul_assoc. apply Z.mul_lt_mono_pos_r; [assumption | lia].
Qed.

(** For a component between [-1.0f] and [1.0f] the colour value is a byte. *)
Lemma ToColor_unit_range (X : float) :
  F32.valid X = true ->
  F32.leb F32.minus_one X = true -> F32.leb X F32.one = true ->
  0 <= ToColor X <= 255.
Proof.
  intros Hv Hlo Hhi.
  destruct (F32_unit_interval X Hv Hlo Hhi)
    as [[s ->] | [-> | [-> | (s & m & e & -> & Hm & He)]]].
  - destruct s; vm_compute; split; discriminate.
  - vm_compute; split; discriminate.
  - vm_compute; split; discriminate.
  - unfold ToColor.
    destruct (F32_add_one_unit s m e Hm He)
      as [-> | [(m' & e' & -> & Hm' & He') | ->]].
    + vm_compute; split; discriminate.
    + now apply ToColor_sum_below_two.
    + vm_compute; split; discriminate.
Qed.

(** ** Population and encoding *)
(* ===================================================================== *)

Lemma u8_small (z : Z) : 0 <= z <= 255 -> u8 z = z.
Proof. intros H. unfold u8. apply Z.mod_small. lia. Qed.

Lemma vscale_minus_one (v : FVector) :
  ValidVector v -> vscale v F32.minus_one = vneg v.
Proof.
  intros (Hx & Hy & Hz). unfold vscale, vneg.
  now rewrite !F32_mul_minus_one.
Qed.

Lemma AppendPixel_directed {TM : TransformMath} {RM : RotatorMath} (g : URoadMap)
      (Tag : ECityMapMeshTag) (T : FTransform) (inv : bool) :
  TagHasDirection Tag = true ->
  RoadMap (AppendPixel g Tag T inv)
  = RoadMap g ++
    [mkPixel false true
       (let Forward :=
          GetForwardVector
            (MakeQuat (fst (SwitchTag Tag (Rotator (Rotation T)) false))) in
        if inv then vscale Forward F32.minus_one else Forward)].
Proof.
  intros HT. unfold AppendPixel. cbn [AppendEmptyPixel RoadMap].
  rewrite last_last, removelast_last. cbn [bHasDirection DefaultPixel].
  destruct Tag; try discriminate; reflexivity.
Qed.

Lemma AppendPixel_cells {TM : TransformMath} {RM : RotatorMath} (g : URoadMap)
      (Tag : ECityMapMeshTag) (T : FTransform) (inv : bool) :
  exists d, RoadMap (AppendPixel g Tag T inv) = RoadMap g ++ [d]
            /\ bIsOffRoad d = false
            /\ Width (AppendPixel g Tag T inv) = Width g
            /\ Height (AppendPixel g Tag T inv) = Height g.
Proof.
  unfold AppendPixel.
  destruct (SwitchTag Tag (Rotator (Rotation T))
              (bHasDirection (last (RoadMap (AppendEmptyPixel g)) DefaultPixel)))
    as [Rot HasDir].
  eexists. cbn [RoadMap Width Height AppendEmptyPixel].
  rewrite removelast_last. repeat split; reflexivity.
Qed.

(* ===================================================================== *)
(** ** Sample counts of the example boxes *)
(* ===================================================================== *)

Lemma HugeExtent_axes :
  AxisCount 65537 (VX HugeExtent) (F32.div F32.one F32.one)
            (F32.neg (VX HugeExtent)) 0 = Some 65536 /\
  AxisCount 65537 (VY HugeExtent) (F32.div F32.one F32.one)
            (F32.neg (VY HugeExtent)) 0 = Some 65536.
Proof. split; vm_compute; reflexivity. Qed.

Lemma HugeExtent_count :
  SampleCount 65537 HugeExtent (F32.div F32.one F32.one) = Some (2 ^ 32).
Proof.
  destruct HugeExtent_axes as [Hx Hy].
  exact (SampleCount_axes 65537 HugeExtent _ 65536 65536 Hx Hy eq_refl).
Qed.





(** ** Boxes with whole-number extents *)

(** The binary32 representation of a whole number and of its opposite. *)
Lemma F32_of_Z_opp_rep (n : Z) :
  0 < n <= 2 ^ 24 ->
  exists m e,
    F32.of_Z n = S754_finite false m e /\
    F32.of_Z (- n) = S754_finite true m e /\
    bounded F32.prec F32.emax m e = true /\
    -23 <= e <= 1 /\
    Zpos m * 2 ^ (e + 23) = n * 2 ^ 23.
Proof.
  intros Hn. destruct (F32_of_Z_rep n Hn) as (m & e & Hr & Hb & He & Hv).
  exists m, e. repeat split; try assumption; try lia.
  destruct n as [| p | p]; try lia.
  unfold F32.of_Z, binary_normalize. cbn [Z.opp].
  apply binary_round_exact with (c := -23); try assumption; try lia.
  replace (e - -23) with (e + 23) by lia. rewrite Hv. reflexivity.
Qed.

(** Adding [1.0f] to a whole number of magnitude at most [2^24]. *)
Lemma F32_add_one_whole (i : Z) :
  - 2 ^ 24 <= i < 2 ^ 24 -> F32.add (F32.of_Z i) F32.one = F32.of_Z (i + 1).
Proof.
  intros Hi. destruct (Z_le_gt_dec 0 i) as [Hp | Hn].
  { apply F32_add_one_exact. lia. }
  destruct (Z.eq_dec i (-1)) as [-> | N1]; [reflexivity |].
  destruct (F32_of_Z_opp_rep (- i) ltac:(lia)) as (m & e & _ & Hr & Hb & He & Hv).
  destruct (F32_of_Z_opp_rep (- (i + 1)) ltac:(lia))
    as (m' & e' & _ & Hr' & Hb' & He' & Hv').
  rewrite Z.opp_involutive in Hr, Hr'. rewrite Hr, Hr'.
  unfold F32.add, F32.one, SFadd.
  rewrite Z.min_r by lia.
  pose proof (shl_align_val m e (-23) ltac:(lia)) as Ha.
  replace (e - -23) with (e + 23) in Ha by lia. rewrite Hv in Ha.
  change (fst (shl_align 8388608 (-23) (-23))) with 8388608%positive.
  cbn [cond_Zopp]. rewrite Ha. change (Zpos 8388608) with (2 ^ 23).
  replace (- (- i * 2 ^ 23) + 2 ^ 23) with (- (- (i + 1) * 2 ^ 23)) by lia.
  assert (Hq : 0 < - (i + 1) * 2 ^ 23) by lia.
  destruct (- (i + 1) * 2 ^ 23) as [| q | q] eqn:Eq; try lia.
  cbn [Z.opp]. unfold binary_normalize.
  apply binary_round_exact with (c := -23); try assumption; try lia.
  replace (e' - -23) with (e' + 23) by lia. rewrite Hv'.
  replace (-23 - -23) with 0 by lia. lia.
Qed.

(** Normal binary32 numbers are ordered by exponent, then mantissa. *)
Lemma F32_normal_lt (m m' : Z) (e e' : Z) :
  2 ^ 23 <= m < 2 ^ 24 -> 2 ^ 23 <= m' < 2 ^ 24 -> 0 <= e -> e < e' ->
  m * 2 ^ e < m' * 2 ^ e'.
Proof.
  intros Hm Hm' He Hee.
  replace e' with (e + (e' - e)) by lia. rewrite Z.pow_add_r by lia.
  pose proof (pow2_pos e He) as Hp.
  assert (HQ : 2 ^ 1 <= 2 ^ (e' - e)) by (apply Z.pow_le_mono_r; lia).
  change (2 ^ 1) with 2 in HQ.
  assert (H1 : m * 2 ^ e < 2 ^ 24 * 2 ^ e) by (apply Z.mul_lt_mono_pos_r; lia).
  assert (H2 : 2 ^ 23 * 2 <= m' * 2 ^ (e' - e))
    by (apply Z.mul_le_mono_nonneg; lia).
  assert (H3 : 2 ^ 23 * 2 * 2 ^ e <= m' * 2 ^ (e' - e) * 2 ^ e)
    by (apply Z.mul_le_mono_nonneg_r; lia).
  lia.
Qed.

(** Comparison of two positive whole numbers. *)
Lemma F32_compare_whole (i a : Z) (mi ma : positive) (ei ea : Z) :
  bounded F32.prec F32.emax mi ei = true ->
  bounded F32.prec F32.emax ma ea = true ->
  -23 <= ei -> -23 <= ea ->
  Zpos mi * 2 ^ (ei + 23) = i * 2 ^ 23 ->
  Zpos ma * 2 ^ (ea + 23) = a * 2 ^ 23 ->
  match Z.compare ei ea with
  | Lt => Lt
  | Gt => Gt
  | Eq => Pos.compare_cont Eq mi ma
  end = Z.compare i a.
Proof.
  intros Hbi Hba Hei Hea Hvi Hva.
  pose proof (F32_rep_digits mi ei Hbi ltac:(lia)) as Hmi.
  pose proof (F32_rep_digits ma ea Hba ltac:(lia)) as Hma.
  symmetry. destruct (Z.compare_spec ei ea) as [E | L | G].
  - subst ea. rewrite Pos.compare_cont_spec. cbn [Pos.switch_Eq].
    pose proof (pow2_pos (ei + 23) ltac:(lia)) as Hp.
    destruct (Pos.compare_spec mi ma) as [E' | L' | G'].
    + apply Z.compare_eq_iff. subst ma. lia.
    + apply Z.compare_lt_iff. nia.
    + apply Z.compare_gt_iff. nia.
  - apply Z.compare_lt_iff.
    pose proof (F32_normal_lt (Zpos mi) (Zpos ma) (ei + 23) (ea + 23)
                  Hmi Hma ltac:(lia) ltac:(lia)). lia.
  - apply Z.compare_gt_iff.
    pose proof (F32_normal_lt (Zpos ma) (Zpos mi) (ea + 23) (ei + 23)
                  Hma Hmi ltac:(lia) ltac:(lia)). lia.
Qed.

(** The loop test [v < hi] on whole numbers. *)
Lemma F32_ltb_whole (i a : Z) :
  - 2 ^ 24 <= i <= 2 ^ 24 -> 0 <= a <= 2 ^ 24 ->
  F32.ltb (F32.of_Z i) (F32.of_Z a) = (i <? a).
Proof.
  intros Hi Ha. unfold F32.ltb, SFltb, Z.ltb.
  destruct (Z.eq_dec a 0) as [-> | Na].
  - destruct (Z.lt_trichotomy i 0) as [Hn | [-> | Hp]].
    + destruct (F32_of_Z_opp_rep (- i) ltac:(lia)) as (m & e & _ & Hr & _).
      rewrite Z.opp_involutive in Hr. rewrite Hr. cbn.
      now destruct i.
    + reflexivity.
    + destruct (F32_of_Z_rep i ltac:(lia)) as (m & e & -> & _). cbn.
      now destruct i.
  - destruct (F32_of_Z_rep a ltac:(lia)) as (ma & ea & -> & Hba & Hea & Hva).
    destruct (Z.lt_trichotomy i 0) as [Hn | [-> | Hp]].
    + destruct (F32_of_Z_opp_rep (- i) ltac:(lia)) as (m & e & _ & Hr & _).
      rewrite Z.opp_involutive in Hr. rewrite Hr. cbn [SFcompare].
      assert (Hc : (i ?= a) = Lt) by (apply Z.compare_lt_iff; lia).
      now rewrite Hc.
    + cbn [F32.of_Z binary_normalize SFcompare].
      assert (Hc : (0 ?= a) = Lt) by (apply Z.compare_lt_iff; lia).
      now rewrite Hc.
    + destruct (F32_of_Z_rep i ltac:(lia)) as (mi & ei & -> & Hbi & Hei & Hvi).
      cbn [SFcompare].
      now rewrite (F32_compare_whole i a mi ma ei ea Hbi Hba ltac:(lia) ltac:(lia)
                     Hvi Hva).
Qed.

(** A loop from one whole number up to another, one by one, visits every
    whole number in between. *)
Lemma AxisSamples_whole (k : nat) :
  forall (fuel : nat) (i a : Z),
    a - i = Z.of_nat k -> - 2 ^ 24 <= i -> 0 <= a <= 2 ^ 24 -> (k < fuel)%nat ->
    exists l, AxisSamples fuel (F32.of_Z a) F32.one (F32.of_Z i) = Some l /\
              length l = k.
Proof.
  induction k as [| k IH]; intros fuel i a Hk Hi Ha Hf;
    (destruct fuel as [| fuel]; [lia |]); cbn [AxisSamples];
    rewrite (F32_ltb_whole i a ltac:(lia) Ha).
  - destruct (Z.ltb_spec i a); [lia |]. now exists [].
  - destruct (Z.ltb_spec i a); [| lia].
    rewrite (F32_add_one_whole i ltac:(lia)).
    destruct (IH fuel (i + 1) a ltac:(lia) ltac:(lia) Ha ltac:(lia))
      as (l & -> & Hl).
    exists (F32.of_Z i :: l). split; [reflexivity |]. cbn [length]. lia.
Qed.

(** The loop over one axis of a box whose half extent is a whole number
    [a] of at most [2^23] centimetres, sampled once per centimetre, ends
    after [2 * a] values. *)
Lemma AxisSamples_extent (fuel : nat) (a : Z) :
  0 <= a <= 2 ^ 23 -> (Z.to_nat (2 * a) < fuel)%nat ->
  exists l, AxisSamples fuel (F32.of_Z a) F32.one (F32.neg (F32.of_Z a)) = Some l /\
            Z.of_nat (length l) = 2 * a.
Proof.
  intros Ha Hf. destruct (Z.eq_dec a 0) as [-> | N0].
  - destruct fuel as [| fuel]; [lia |]. now exists [].
  - destruct (F32_of_Z_opp_rep a ltac:(lia)) as (m & e & Hr & Hr' & _).
    assert (Hneg : F32.neg (F32.of_Z a) = F32.of_Z (- a)) by now rewrite Hr, Hr'.
    rewrite Hneg.
    destruct (AxisSamples_whole (Z.to_nat (2 * a)) fuel (- a) a
                ltac:(lia) ltac:(lia) ltac:(lia) Hf) as (l & Hl & Hlen).
    exists l. split; [assumption | lia].
Qed.

(** Both loops of such a box end. *)
Lemma Samples_whole (fuel : nat) (a b : Z) (z : float) :
  0 <= a <= 2 ^ 23 -> 0 <= b <= 2 ^ 23 ->
  (Z.to_nat (2 * a) < fuel)%nat -> (Z.to_nat (2 * b) < fuel)%nat ->
  exists ps,
    Samples fuel (mkVector (F32.of_Z a) (F32.of_Z b) z) (F32.div F32.one F32.one)
    = Some ps /\
    Z.of_nat (length ps) = (2 * a) * (2 * b).
Proof.
  intros Ha Hb Hfa Hfb.
  destruct (AxisSamples_extent fuel a Ha Hfa) as (xs & Hx & Hlx).
  destruct (AxisSamples_extent fuel b Hb Hfb) as (ys & Hy & Hly).
  unfold Samples. cbn [VX VY].
  change (F32.div F32.one F32.one) with F32.one. rewrite Hx, Hy.
  destruct xs as [| X xs].
  - exists []. split; [reflexivity |]. cbn [length] in *. lia.
  - exists (list_prod (X :: xs) ys). split; [reflexivity |].
    rewrite length_prod, Nat2Z.inj_mul. lia.
Qed.

(** On a valid map, [Intersect] returns for every such box, whatever the
    transform, after [(2 * a) * (2 * b)] samples. *)
Lemma Intersect_whole_extents {TM : TransformMath} (fuel : nat) (g : URoadMap)
      (T : FTransform) (a b : Z) (z : float) :
  InRange g -> IsValid g = true ->
  0 <= a <= 2 ^ 23 -> 0 <= b <= 2 ^ 23 ->
  (Z.to_nat (2 * a) < fuel)%nat -> (Z.to_nat (2 * b) < fuel)%nat ->
  SampleCount fuel (mkVector (F32.of_Z a) (F32.of_Z b) z) (F32.div F32.one F32.one)
  = Some ((2 * a) * (2 * b)) /\
  exists out,
    Intersect fuel g T (mkVector (F32.of_Z a) (F32.of_Z b) z) F32.one = Done out.
Proof.
  intros HR HV Ha Hb Hfa Hfb.
  destruct (Samples_whole fuel a b z Ha Hb Hfa Hfb) as (ps & Hs & Hl).
  split.
  - unfold SampleCount. rewrite Hs. now rewrite Hl.
  - rewrite (Intersect_samples fuel g T _ F32.one ps Hs).
    destruct (MapM_ok (SampleAt g T) (fun d => In d (RoadMap g)) ps
                (fun p => GetDataAt_valid g _ HR HV)) as (ds & -> & _).
    cbn [bind]. eexists. reflexivity.
Qed.

(** ** Whole multiples of a power of two *)

(** Division by a power of two lowers the exponent, whatever the sign. *)
Lemma F32_div_pow2_signed (s : bool) (m : positive) (e k : Z) :
  2 ^ 23 <= Zpos m < 2 ^ 24 -> -148 <= e - k <= 104 ->
  F32.div (S754_finite s m e) (Pow2 k) = S754_finite s m (e - k).
Proof.
  intros Hm Hek.
  unfold F32.div, Pow2, SFdiv, SFdiv_core_binary. cbn [Zdigits2].
  rewrite xorb_false_r.
  rewrite (digits2_unique m 24 Hm).
  change (Zpos (digits2_pos 8388608)) with 24. rewrite F32_fexp.
  replace (Z.min (Z.max (24 + e - (24 + (k - 23)) - 24) (-149)) (e - (k - 23)))
    with (e - k - 1) by lia.
  replace (e - (k - 23) - (e - k - 1)) with 24 by lia. cbv iota.
  rewrite Z.shiftl_mul_pow2 by lia. change (Zpos 8388608) with (2 ^ 23).
  replace (Zpos m * 2 ^ 24) with ((Zpos m * 2 ^ 1) * 2 ^ 23) by lia.
  rewrite div_eucl_exact by lia. rewrite new_location_exact.
  apply binary_round_aux_exact; [| lia].
  apply F32_normal_bounded; [assumption | lia].
Qed.

(** The representation of [n / 2^k] for a whole number [n]. *)
Lemma Scaled_rep (n k : Z) :
  n <> 0 -> - 2 ^ 24 <= n <= 2 ^ 24 -> -100 <= k <= 100 ->
  exists m e,
    Scaled n k = S754_finite (n <? 0) m (e - k) /\
    bounded F32.prec F32.emax m (e - k) = true /\
    -23 <= e <= 1 /\
    Zpos m * 2 ^ (e + 23) = Z.abs n * 2 ^ 23.
Proof.
  intros N0 Hn Hk. unfold Scaled.
  destruct (F32_of_Z_opp_rep (Z.abs n) ltac:(lia)) as (m & e & Hp & Hq & Hb & He & Hv).
  pose proof (F32_rep_digits m e Hb ltac:(lia)) as Hm.
  exists m, e.
  assert (Hr : F32.of_Z n = S754_finite (n <? 0) m e).
  { destruct (Z.ltb_spec n 0).
    - replace n with (- Z.abs n) by lia. exact Hq.
    - replace n with (Z.abs n) by lia. exact Hp. }
  rewrite Hr, (F32_div_pow2_signed _ m e k Hm ltac:(lia)).
  repeat split; try assumption; try lia.
  apply F32_normal_bounded; [assumption | lia].
Qed.

Lemma Scaled_zero (k : Z) : Scaled 0 k = F32.zero.
Proof. reflexivity. Qed.

Lemma cond_Zopp_sign (n : Z) (p : Z) :
  p = Z.abs n -> cond_Zopp (n <? 0) p = n.
Proof. intros ->. destruct (Z.ltb_spec n 0); cbn [cond_Zopp]; lia. Qed.

(** Sums of such numbers are exact while the result has 24 bits. *)
Lemma Scaled_add (a b k : Z) :
  - 2 ^ 24 <= a <= 2 ^ 24 -> - 2 ^ 24 <= b <= 2 ^ 24 ->
  - 2 ^ 24 <= a + b <= 2 ^ 24 -> -100 <= k <= 100 ->
  F32.add (Scaled a k) (Scaled b k) = Scaled (a + b) k.
Proof.
  intros Ha Hb Hab Hk.
  destruct (Z.eq_dec a 0) as [-> | Na].
  { rewrite Scaled_zero. cbn [Z.add].
    destruct (Z.eq_dec b 0) as [-> | Nb]; [reflexivity |].
    destruct (Scaled_rep b k Nb Hb Hk) as (m & e & -> & _). reflexivity. }
  destruct (Z.eq_dec b 0) as [-> | Nb].
  { rewrite Scaled_zero, Z.add_0_r.
    destruct (Scaled_rep a k Na Ha Hk) as (m & e & -> & _). reflexivity. }
  destruct (Scaled_rep a k Na Ha Hk) as (ma & ea & -> & Hba & Hea & Hva).
  destruct (Scaled_rep b k Nb Hb Hk) as (mb & eb & -> & Hbb & Heb & Hvb).
  unfold F32.add, SFadd.
  set (ez := Z.min (ea - k) (eb - k)).
  rewrite (shl_align_val ma (ea - k) ez ltac:(unfold ez; lia)).
  rewrite (shl_align_val mb (eb - k) ez ltac:(unfold ez; lia)).
  set (c := -23 - k).
  assert (Hc : c <= ez) by (unfold c, ez; lia).
  pose proof (pow2_pos (ez - c) ltac:(lia)) as Hp.
  (* the two operands and their sum in units of [2^c] *)
  assert (HA : Zpos ma * 2 ^ (ea - k - ez) * 2 ^ (ez - c) = Z.abs a * 2 ^ 23).
  { rewrite <- Z.mul_assoc, <- Z.pow_add_r by (unfold ez; lia).
    replace (ea - k - ez + (ez - c)) with (ea + 23) by (unfold c; lia). exact Hva. }
  assert (HB : Zpos mb * 2 ^ (eb - k - ez) * 2 ^ (ez - c) = Z.abs b * 2 ^ 23).
  { rewrite <- Z.mul_assoc, <- Z.pow_add_r by (unfold ez; lia).
    replace (eb - k - ez + (ez - c)) with (eb + 23) by (unfold c; lia). exact Hvb. }
  set (M := cond_Zopp (a <? 0) (Zpos ma * 2 ^ (ea - k - ez))
            + cond_Zopp (b <? 0) (Zpos mb * 2 ^ (eb - k - ez))).
  assert (HM : M * 2 ^ (ez - c) = (a + b) * 2 ^ 23).
  { unfold M. rewrite Z.mul_add_distr_r.
    destruct (Z.ltb_spec a 0), (Z.ltb_spec b 0); cbn [cond_Zopp]; lia. }
  destruct (Z.eq_dec (a + b) 0) as [Z0 | NZ].
  { assert (M = 0) by nia. rewrite H, Z0. reflexivity. }
  destruct (Scaled_rep (a + b) k NZ Hab Hk) as (m & e & -> & Hbm & He & Hv).
  unfold binary_normalize.
  destruct M as [| p | p] eqn:EM.
  - exfalso. nia.
  - assert (0 < a + b) by nia.
    destruct (Z.ltb_spec (a + b) 0); [lia |].
    apply binary_round_exact with (c := c); try assumption; try (unfold c; lia).
    rewrite HM. replace (e - k - c) with (e + 23) by (unfold c; lia).
    rewrite Hv. f_equal. lia.
  - assert (a + b < 0) by nia.
    destruct (Z.ltb_spec (a + b) 0); [| lia].
    apply binary_round_exact with (c := c); try assumption; try (unfold c; lia).
    replace (Zpos p) with (- Zneg p) by lia. rewrite Z.mul_opp_l, HM.
    replace (e - k - c) with (e + 23) by (unfold c; lia).
    rewrite Hv. lia.
Qed.






(** ** Boxes on the sampling grid *)




(** ** Whole numbers of degrees *)

Lemma Scaled_unit (n : Z) : - 2 ^ 24 <= n <= 2 ^ 24 -> Scaled n 0 = F32.of_Z n.
Proof.
  intros Hn. unfold Scaled. change (Pow2 0) with F32.one.
  apply F32_div_one.
  destruct (Z.eq_dec n 0) as [-> | N0]; [reflexivity |].
  destruct (F32_of_Z_opp_rep (Z.abs n) ltac:(lia)) as (m & e & Hp & Hq & Hb & _).
  destruct (Z_lt_le_dec n 0).
  - replace n with (- Z.abs n) by lia. rewrite Hq. exact Hb.
  - replace n with (Z.abs n) by lia. rewrite Hp. exact Hb.
Qed.

(** Adding whole numbers is exact while the sum has 24 bits. *)
Lemma F32_add_whole (a b : Z) :
  - 2 ^ 24 <= a <= 2 ^ 24 -> - 2 ^ 24 <= b <= 2 ^ 24 ->
  - 2 ^ 24 <= a + b <= 2 ^ 24 ->
  F32.add (F32.of_Z a) (F32.of_Z b) = F32.of_Z (a + b).
Proof.
  intros Ha Hb Hab.
  rewrite <- (Scaled_unit a Ha), <- (Scaled_unit b Hb), <- (Scaled_unit (a + b) Hab).
  apply Scaled_add; lia.
Qed.

Section Yaw.
Context {TM : TransformMath} {RM : RotatorMath}.

(** The direction stored for a placement whose rotator, after the
    [switch], is [r]. *)
Lemma AppendPixel_rotator (g : URoadMap) (Tag : ECityMapMeshTag) (T : FTransform)
      (inv : bool) (r : FRotator) :
  SwitchTag Tag (Rotator (Rotation T)) false = (r, true) ->
  RoadMap (AppendPixel g Tag T inv)
  = RoadMap g ++
    [mkPixel false true
       (if inv then vscale (GetForwardVector (MakeQuat r)) F32.minus_one
        else GetForwardVector (MakeQuat r))].
Proof.
  intros Hs. unfold AppendPixel, AppendEmptyPixel.
  cbn [RoadMap WorldToMap MapOffset PixelsPerCentimeter Width Height].
  rewrite last_last, removelast_last. cbn [bHasDirection DefaultPixel].
  rewrite Hs. reflexivity.
Qed.
End Yaw.

(** ** The error of one rounding *)

Section RoundError.
Variables prec emax : Z.
Hypothesis Hprec : 0 < prec.

(** The aligned mantissa denotes the same number. *)
Lemma binary_round_aligned_value (s : bool) (mx : positive) (ex : Z) :
  exists mz ez,
    binary_round prec emax s mx ex
    = binary_round_aux prec emax s (Zpos mz) ez loc_Exact /\
    Zpos (digits2_pos mz) + ez = Zpos (digits2_pos mx) + ex /\
    ez <= fexp prec emax (Zpos (digits2_pos mz) + ez) /\
    ez <= ex /\ (ez = ex \/ ez = fexp prec emax (Zpos (digits2_pos mx) + ex)) /\
    Zpos mz = Zpos mx * 2 ^ (ex - ez).
Proof.
  unfold binary_round, shl_align.
  set (e := fexp prec emax (Zpos (digits2_pos mx) + ex)).
  destruct (e - ex) as [| d | d] eqn:Ed.
  - exists mx, ex. rewrite Z.sub_diag, Z.pow_0_r. repeat split; fold e; lia.
  - exists mx, ex. rewrite Z.sub_diag, Z.pow_0_r. repeat split; fold e; lia.
  - exists (Pos.iter xO mx d), e.
    assert (Hd : Zpos (digits2_pos (Pos.iter xO mx d)) + e
                 = Zpos (digits2_pos mx) + ex).
    { rewrite (digits2_shift mx (Zpos d) (Pos.iter xO mx d) ltac:(lia)
                 (iter_xO_val d mx)). lia. }
    split; [reflexivity |]. split; [exact Hd |].
    split; [rewrite Hd; fold e; lia |].
    split; [lia |]. split; [now right |].
    rewrite iter_xO_val. do 2 f_equal. lia.
Qed.

(** Rounding moves a number by at most one unit of the last place of the
    result.  Values are counted in units of [2^c]. *)
Lemma binary_round_error (s : bool) (mx : positive) (ex c : Z) :
  let e1 := fexp prec emax (Zpos (digits2_pos mx) + ex) in
  c <= ex -> c <= emin prec emax -> e1 + 1 <= emax - prec ->
  exists m e,
    (binary_round prec emax s mx ex = S754_zero s /\ m = 0 /\ e = e1 \/
     binary_round prec emax s mx ex = S754_finite s (Z.to_pos m) e /\ 0 < m) /\
    m < 2 ^ prec /\
    (e = e1 \/ e = e1 + 1 /\ m = 2 ^ (prec - 1)) /\
    Z.abs (m * 2 ^ (e - c) - Zpos mx * 2 ^ (ex - c)) <= 2 ^ (e1 - c).
Proof.
  intros e1 Hcx Hce Hov.
  destruct (binary_round_aligned_value s mx ex)
    as (mz & ez & -> & Hd & Hez & Hzx & Hzz & Hv).
  destruct (binary_round_aux_spec prec emax Hprec s (Zpos mz) ez loc_Exact
              ltac:(lia) Hez) as (m2 & Hm2 & Hm1 & _ & ->).
  cbn [Zdigits2] in *. rewrite Hd in *. fold e1 in Hm2, Hm1, Hez, Hzz |- *.
  assert (He1 : emin prec emax <= e1) by (unfold e1, fexp; lia).
  assert (Hcz : c <= ez) by lia.
  set (n := e1 - ez) in *.
  assert (Hn : 0 <= n) by (unfold n; lia).
  pose proof (pow2_pos n Hn) as Hpn.
  pose proof (pow2_pos (ez - c) ltac:(lia)) as Hpc.
  pose proof (Z.div_mod (Zpos mz) (2 ^ n) ltac:(lia)) as Hdm.
  pose proof (Z.mod_pos_bound (Zpos mz) (2 ^ n) Hpn) as Hmod.
  set (m1 := Zpos mz / 2 ^ n) in *.
  assert (Hval : Zpos mx * 2 ^ (ex - c) = Zpos mz * 2 ^ (ez - c)).
  { rewrite Hv, <- Z.mul_assoc, <- Z.pow_add_r by lia. do 2 f_equal. lia. }
  assert (Hpow : 2 ^ (e1 - c) = 2 ^ n * 2 ^ (ez - c)).
  { rewrite <- Z.pow_add_r by lia. f_equal. unfold n. lia. }
  assert (Herr : Z.abs (m2 * 2 ^ (e1 - c) - Zpos mx * 2 ^ (ex - c)) <= 2 ^ (e1 - c)).
  { rewrite Hval, Hpow, Z.mul_assoc, <- Z.mul_sub_distr_r.
    rewrite Z.abs_mul, (Z.abs_eq (2 ^ (ez - c))) by lia.
    apply Z.mul_le_mono_nonneg_r; [lia |].
    apply Z.abs_le. nia. }
  assert (Hp : 0 < 2 ^ (prec - 1)) by (apply pow2_pos; lia).
  assert (Hpp : 2 ^ prec = 2 * 2 ^ (prec - 1)).
  { replace prec with (Z.succ (prec - 1)) at 1 by lia. apply Z.pow_succ_r. lia. }
  assert (Hm1n : 0 <= m1) by (unfold m1; apply Z.div_pos; lia).
  destruct (Z.eqb_spec m2 0) as [E0 | N0].
  { exists 0, e1. split; [now left |]. split; [lia |]. split; [now left |].
    rewrite E0 in Herr. exact Herr. }
  destruct (Z.ltb_spec m2 (2 ^ prec)) as [Hlt | Hge].
  - destruct (Z.leb_spec e1 (emax - prec)) as [_ | Hbad]; [| lia].
    exists m2, e1. split; [right; split; [reflexivity | lia] |].
    split; [lia |]. split; [now left | exact Herr].
  - destruct (Z.leb_spec (e1 + 1) (emax - prec)) as [_ | Hbad]; [| lia].
    assert (Em2 : m2 = 2 ^ prec) by lia.
    exists (2 ^ (prec - 1)), (e1 + 1).
    split; [right; split; [reflexivity | lia] |].
    split; [lia |]. split; [right; split; reflexivity |].
    replace (2 ^ (prec - 1) * 2 ^ (e1 + 1 - c)) with (m2 * 2 ^ (e1 - c));
      [exact Herr |].
    rewrite Em2, Hpp. replace (e1 + 1 - c) with (Z.succ (e1 - c)) by lia.
    rewrite Z.pow_succ_r by lia. ring.
Qed.
End RoundError.

(** ** The colour formula against exact arithmetic *)

(** The sum [X + 1.0f] for [X] strictly between [-1.0f] and [1.0f]: its
    shape, and its distance from the exact sum. *)
Lemma F32_add_one_unit_value (s : bool) (m : positive) (e : Z) :
  Zpos m < 2 ^ 24 -> -149 <= e <= -24 ->
  (F32.add (S754_finite s m e) F32.one = S754_zero false \/
   (exists m' e', F32.add (S754_finite s m e) F32.one = S754_finite false m' e' /\
                  Zpos m' < 2 ^ 24 /\ -149 <= e' <= -23) \/
   F32.add (S754_finite s m e) F32.one = F32.two) /\
  Z.abs (Value300 (F32.add (S754_finite s m e) F32.one)
         - (Value300 (S754_finite s m e) + 2 ^ 300)) <= 2 ^ 277.
Proof.
  intros Hm He. unfold F32.add, F32.one, SFadd.
  rewrite Z.min_l by lia.
  rewrite (shl_align_val m e e ltac:(lia)), Z.sub_diag, Z.pow_0_r, Z.mul_1_r.
  rewrite (shl_align_val 8388608 (-23) e ltac:(lia)).
  change (Zpos 8388608) with (2 ^ 23). rewrite <- Z.pow_add_r by lia.
  replace (23 + (-23 - e)) with (- e) by lia. cbn [cond_Zopp].
  assert (Hp : 2 ^ 24 <= 2 ^ (- e)) by (apply Z.pow_le_mono_r; lia).
  assert (H2 : 2 ^ (1 - e) = 2 * 2 ^ (- e)).
  { replace (1 - e) with (Z.succ (- e)) by lia. apply Z.pow_succ_r. lia. }
  assert (HM : 0 < cond_Zopp s (Zpos m) + 2 ^ (- e) < 2 ^ (1 - e)).
  { destruct s; cbn [cond_Zopp]; lia. }
  assert (HV : (cond_Zopp s (Zpos m) + 2 ^ (- e)) * 2 ^ (e + 300)
               = Value300 (S754_finite s m e) + 2 ^ 300).
  { cbn [Value300]. rewrite Z.mul_add_distr_r, <- Z.pow_add_r by lia.
    replace (- e + (e + 300)) with 300 by lia.
    destruct s; reflexivity. }
  destruct (cond_Zopp s (Zpos m) + 2 ^ (- e)) as [| p | p] eqn:Ep; try lia.
  unfold binary_normalize.
  pose proof (digits2_le p (1 - e) ltac:(lia) ltac:(lia)) as Hd.
  destruct (binary_round_error F32.prec F32.emax ltac:(reflexivity) false p e (-300)
              ltac:(lia) ltac:(cbv; discriminate))
    as (m' & e' & Hr & Hm' & He' & Herr).
  { rewrite F32_fexp. change (F32.emax - F32.prec) with 104. lia. }
  rewrite F32_fexp in He', Herr, Hr.
  set (e1 := Z.max (Zpos (digits2_pos p) + e - 24) (-149)) in *.
  assert (He1 : -149 <= e1 <= -23) by (unfold e1; lia).
  change (2 ^ F32.prec) with (2 ^ 24) in Hm'.
  change (2 ^ (F32.prec - 1)) with (2 ^ 23) in He'.
  replace (e - -300) with (e + 300) in Herr by lia.
  rewrite HV in Herr.
  assert (Hb : 2 ^ (e1 - -300) <= 2 ^ 277) by (apply Z.pow_le_mono_r; lia).
  destruct Hr as [(Hr & -> & ->) | (Hr & Hpos)]; rewrite Hr.
  - split; [now left |]. change (Value300 (S754_zero false)) with 0.
    rewrite Z.mul_0_l in Herr. lia.
  - assert (Hval : Value300 (S754_finite false (Z.to_pos m') e')
                   = m' * 2 ^ (e' - -300)).
    { cbn [Value300]. rewrite Z2Pos.id by lia.
      replace (e' - -300) with (e' + 300) by lia. reflexivity. }
    split; [| rewrite Hval; lia].
    destruct He' as [-> | (-> & ->)].
    + right; left. exists (Z.to_pos m'), e1. rewrite Z2Pos.id by lia.
      repeat split; lia.
    + destruct (Z.eq_dec e1 (-23)) as [E | N].
      * right; right. rewrite E. reflexivity.
      * right; left. exists (Z.to_pos (2 ^ 23)), (e1 + 1).
        repeat split; lia.
Qed.

(** The quotient [255.0 * s / 2.0f] is computed without error. *)
Lemma F64_colour_quotient (m : positive) (e : Z) :
  Zpos m < 2 ^ 24 -> -149 <= e <= -23 ->
  exists Mp E,
    F64.div (F64.mul (F64.of_Z 255) (F64.of_F32 (S754_finite false m e)))
            (F64.of_F32 F32.two)
    = S754_finite false Mp E /\
    2 ^ 52 <= Zpos Mp < 2 ^ 53 /\
    Zpos Mp < 255 * 2 ^ (- E) /\
    -300 <= E /\
    2 * (Zpos Mp * 2 ^ (E + 300)) = 255 * (Zpos m * 2 ^ (e + 300)).
Proof.
  intros Hm He.
  assert (H255 : Zpos (255 * m) < 2 ^ 53) by lia.
  pose proof (F64_mantissa m ltac:(lia)) as HMr.
  pose proof (F64_mantissa (255 * m) H255) as HMpr.
  pose proof (digits2_le (255 * m) 53 ltac:(lia) H255) as Hdp.
  set (D := Zpos (digits2_pos m)) in *.
  set (Dp := Zpos (digits2_pos (255 * m))) in *.
  assert (0 < Dp) by (unfold Dp; lia).
  set (M := Z.to_pos (Zpos m * 2 ^ (53 - D))).
  set (Mp := Z.to_pos (Zpos (255 * m) * 2 ^ (53 - Dp))).
  assert (HM : Zpos M = Zpos m * 2 ^ (53 - D)) by (unfold M; apply Z2Pos.id; lia).
  assert (HMp : Zpos Mp = Zpos (255 * m) * 2 ^ (53 - Dp))
    by (unfold Mp; apply Z2Pos.id; lia).
  exists Mp, (e - (53 - Dp) - 1).
  rewrite (F64_of_F32_exact m e M Hm ltac:(lia) HM).
  rewrite (F64_mul_255_exact m e M Mp Hm ltac:(lia) HM HMp). fold Dp.
  rewrite F64_div_two_exact by lia.
  split; [reflexivity |]. split; [lia |].
  pose proof (pow2_pos (53 - Dp) ltac:(lia)) as Hp.
  split; [| split; [lia |]].
  - rewrite HMp, Pos2Z.inj_mul.
    replace (- (e - (53 - Dp) - 1)) with ((1 - e) + (53 - Dp)) by lia.
    rewrite Z.pow_add_r by lia.
    assert (2 ^ 24 <= 2 ^ (1 - e)) by (apply Z.pow_le_mono_r; lia).
    rewrite Z.mul_assoc. apply Z.mul_lt_mono_pos_r; [assumption | lia].
  - rewrite HMp, Pos2Z.inj_mul.
    remember (e - (53 - Dp) - 1 + 300) as E' eqn:EE'.
    replace (e + 300) with ((53 - Dp) + E' + 1) by lia.
    rewrite !Z.pow_add_r by lia. change (2 ^ 1) with 2. ring.
Qed.

(** The floor of the converted quotient, and its distance from the
    quotient. *)
Lemma F64_to_F32_floor_value (M : positive) (E : Z) :
  2 ^ 52 <= Zpos M < 2 ^ 53 -> Zpos M < 255 * 2 ^ (- E) -> -300 <= E ->
  exists F,
    FloorToInt (F64.to_F32 (S754_finite false M E)) = F / 2 ^ 300 /\
    Z.abs (F - Zpos M * 2 ^ (E + 300)) <= 2 ^ 284.
Proof.
  intros HM Hlt HE.
  pose proof (F64_to_F32_floor_byte M E HM Hlt) as Hbyte.
  assert (Hex : E <= -45).
  { destruct (Z_le_gt_dec E (-45)); [assumption | exfalso].
    destruct (Z_le_gt_dec 0 (- E)) as [Hn | Hn].
    - assert (2 ^ (- E) <= 2 ^ 44) by (apply Z.pow_le_mono_r; lia). lia.
    - rewrite Z.pow_neg_r in Hlt by lia. lia. }
  cbn [F64.to_F32] in *.
  pose proof (digits2_unique M 53 HM) as HD.
  destruct (binary_round_error F32.prec F32.emax ltac:(reflexivity) false M E (-300)
              ltac:(lia) ltac:(cbv; discriminate))
    as (m & e & Hr & Hm & He & Herr).
  { rewrite HD, F32_fexp. change (F32.emax - F32.prec) with 104. lia. }
  rewrite HD, F32_fexp in He, Herr, Hr.
  set (e1 := Z.max (53 + E - 24) (-149)) in *.
  assert (He1 : -149 <= e1 <= -16) by (unfold e1; lia).
  replace (E - -300) with (E + 300) in Herr by lia.
  assert (Hb : 2 ^ (e1 - -300) <= 2 ^ 284) by (apply Z.pow_le_mono_r; lia).
  assert (Hin : forall z, 0 <= (if (INT32_MIN <=? z) && (z <? 2 ^ 31) then z
                                else INT32_MIN) ->
                          (if (INT32_MIN <=? z) && (z <? 2 ^ 31) then z
                           else INT32_MIN) = z).
  { intros z. destruct ((INT32_MIN <=? z) && (z <? 2 ^ 31)); [reflexivity |].
    unfold INT32_MIN. lia. }
  destruct Hr as [(Hr & -> & ->) | (Hr & Hpos)]; rewrite Hr in *.
  - exists 0. split; [reflexivity |]. rewrite Z.mul_0_l in Herr. lia.
  - exists (m * 2 ^ (e - -300)). split; [| lia].
    assert (Hneg : e < 0) by lia.
    unfold FloorToInt in *. cbn [F32.floor] in *.
    rewrite Z2Pos.id in * by lia.
    destruct (Z.leb_spec 0 e) as [Hbad | _]; [lia |].
    rewrite (Hin _ (proj1 Hbyte)).
    replace (e - -300) with ((300 + e) + 0) by lia.
    replace (2 ^ 300) with (2 ^ (- e) * 2 ^ (300 + e)).
    2:{ rewrite <- Z.pow_add_r by lia. f_equal. lia. }
    rewrite Z.add_0_r.
    pose proof (pow2_pos (300 + e) ltac:(lia)). pose proof (pow2_pos (- e) ltac:(lia)).
    rewrite Z.div_mul_cancel_r by lia. reflexivity.
Qed.

(** Two numbers less than one unit apart have floors at most one apart. *)
Lemma floor_near (a b d : Z) :
  0 < d -> Z.abs (a - b) < d -> Z.abs (a / d - b / d) <= 1.
Proof.
  intros Hd Hab.
  pose proof (Z.div_mod a d ltac:(lia)). pose proof (Z.mod_pos_bound a d Hd).
  pose proof (Z.div_mod b d ltac:(lia)). pose proof (Z.mod_pos_bound b d Hd).
  apply Z.abs_le. apply Z.abs_lt in Hab. nia.
Qed.

(** For a component between [-1.0f] and [1.0f] the computed colour value
    is within one of the exact [floor(255 * (X + 1) / 2)]. *)
Lemma ToColor_near_exact (X : float) :
  F32.valid X = true ->
  F32.leb F32.minus_one X = true -> F32.leb X F32.one = true ->
  Z.abs (ToColor X - ExactChannel X) <= 1.
Proof.
  intros Hv Hlo Hhi.
  destruct (F32_unit_interval X Hv Hlo Hhi)
    as [[s ->] | [-> | [-> | (s & m & e & -> & Hm & He)]]].
  - destruct s; vm_compute; discriminate.
  - vm_compute; discriminate.
  - vm_compute; discriminate.
  - unfold ToColor, ExactChannel.
    destruct (F32_add_one_unit_value s m e Hm He) as [Hshape Herr].
    set (S1 := F32.add (S754_finite s m e) F32.one) in *.
    set (Sum := Value300 (S754_finite s m e) + 2 ^ 300) in *.
    assert (H277 : 2 ^ 277 * 2 ^ 24 = 2 ^ 301) by (rewrite <- Z.pow_add_r; reflexivity || lia).
    assert (H284 : 2 ^ 284 * 2 ^ 17 = 2 ^ 301) by (rewrite <- Z.pow_add_r; reflexivity || lia).
    assert (P277 : 0 < 2 ^ 277) by (apply pow2_pos; lia).
    assert (P284 : 0 < 2 ^ 284) by (apply pow2_pos; lia).
    assert (H300 : 2 ^ 301 = 2 * 2 ^ 300) by (change 301 with (Z.succ 300); apply Z.pow_succ_r; lia).
    assert (HSum : 0 < Sum < 2 ^ 301).
    { assert (Hc : Z.abs (Value300 (S754_finite s m e)) < 2 ^ 300).
      { cbn [Value300].
        assert (Hpe : 2 ^ (e + 300) <= 2 ^ 276) by (apply Z.pow_le_mono_r; lia).
        pose proof (pow2_pos (e + 300) ltac:(lia)) as Hpp.
        assert (H276 : 2 ^ 24 * 2 ^ 276 = 2 ^ 300)
          by (rewrite <- Z.pow_add_r; reflexivity || lia).
        rewrite Z.abs_mul, (Z.abs_eq (2 ^ (e + 300))) by lia.
        assert (Z.abs (if s then Zneg m else Zpos m) < 2 ^ 24) by (destruct s; lia).
        nia. }
      unfold Sum. lia. }
    destruct Hshape as [E0 | [(m' & e' & Es & Hm' & He') | E2]].
    + (* the sum is zero *)
      rewrite E0 in *. cbn [Value300] in Herr.
      change (FloorToInt _) with 0.
      apply Z.abs_le in Herr.
      rewrite (Z.div_small (255 * Sum)) by lia. cbn. lia.
    + rewrite Es in *.
      destruct (F64_colour_quotient m' e' Hm' He')
        as (Mp & E & -> & HMp & Hlt & HE & Hq).
      destruct (F64_to_F32_floor_value Mp E HMp Hlt HE) as (F & -> & HF).
      cbn [Value300] in Herr.
      replace (F / 2 ^ 300) with ((2 * F) / 2 ^ 301).
      2:{ rewrite H300. apply Z.div_mul_cancel_l; lia. }
      apply floor_near; [lia |].
      apply Z.abs_le in Herr, HF. apply Z.abs_lt. lia.
    + rewrite E2 in *. change (Value300 F32.two) with (2 ^ 301) in Herr.
      change (FloorToInt _) with 255.
      assert (254 <= 255 * Sum / 2 ^ 301 <= 255); [| lia].
      apply Z.abs_le in Herr.
      split; [apply Z.div_le_lower_bound; lia |].
      apply Z.div_le_upper_bound; lia.
Qed.

(* ===================================================================== *)
(** ** The claims *)
(* ===================================================================== *)

(** *** C1: the two fractions of [Intersect] *)

(** C1, counterexample.  On the freshly constructed map (one off-road
    pixel) a box of 65536 x 65536 centimetres sampled once per centimetre
    takes [2^32] samples: the 32-bit [CheckCount] wraps to zero, nothing is
    divided, and the call returns the raw [float] counter, 16777216, as
    "fraction off the road". *)
Lemma C1_counterexample :
  exists r log,
    Intersect 65537 NewRoadMap TransformIdentity HugeExtent F32.one = Done (r, log) /\
    OffRoad r = F32.of_Z 16777216 /\
    F32.leb (OffRoad r) F32.one = false.
Proof.
  exists (mkResult (F32.of_Z 16777216) F32.zero), [ZeroChecksWarning].
  split; [| split; reflexivity].
  rewrite (Intersect_uniform 65537 NewRoadMap TransformIdentity HugeExtent F32.one
             DefaultPixel (2 ^ 32)
             (fun p => GetDataAt_single NewRoadMap DefaultPixel p
                         eq_refl eq_refl eq_refl)
             HugeExtent_count).
  reflexivity.
Qed.

(** Rounding alone can lift the exact sum of the two returned fractions
    above one: with one sample off the road and two on an opposite lane the
    results are [11184811 * 2^-25] and [11184811 * 2^-24], which add up to
    [33554433 / 33554432]. *)
Example thirds_round_up :
  Intersect 10 ThirdsMap TransformIdentity ThirdsExtent F32.one
  = Done (mkResult (S754_finite false 11184811 (-25))
                   (S754_finite false 11184811 (-24)), []) /\
  2 ^ 25 < 11184811 + 2 * 11184811.
Proof. split; [vm_compute; reflexivity | lia]. Qed.

(** C1 (amended).  Whenever [Intersect] returns after at least one and
    fewer than [2^32] samples, the two results are the [float] quotients of
    two counters by the number of samples, each sample having been counted
    toward at most one of them (so the counts add up to at most the number of
    samples), and each result lies between [0.0f] and [1.0f]. *)
Theorem C1_fractions_in_unit_interval {TM : TransformMath} (fuel : nat)
        (g : URoadMap) (T : FTransform) (E : FVector) (d : float) (n : Z)
        (r : FRoadMapIntersectionResult) (log : list LogEntry) :
  SampleCount fuel E (F32.div F32.one d) = Some n ->
  1 <= n < 2 ^ 32 ->
  Intersect fuel g T E d = Done (r, log) ->
  (exists a b,
      0 <= a /\ 0 <= b /\ a + b <= n /\
      OffRoad r = F32.div (Counter a) (F32.of_Z n) /\
      OppositeLane r = F32.div (Counter b) (F32.of_Z n)) /\
  F32.leb F32.zero (OffRoad r) = true /\ F32.leb (OffRoad r) F32.one = true /\
  F32.leb F32.zero (OppositeLane r) = true /\
  F32.leb (OppositeLane r) F32.one = true.
Proof.
  intros Hn Hrange Hrun. apply SampleCount_spec in Hn as (ps & Hps & ->).
  rewrite (Intersect_samples fuel g T E d ps Hps) in Hrun.
  destruct (MapM (SampleAt g T) ps) as [ds | |] eqn:Hds; cbn [bind] in Hrun;
    try discriminate.
  apply MapM_length in Hds. rewrite Hds in Hrun.
  remember (Z.of_nat (length ps)) as n eqn:En.
  remember (GetForwardVector (Rotation T)) as Dir eqn:EDir.
  pose proof (Counts_exclusive Dir ds) as Hex. rewrite Hds, <- En in Hex.
  pose proof (CountOff_nonneg ds) as Ha.
  pose proof (CountOpposite_nonneg Dir ds) as Hb.
  unfold Finish in Hrun. cbn [CheckCount Result OffRoad OppositeLane] in Hrun.
  rewrite u32_small in Hrun by lia.
  destruct (Z.ltb_spec 0 n) as [_ | Hbad]; [| lia].
  injection Hrun as <- <-. cbn [OffRoad OppositeLane].
  split.
  - exists (CountOff ds), (CountOpposite Dir ds). repeat split; assumption.
  - unfold Counter.
    pose proof (F32_div_fraction (Z.min (CountOff ds) (2 ^ 24)) n
                  ltac:(lia) ltac:(lia) ltac:(lia)) as [H1 H2].
    pose proof (F32_div_fraction (Z.min (CountOpposite Dir ds) (2 ^ 24)) n
                  ltac:(lia) ltac:(lia) ltac:(lia)) as [H3 H4].
    repeat split; assumption.
Qed.

(** C1, witness: 16 samples of the freshly constructed map. *)
Lemma C1_witness :
  (SampleCount 10 UnitExtent (F32.div F32.one F32.two) = Some 16 /\
   1 <= 16 < 2 ^ 32 /\
   Intersect 10 NewRoadMap TransformIdentity UnitExtent F32.two
   = Done (mkResult F32.one F32.zero, [])) /\
  ((exists a b,
       0 <= a /\ 0 <= b /\ a + b <= 16 /\
       OffRoad (mkResult F32.one F32.zero) = F32.div (Counter a) (F32.of_Z 16) /\
       OppositeLane (mkResult F32.one F32.zero) = F32.div (Counter b) (F32.of_Z 16)) /\
   F32.leb F32.zero (OffRoad (mkResult F32.one F32.zero)) = true /\
   F32.leb (OffRoad (mkResult F32.one F32.zero)) F32.one = true /\
   F32.leb F32.zero (OppositeLane (mkResult F32.one F32.zero)) = true /\
   F32.leb (OppositeLane (mkResult F32.one F32.zero)) F32.one = true).
Proof.
  assert (H1 : SampleCount 10 UnitExtent (F32.div F32.one F32.two) = Some 16)
    by (vm_compute; reflexivity).
  assert (H2 : 1 <= 16 < 2 ^ 32) by lia.
  assert (H3 : Intersect 10 NewRoadMap TransformIdentity UnitExtent F32.two
               = Done (mkResult F32.one F32.zero, []))
    by (vm_compute; reflexivity).
  split; [exact (conj H1 (conj H2 H3)) |].
  exact (C1_fractions_in_unit_interval 10 NewRoadMap TransformIdentity UnitExtent
           F32.two 16 (mkResult F32.one F32.zero) [] H1 H2 H3).
Defined.

(** *** C2: point queries stay inside the grid *)

(** C2.  On a valid map every world position, finite or not, is mapped to
    pixel indices [0 <= x <= Width - 1] and [0 <= y <= Height - 1], and the
    point query returns a pixel of the map. *)
Theorem C2_point_query_in_range {TM : TransformMath} (g : URoadMap) (p : FVector) :
  InRange g -> IsValid g = true ->
  0 <= fst (ToPixel g p) <= Width g - 1 /\
  0 <= snd (ToPixel g p) <= Height g - 1 /\
  exists d, GetDataAt g p = Done d /\ In d (RoadMap g).
Proof.
  intros HR HV. destruct (ToPixel_range g p HR HV) as [Hx Hy].
  repeat split; try apply Hx; try apply Hy. now apply GetDataAt_valid.
Qed.

(** C2, witness: the freshly constructed map. *)
Lemma C2_witness :
  (InRange NewRoadMap /\ IsValid NewRoadMap = true) /\
  (0 <= fst (ToPixel NewRoadMap ForwardX) <= Width NewRoadMap - 1 /\
   0 <= snd (ToPixel NewRoadMap ForwardX) <= Height NewRoadMap - 1 /\
   exists d, GetDataAt NewRoadMap ForwardX = Done d /\ In d (RoadMap NewRoadMap)).
Proof.
  assert (HR : InRange NewRoadMap) by (unfold InRange; cbn; lia).
  assert (HV : IsValid NewRoadMap = true) by reflexivity.
  split; [split; assumption |].
  exact (C2_point_query_in_range NewRoadMap ForwardX HR HV).
Defined.

(** *** C3: pixel to world and back *)




(** *** C4: a lane along the direction of movement *)




(** *** C5: no samples *)



(** *** C6: the colour of a pixel *)

(** C6, counterexample.  The component [1 - 2^-24] lies between [-1.0f] and
    [1.0f].  Its sum with [1.0f] rounds to [2.0f], so the red channel is
    255, while [floor(255 * (c + 1) / 2)] is 254 in exact arithmetic. *)
Lemma C6_counterexample :
  UnitComponent NearlyOne /\
  Encode NearlyAlongX = mkColor 255 127 127 255 /\
  EncodeSpec NearlyAlongX = mkColor 254 127 127 255.
Proof.
  split; [repeat split |]. split; vm_compute; reflexivity.
Qed.

(** C6 (amended).  [Encode] depends on the pixel only.  Off the road it is
    opaque black whatever the other fields hold, and on a road without
    direction it is opaque white: in both cases it is the colour the
    specification gives.  Its alpha is always opaque.  For an on-road pixel
    with a direction whose components lie between [-1.0f] and [1.0f], each
    channel lies between 0 and 255 and is at most one away from the exact
    [floor(255 * (component + 1) / 2)]: the sum is rounded to a [float]
    before the product, and the quotient once more before the floor. *)
Theorem C6_encode (Data : FRoadMapPixelData) :
  (bIsOffRoad Data = true -> Encode Data = mkColor 0 0 0 255) /\
  (bIsOffRoad Data = false -> bHasDirection Data = false ->
   Encode Data = mkColor 255 255 255 255) /\
  (bIsOffRoad Data = true \/ bHasDirection Data = false ->
   Encode Data = EncodeSpec Data) /\
  A (Encode Data) = 255 /\ A (EncodeSpec Data) = 255 /\
  (bIsOffRoad Data = false -> bHasDirection Data = true ->
   UnitComponent (VX (Direction Data)) ->
   UnitComponent (VY (Direction Data)) ->
   UnitComponent (VZ (Direction Data)) ->
   (0 <= R (Encode Data) <= 255 /\
    Z.abs (R (Encode Data) - R (EncodeSpec Data)) <= 1) /\
   (0 <= G (Encode Data) <= 255 /\
    Z.abs (G (Encode Data) - G (EncodeSpec Data)) <= 1) /\
   (0 <= B (Encode Data) <= 255 /\
    Z.abs (B (Encode Data) - B (EncodeSpec Data)) <= 1)).
Proof.
  unfold Encode, EncodeSpec.
  destruct (bIsOffRoad Data) eqn:Eo.
  { repeat split; try reflexivity; discriminate. }
  destruct (bHasDirection Data) eqn:Eh; cbn [negb A R G B].
  2:{ repeat split; try reflexivity; try discriminate. }
  split; [discriminate |]. split; [discriminate |].
  split; [intros [H | H]; discriminate |].
  split; [reflexivity |]. split; [reflexivity |].
  intros _ _ (Vx & Lx & Hx) (Vy & Ly & Hy) (Vz & Lz & Hz).
  pose proof (ToColor_unit_range _ Vx Lx Hx) as Rx.
  pose proof (ToColor_unit_range _ Vy Ly Hy) as Ry.
  pose proof (ToColor_unit_range _ Vz Lz Hz) as Rz.
  rewrite !u8_small by assumption.
  repeat split; try lia; now apply ToColor_near_exact.
Qed.

(** Outside that range the channels are the values of the formula, as the
    code computes them, modulo 256. *)
Lemma Encode_directed (Data : FRoadMapPixelData) :
  bIsOffRoad Data = false -> bHasDirection Data = true ->
  Encode Data = mkColor (ToColor (VX (Direction Data)) mod 256)
                        (ToColor (VY (Direction Data)) mod 256)
                        (ToColor (VZ (Direction Data)) mod 256)
                        255.
Proof. intros Ho Hd. unfold Encode. now rewrite Ho, Hd. Qed.

(** *** C7: the direction of an appended pixel *)

(** C7.  [AppendPixel] with the tag [RoadTwoLanes_LaneLeft] appends an
    on-road pixel whose direction is the forward vector of the rotation
    made from the rotator of the placement with [180.0f] added to its yaw
    by a [float] addition, pitch and roll unchanged (and multiplied by
    [-1.0f] when [bInvertDirection] is set).  When the yaw of the placement
    is a whole number [n] of degrees with [|n| <= 2^23], the yaw used is
    the whole number [n + 180], with no rounding and no reduction modulo
    360.  For every tag that carries a direction, the direction appended
    with [bInvertDirection = true] is exactly the negation of the one
    appended with [false], the latter being a vector of binary32 numbers. *)
Theorem C7_lane_left_and_inversion {TM : TransformMath} {RM : RotatorMath}
        (g : URoadMap) (T : FTransform) (inv : bool) (Tag : ECityMapMeshTag) :
  TagHasDirection Tag = true ->
  ValidVector (LastDirection (AppendPixel g Tag T false)) ->
  (let Rot := Rotator (Rotation T) in
   let Forward :=
     GetForwardVector
       (MakeQuat (mkRotator (Pitch Rot)
                            (F32.add (Yaw Rot) (S754_finite false 11796480 (-16)))
                            (Roll Rot))) in
   RoadMap (AppendPixel g RoadTwoLanes_LaneLeft T inv)
   = RoadMap g ++
     [mkPixel false true
        (if inv then vscale Forward F32.minus_one else Forward)]) /\
  (forall (p r : float) (n : Z),
      - 2 ^ 23 <= n <= 2 ^ 23 ->
      Rotator (Rotation T) = mkRotator p (F32.of_Z n) r ->
      let Forward := GetForwardVector (MakeQuat (mkRotator p (F32.of_Z (n + 180)) r)) in
      RoadMap (AppendPixel g RoadTwoLanes_LaneLeft T inv)
      = RoadMap g ++
        [mkPixel false true
           (if inv then vscale Forward F32.minus_one else Forward)]) /\
  LastDirection (AppendPixel g Tag T true)
  = vneg (LastDirection (AppendPixel g Tag T false)).
Proof.
  intros HT HV.
  assert (Hneg : LastDirection (AppendPixel g Tag T true)
                 = vneg (LastDirection (AppendPixel g Tag T false))).
  { unfold LastDirection in *.
    rewrite (AppendPixel_directed g Tag T true HT).
    rewrite (AppendPixel_directed g Tag T false HT) in *.
    rewrite !last_last in *. cbn [Direction] in *.
    now apply vscale_minus_one. }
  split; [| split; [| exact Hneg]].
  - cbv zeta. now apply AppendPixel_rotator.
  - intros p r n Hn Hr. cbv zeta.
    apply AppendPixel_rotator. cbn [SwitchTag]. rewrite Hr.
    unfold AddYaw. cbn [Pitch Yaw Roll].
    rewrite (F32_add_whole n 180) by lia. reflexivity.
Qed.

(** C7, witness: lane 1 of a 90-degree turn appended to the fresh map. *)
Lemma C7_witness :
  (TagHasDirection Road90DegTurn_Lane1 = true /\
   ValidVector (LastDirection (AppendPixel NewRoadMap Road90DegTurn_Lane1
                                           TransformIdentity false))) /\
  LastDirection (AppendPixel NewRoadMap Road90DegTurn_Lane1 TransformIdentity true)
  = vneg (LastDirection (AppendPixel NewRoadMap Road90DegTurn_Lane1
                                     TransformIdentity false)).
Proof.
  assert (H1 : TagHasDirection Road90DegTurn_Lane1 = true) by reflexivity.
  assert (H2 : ValidVector (LastDirection (AppendPixel NewRoadMap Road90DegTurn_Lane1
                                                       TransformIdentity false)))
    by (vm_compute; repeat split; reflexivity).
  split; [exact (conj H1 H2) |].
  exact (proj2 (proj2 (C7_lane_left_and_inversion NewRoadMap TransformIdentity true
                         Road90DegTurn_Lane1 H1 H2))).
Defined.

(** With the half-turn stand-in, a left lane placed with the identity
    transform points along [-X], and along [+X] when inverted. *)
Example LaneLeft_from_identity :
  LastDirection (AppendPixel NewRoadMap RoadTwoLanes_LaneLeft TransformIdentity false)
  = mkVector F32.minus_one F32.zero F32.zero /\
  LastDirection (AppendPixel NewRoadMap RoadTwoLanes_LaneLeft TransformIdentity true)
  = mkVector F32.one (S754_zero true) (S754_zero true).
Proof. split; vm_compute; reflexivity. Qed.

(** *** C8: the number of pixels and the dimensions *)

(** C8, counterexample.  Appending one pixel to the freshly constructed map,
    through [AppendPixel] or [AppendEmptyPixel], leaves two pixels in a map
    of 1 x 1: the map is no longer valid. *)
Lemma C8_counterexample :
  IsValid (AppendPixel NewRoadMap (OtherTag 0) TransformIdentity false) = false /\
  Z.of_nat (length (RoadMap (AppendPixel NewRoadMap (OtherTag 0)
                                         TransformIdentity false)))
  <> Width (AppendPixel NewRoadMap (OtherTag 0) TransformIdentity false)
     * Height (AppendPixel NewRoadMap (OtherTag 0) TransformIdentity false) /\
  IsValid (AppendEmptyPixel NewRoadMap) = false /\
  Z.of_nat (length (RoadMap (AppendEmptyPixel NewRoadMap)))
  <> Width (AppendEmptyPixel NewRoadMap) * Height (AppendEmptyPixel NewRoadMap).
Proof. repeat split; try reflexivity; cbn; lia. Qed.

(** C8 (amended).  The freshly constructed map is 1 x 1 at one pixel per
    centimetre, holds exactly one pixel, which is off the road, is valid, and
    answers every point query with that pixel.  [Set] replaces the dimensions
    and keeps the pixels; each append adds exactly one pixel and keeps the
    dimensions.  So the operations do not maintain
    [pixels = Width * Height] one by one: a map is valid exactly when it
    holds at least one pixel and as many pixels as [Height * Width]. *)
Theorem C8_population {TM : TransformMath} {RM : RotatorMath} :
  (Width NewRoadMap = 1 /\ Height NewRoadMap = 1 /\
   PixelsPerCentimeter NewRoadMap = F32.one /\
   RoadMap NewRoadMap = [DefaultPixel] /\ bIsOffRoad DefaultPixel = true /\
   IsValid NewRoadMap = true /\
   forall p, GetDataAt NewRoadMap p = Done DefaultPixel) /\
  (forall g w h ppc t o,
      RoadMap (SetMap g w h ppc t o) = RoadMap g /\
      Width (SetMap g w h ppc t o) = w /\ Height (SetMap g w h ppc t o) = h) /\
  (forall g,
      length (RoadMap (AppendEmptyPixel g)) = S (length (RoadMap g)) /\
      Width (AppendEmptyPixel g) = Width g /\ Height (AppendEmptyPixel g) = Height g) /\
  (forall g Tag T inv,
      length (RoadMap (AppendPixel g Tag T inv)) = S (length (RoadMap g)) /\
      Width (AppendPixel g Tag T inv) = Width g /\
      Height (AppendPixel g Tag T inv) = Height g) /\
  (forall g,
      IsValid g = true <->
      (0 < length (RoadMap g))%nat /\
      Z.of_nat (length (RoadMap g)) = Height g * Width g).
Proof.
  repeat split; try reflexivity.
  - intros p. now apply GetDataAt_single.
  - cbn [AppendEmptyPixel RoadMap]. rewrite length_app. cbn. lia.
  - destruct (AppendPixel_cells g Tag T inv) as (d & -> & _).
    rewrite length_app. cbn. lia.
  - now destruct (AppendPixel_cells g Tag T inv) as (d & _ & _ & -> & _).
  - now destruct (AppendPixel_cells g Tag T inv) as (d & _ & _ & _ & ->).
  - unfold IsValid in H. apply andb_true_iff in H as [H _].
    apply Z.ltb_lt in H. lia.
  - unfold IsValid in H. apply andb_true_iff in H as [_ H]. now apply Z.eqb_eq in H.
  - intros [H1 H2]. unfold IsValid. apply andb_true_iff. split.
    + apply Z.ltb_lt. lia.
    + now apply Z.eqb_eq.
Qed.

(** *** C9: termination of the sampling loops *)




(** *** C10: the vertical extent of the box *)

(** C10.  [Intersect] never looks at [BoxExtent.Z]: two calls that differ
    in nothing else have the same outcome, for every number of iterations
    allowed. *)
Theorem C10_extent_Z_ignored {TM : TransformMath} (fuel : nat) (g : URoadMap)
        (T : FTransform) (x y z1 z2 d : float) :
  Intersect fuel g T (mkVector x y z1) d = Intersect fuel g T (mkVector x y z2) d.
Proof. reflexivity. Qed.

(* ===================================================================== *)
(** ** Further properties of the code *)
(* ===================================================================== *)

(** ** More on [Intersect] *)

Lemma CountOff_all (ds : list FRoadMapPixelData) :
  Forall (fun d => bIsOffRoad d = true) ds -> CountOff ds = Z.of_nat (length ds).
Proof.
  induction 1 as [| d ds Hd _ IH]; [reflexivity |].
  rewrite CountOff_cons, IH. unfold CountOff. cbn [filter].
  rewrite Hd. cbn [length]. lia.
Qed.

Lemma CountOpposite_none (Dir : FVector) (ds : list FRoadMapPixelData) :
  Forall (fun d => IsOpposite Dir d = false) ds -> CountOpposite Dir ds = 0.
Proof.
  induction 1 as [| d ds Hd _ IH]; [reflexivity |].
  rewrite CountOpposite_cons, IH. unfold CountOpposite. cbn [filter].
  now rewrite Hd.
Qed.

(** The conversion of a positive sample count is a positive number. *)
Lemma F32_of_Z_positive (n : Z) :
  0 < n < 2 ^ 32 -> exists m e, F32.of_Z n = S754_finite false m e.
Proof.
  intros Hn. destruct (Z_le_gt_dec n (2 ^ 24)).
  - destruct (F32_of_Z_rep n ltac:(lia)) as (m & e & H & _). eauto.
  - destruct (F32_of_Z_large n ltac:(lia)) as (m & e & H & _). eauto.
Qed.

(** X1.  On a valid map whose pixels are all off the road, as the freshly
    constructed map is, a call that takes between one and [2^24] samples
    returns an off-road fraction of exactly [1.0f] and an opposite-lane
    fraction of [0.0f], without a warning, whatever the box and however the
    engine transforms the samples. *)
Theorem Intersect_all_off_road {TM : TransformMath} (fuel : nat) (g : URoadMap)
        (T : FTransform) (E : FVector) (d : float) (ps : list (float * float)) :
  InRange g -> IsValid g = true ->
  Forall (fun c => bIsOffRoad c = true) (RoadMap g) ->
  Samples fuel E (F32.div F32.one d) = Some ps ->
  1 <= Z.of_nat (length ps) <= 2 ^ 24 ->
  Intersect fuel g T E d = Done (mkResult F32.one F32.zero, []).
Proof.
  intros HR HV Hoff Hps Hn.
  rewrite (Intersect_samples fuel g T E d ps Hps).
  destruct (MapM_Forall (SampleAt g T) (fun c => In c (RoadMap g)) ps
              (fun p _ => GetDataAt_valid g _ HR HV)) as (ds & -> & HP & Hl).
  cbn [bind].
  assert (Hds : Forall (fun c => bIsOffRoad c = true) ds).
  { eapply Forall_impl; [| exact HP]. intros c Hc.
    now apply (proj1 (Forall_forall _ _) Hoff). }
  rewrite (CountOff_all ds Hds).
  rewrite CountOpposite_none.
  2:{ eapply Forall_impl; [| exact Hds]. intros c Hc.
      unfold IsOpposite. now rewrite Hc. }
  rewrite Hl. remember (Z.of_nat (length ps)) as n eqn:En.
  unfold Finish. cbn [CheckCount Result OffRoad OppositeLane].
  rewrite u32_small by lia.
  destruct (Z.ltb_spec 0 n) as [_ | Hbad]; [| lia].
  unfold Counter. rewrite (Z.min_l n), (Z.min_l 0) by lia.
  destruct (F32_of_Z_rep n ltac:(lia)) as (m & e & -> & _).
  rewrite F32_div_self. reflexivity.
Qed.

(** X1, witness: the freshly constructed map under a box of 2 x 2
    centimetres checked twice per centimetre. *)
Lemma Intersect_all_off_road_witness :
  Intersect 10 NewRoadMap TransformIdentity UnitExtent F32.two
  = Done (mkResult F32.one F32.zero, []).
Proof.
  assert (H1 : InRange NewRoadMap) by (unfold InRange; cbn; lia).
  assert (H2 : IsValid NewRoadMap = true) by reflexivity.
  assert (H3 : Forall (fun c => bIsOffRoad c = true) (RoadMap NewRoadMap))
    by (repeat constructor).
  assert (H4 : Samples 10 UnitExtent (F32.div F32.one F32.two)
               = Some (list_prod
                         [F32.minus_one; S754_finite true 8388608 (-24);
                          F32.zero; S754_finite false 8388608 (-24)]
                         [F32.minus_one; S754_finite true 8388608 (-24);
                          F32.zero; S754_finite false 8388608 (-24)]))
    by (vm_compute; reflexivity).
  assert (H5 : 1 <= Z.of_nat (length
                       (list_prod
                         [F32.minus_one; S754_finite true 8388608 (-24);
                          F32.zero; S754_finite false 8388608 (-24)]
                         [F32.minus_one; S754_finite true 8388608 (-24);
                          F32.zero; S754_finite false 8388608 (-24)])) <= 2 ^ 24)
    by (cbn; lia).
  exact (Intersect_all_off_road 10 NewRoadMap TransformIdentity UnitExtent F32.two
           _ H1 H2 H3 H4 H5).
Defined.

(** X2.  If every sampled pixel is on the road and either has no direction
    or has one whose dot product with the forward vector of the box is not
    positive (a lane recorded against the movement, or across it), both
    fractions are exactly [0.0f] and no warning is issued, for any number
    of samples below [2^32]. *)
Theorem Intersect_nothing_counted {TM : TransformMath} (fuel : nat) (g : URoadMap)
        (T : FTransform) (E : FVector) (d : float) (ps : list (float * float)) :
  Samples fuel E (F32.div F32.one d) = Some ps ->
  1 <= Z.of_nat (length ps) < 2 ^ 32 ->
  (forall p, In p ps ->
     exists c, SampleAt g T p = Done c /\ bIsOffRoad c = false /\
               (bHasDirection c = false \/
                F32.ltb F32.zero
                  (DotProduct (Direction c) (GetForwardVector (Rotation T)))
                = false)) ->
  Intersect fuel g T E d = Done (mkResult F32.zero F32.zero, []).
Proof.
  intros Hps Hn Hcells.
  rewrite (Intersect_samples fuel g T E d ps Hps).
  destruct (MapM_Forall (SampleAt g T) _ ps Hcells) as (ds & -> & HP & Hl).
  cbn [bind].
  rewrite CountOff_none.
  2:{ eapply Forall_impl; [| exact HP]. now intros c (H & _). }
  rewrite CountOpposite_none.
  2:{ eapply Forall_impl; [| exact HP]. intros c (H1 & [H2 | H2]);
        unfold IsOpposite; rewrite H1, H2; cbn [negb andb];
        [reflexivity | apply andb_false_r]. }
  rewrite Hl. remember (Z.of_nat (length ps)) as n eqn:En.
  unfold Finish. cbn [CheckCount Result OffRoad OppositeLane].
  rewrite u32_small by lia.
  destruct (Z.ltb_spec 0 n) as [_ | Hbad]; [| lia].
  destruct (F32_of_Z_positive n ltac:(lia)) as (m & e & ->).
  reflexivity.
Qed.

(** X2, witness: a one-pixel map whose lane runs along [-X], under a box
    moving along [+X]. *)
Lemma Intersect_nothing_counted_witness :
  Intersect 10 (SinglePixelMap
                  (mkPixel false true (mkVector F32.minus_one F32.zero F32.zero)))
            TransformIdentity UnitExtent F32.two
  = Done (mkResult F32.zero F32.zero, []).
Proof.
  set (c := mkPixel false true (mkVector F32.minus_one F32.zero F32.zero)).
  set (xs := [F32.minus_one; S754_finite true 8388608 (-24);
              F32.zero; S754_finite false 8388608 (-24)]).
  assert (H1 : Samples 10 UnitExtent (F32.div F32.one F32.two)
               = Some (list_prod xs xs)) by (vm_compute; reflexivity).
  assert (H2 : 1 <= Z.of_nat (length (list_prod xs xs)) < 2 ^ 32) by (cbn; lia).
  assert (H3 : forall p, In p (list_prod xs xs) ->
            exists c', SampleAt (SinglePixelMap c) TransformIdentity p = Done c' /\
                       bIsOffRoad c' = false /\
                       (bHasDirection c' = false \/
                        F32.ltb F32.zero
                          (DotProduct (Direction c')
                             (GetForwardVector (Rotation TransformIdentity)))
                        = false)).
  { intros p _. exists c. split; [| split; [reflexivity | right; reflexivity]].
    apply GetDataAt_single; reflexivity. }
  exact (Intersect_nothing_counted 10 (SinglePixelMap c) TransformIdentity
           UnitExtent F32.two (list_prod xs xs) H1 H2 H3).
Defined.



(** ** Degenerate sampling densities *)

(** Once a loop variable has been advanced by an infinite step, the loop
    test fails. *)
Lemma F32_ltb_after_infinite_step (v hi : float) :
  F32.ltb (F32.add v (S754_infinity false)) hi = false.
Proof.
  destruct v as [[] | [] | | [] m e]; destruct hi as [[] | [] | | [] m' e'];
    reflexivity.
Qed.

(** A loop with an infinite step visits its first value only. *)
Lemma AxisSamples_infinite_step (fuel : nat) (hi v : float) :
  F32.ltb v hi = true ->
  AxisSamples (S (S fuel)) hi (S754_infinity false) v = Some [v].
Proof.
  intros H. cbn [AxisSamples]. rewrite H, F32_ltb_after_infinite_step.
  reflexivity.
Qed.

(** X12.  With [ChecksPerCentimeter = 0.0f] the step is [+infinity]: over a
    box with non-empty ranges each loop runs once, so exactly one sample is
    taken, at the corner [(-BoxExtent.X, -BoxExtent.Y)].  On a valid map
    the call returns the classification of that one pixel: [1.0f] or
    [0.0f] in each fraction, and no warning. *)
Theorem Intersect_zero_density {TM : TransformMath} (fuel : nat) (g : URoadMap)
        (T : FTransform) (E : FVector) :
  F32.ltb (F32.neg (VX E)) (VX E) = true ->
  F32.ltb (F32.neg (VY E)) (VY E) = true ->
  InRange g -> IsValid g = true ->
  Samples (S (S fuel)) E (F32.div F32.one F32.zero)
  = Some [(F32.neg (VX E), F32.neg (VY E))] /\
  exists c,
    GetDataAt g (TransformPosition T
                   (mkVector (F32.neg (VX E)) (F32.neg (VY E)) F32.zero))
    = Done c /\
    In c (RoadMap g) /\
    Intersect (S (S fuel)) g T E F32.zero
    = Done (mkResult (if bIsOffRoad c then F32.one else F32.zero)
                     (if IsOpposite (GetForwardVector (Rotation T)) c
                      then F32.one else F32.zero), []).
Proof.
  intros HX HY HR HV.
  assert (Hs : Samples (S (S fuel)) E (F32.div F32.one F32.zero)
               = Some [(F32.neg (VX E), F32.neg (VY E))]).
  { unfold Samples.
    change (F32.div F32.one F32.zero) with (S754_infinity false).
    now rewrite !AxisSamples_infinite_step. }
  split; [exact Hs |].
  destruct (GetDataAt_valid g
              (TransformPosition T
                 (mkVector (F32.neg (VX E)) (F32.neg (VY E)) F32.zero)) HR HV)
    as (c & Hc & Hin).
  exists c. split; [exact Hc |]. split; [exact Hin |].
  rewrite (Intersect_samples (S (S fuel)) g T E F32.zero _ Hs).
  cbn [MapM]. unfold SampleAt. cbn [fst snd]. rewrite Hc. cbn [bind length].
  unfold CountOff, CountOpposite, IsOpposite. cbn [filter].
  destruct (bIsOffRoad c); cbn [negb andb length];
    [reflexivity |].
  destruct (bHasDirection c
            && F32.ltb F32.zero
                 (DotProduct (Direction c) (GetForwardVector (Rotation T))));
    reflexivity.
Qed.

(** X12, witness: the freshly constructed map under a box of 2 x 2
    centimetres. *)
Lemma Intersect_zero_density_witness :
  Samples 2 UnitExtent (F32.div F32.one F32.zero)
  = Some [(F32.neg (VX UnitExtent), F32.neg (VY UnitExtent))] /\
  exists c,
    GetDataAt NewRoadMap
      (TransformPosition TransformIdentity
         (mkVector (F32.neg (VX UnitExtent)) (F32.neg (VY UnitExtent)) F32.zero))
    = Done c /\
    In c (RoadMap NewRoadMap) /\
    Intersect 2 NewRoadMap TransformIdentity UnitExtent F32.zero
    = Done (mkResult (if bIsOffRoad c then F32.one else F32.zero)
                     (if IsOpposite (GetForwardVector (Rotation TransformIdentity)) c
                      then F32.one else F32.zero), []).
Proof.
  assert (H1 : F32.ltb (F32.neg (VX UnitExtent)) (VX UnitExtent) = true)
    by reflexivity.
  assert (H2 : F32.ltb (F32.neg (VY UnitExtent)) (VY UnitExtent) = true)
    by reflexivity.
  assert (H3 : InRange NewRoadMap) by (unfold InRange; cbn; lia).
  assert (H4 : IsValid NewRoadMap = true) by reflexivity.
  exact (Intersect_zero_density 0 NewRoadMap TransformIdentity UnitExtent
           H1 H2 H3 H4).
Defined.

(** A loop whose variable does not move never leaves its range. *)
Lemma AxisSamples_zero_step (s : bool) (X : float) (fuel : nat) :
  F32.ltb (F32.neg X) X = true ->
  AxisSamples fuel X (S754_zero s) (F32.neg X) = None.
Proof.
  intros H.
  assert (Hadd : F32.add (F32.neg X) (S754_zero s) = F32.neg X).
  { destruct X as [[] | [] | | [] m e]; try discriminate; reflexivity. }
  induction fuel as [| fuel IH]; [reflexivity |].
  cbn [AxisSamples]. now rewrite H, Hadd, IH.
Qed.

(** X13.  With an infinite [ChecksPerCentimeter] the step is zero: over a
    box whose X range is not empty the outer loop variable never moves, so
    the call does not return, however many iterations it is given: it is
    still running when they are used up, unless a failed check has stopped
    it. *)
Theorem Intersect_infinite_density {TM : TransformMath} (fuel : nat) (g : URoadMap)
        (T : FTransform) (E : FVector) (s : bool) :
  F32.ltb (F32.neg (VX E)) (VX E) = true ->
  Samples fuel E (F32.div F32.one (S754_infinity s)) = None /\
  (Intersect fuel g T E (S754_infinity s) = OutOfFuel \/
   Intersect fuel g T E (S754_infinity s) = Fatal).
Proof.
  intros HX.
  assert (Hs : Samples fuel E (F32.div F32.one (S754_infinity s)) = None).
  { unfold Samples.
    assert (Hstep : F32.div F32.one (S754_infinity s) = S754_zero s)
      by (now destruct s).
    rewrite Hstep. now rewrite AxisSamples_zero_step. }
  split; [exact Hs |].
  pose proof (fun out => Intersect_no_samples fuel g T E (S754_infinity s) out Hs)
    as Hn.
  destruct (Intersect fuel g T E (S754_infinity s)) as [out | |];
    [now destruct (Hn out) | now right | now left].
Qed.

(** X13, witness: the freshly constructed map under a box of 2 x 2
    centimetres. *)
Lemma Intersect_infinite_density_witness :
  Samples 100 UnitExtent (F32.div F32.one (S754_infinity false)) = None /\
  (Intersect 100 NewRoadMap TransformIdentity UnitExtent (S754_infinity false)
   = OutOfFuel \/
   Intersect 100 NewRoadMap TransformIdentity UnitExtent (S754_infinity false)
   = Fatal).
Proof.
  exact (Intersect_infinite_density 100 NewRoadMap TransformIdentity UnitExtent
           false eq_refl).
Defined.

(** ** Whole-number boxes and unit directions *)

(** X4, witness: the freshly constructed map under a box of 2 x 2
    centimetres. *)
Lemma Intersect_whole_extents_witness :
  SampleCount 10 (mkVector (F32.of_Z 1) (F32.of_Z 1) F32.zero)
              (F32.div F32.one F32.one)
  = Some ((2 * 1) * (2 * 1)) /\
  exists out,
    Intersect 10 NewRoadMap TransformIdentity
              (mkVector (F32.of_Z 1) (F32.of_Z 1) F32.zero) F32.one
    = Done out.
Proof.
  assert (H1 : InRange NewRoadMap) by (unfold InRange; cbn; lia).
  assert (H2 : IsValid NewRoadMap = true) by reflexivity.
  exact (Intersect_whole_extents 10 NewRoadMap TransformIdentity 1 1 F32.zero
           H1 H2 ltac:(lia) ltac:(lia) ltac:(lia) ltac:(lia)).
Defined.

(** X5.  For an on-road pixel whose direction has its three components
    between [-1.0f] and [1.0f], the narrowing to 8-bit channels loses
    nothing: the red, green and blue channels are the values
    [floor(255 * (component + 1) / 2)] themselves, each between 0 and 255. *)
Theorem Encode_unit_direction (Data : FRoadMapPixelData) :
  bIsOffRoad Data = false -> bHasDirection Data = true ->
  UnitComponent (VX (Direction Data)) ->
  UnitComponent (VY (Direction Data)) ->
  UnitComponent (VZ (Direction Data)) ->
  Encode Data = mkColor (ToColor (VX (Direction Data)))
                        (ToColor (VY (Direction Data)))
                        (ToColor (VZ (Direction Data))) 255 /\
  0 <= R (Encode Data) <= 255 /\ 0 <= G (Encode Data) <= 255 /\
  0 <= B (Encode Data) <= 255.
Proof.
  intros Ho Hd (Vx & Lx & Hx) (Vy & Ly & Hy) (Vz & Lz & Hz).
  pose proof (ToColor_unit_range _ Vx Lx Hx) as Rx.
  pose proof (ToColor_unit_range _ Vy Ly Hy) as Ry.
  pose proof (ToColor_unit_range _ Vz Lz Hz) as Rz.
  assert (E : Encode Data = mkColor (ToColor (VX (Direction Data)))
                                    (ToColor (VY (Direction Data)))
                                    (ToColor (VZ (Direction Data))) 255).
  { unfold Encode. rewrite Ho, Hd. cbn [negb]. now rewrite !u8_small. }
  rewrite E. cbn [R G B]. auto.
Qed.

(** X5, witness: a lane along [+X]. *)
Lemma Encode_unit_direction_witness :
  Encode LaneAlongX
  = mkColor (ToColor (VX (Direction LaneAlongX)))
            (ToColor (VY (Direction LaneAlongX)))
            (ToColor (VZ (Direction LaneAlongX))) 255 /\
  0 <= R (Encode LaneAlongX) <= 255 /\ 0 <= G (Encode LaneAlongX) <= 255 /\
  0 <= B (Encode LaneAlongX) <= 255.
Proof.
  assert (H1 : UnitComponent F32.one) by (repeat split).
  assert (H0 : UnitComponent F32.zero) by (repeat split).
  exact (Encode_unit_direction LaneAlongX eq_refl eq_refl H1 H0 H0).
Defined.

(** ** The identity transform on signed positions *)

Lemma Regular_valid (x : float) : Regular x -> F32.valid x = true.
Proof. intros [-> | (s & m & e & -> & H)]; [reflexivity | exact H]. Qed.

Lemma Regular_add_zero (x : float) (s : bool) :
  Regular x -> F32.add x (S754_zero s) = x.
Proof. intros [-> | (s' & m & e & -> & _)]; [now destruct s | reflexivity]. Qed.

Lemma Regular_sub_zero (x : float) :
  Regular x -> F32.sub x F32.zero = x.
Proof. intros [-> | (s' & m & e & -> & _)]; reflexivity. Qed.

Lemma F32_mul_zero_finite (s : bool) (x : float) :
  F32.is_finite x = true -> exists s', F32.mul (S754_zero s) x = S754_zero s'.
Proof. destruct x as [s' | | | s' m e]; try discriminate; intros _; eexists; reflexivity. Qed.

Lemma F32_sub_zeros (a b : bool) : exists c, F32.sub (S754_zero a) (S754_zero b) = S754_zero c.
Proof. destruct a, b; eexists; reflexivity. Qed.

(** The cross product of a zero vector with a finite vector is a vector of
    zeros, of either sign. *)
Lemma Cross_zero_finite (s : bool) (v : FVector) :
  F32.is_finite (VX v) = true -> F32.is_finite (VY v) = true ->
  F32.is_finite (VZ v) = true ->
  exists a b c,
    CrossProduct (mkVector (S754_zero s) (S754_zero s) (S754_zero s)) v
    = mkVector (S754_zero a) (S754_zero b) (S754_zero c).
Proof.
  intros Hx Hy Hz. unfold CrossProduct. cbn [VX VY VZ].
  destruct (F32_mul_zero_finite s _ Hx) as (sx & ->).
  destruct (F32_mul_zero_finite s _ Hy) as (sy & ->).
  destruct (F32_mul_zero_finite s _ Hz) as (sz & ->).
  destruct (F32_sub_zeros sz sy) as (a & ->).
  destruct (F32_sub_zeros sx sz) as (b & ->).
  destruct (F32_sub_zeros sy sx) as (c & ->).
  now exists a, b, c.
Qed.

Lemma Regular_finite (x : float) : Regular x -> F32.is_finite x = true.
Proof. intros [-> | (s & m & e & -> & _)]; reflexivity. Qed.

Lemma Rotate_zero_regular (s : bool) (v : FVector) :
  Regular (VX v) -> Regular (VY v) -> Regular (VZ v) ->
  let Q := mkVector (S754_zero s) (S754_zero s) (S754_zero s) in
  let T := vscale (CrossProduct Q v) F32.two in
  vadd (vadd v (vscale T F32.one)) (CrossProduct Q T) = v.
Proof.
  intros Hx Hy Hz Q T. unfold T, Q.
  destruct (Cross_zero_finite s v (Regular_finite _ Hx) (Regular_finite _ Hy)
              (Regular_finite _ Hz)) as (a & b & c & ->).
  assert (Hs : forall z, F32.mul (F32.mul (S754_zero z) F32.two) F32.one
                         = S754_zero z) by (now intros []).
  assert (Hs2 : forall z, F32.mul (S754_zero z) F32.two = S754_zero z)
    by (now intros []).
  unfold vscale at 1 2 3. cbn [VX VY VZ]. rewrite !Hs2.
  destruct (Cross_zero_finite s (mkVector (S754_zero a) (S754_zero b) (S754_zero c))
              eq_refl eq_refl eq_refl) as (a' & b' & c' & ->).
  unfold vscale, vadd. cbn [VX VY VZ].
  assert (Hs3 : forall z, F32.mul (S754_zero z) F32.one = S754_zero z)
    by (now intros []).
  rewrite !Hs3.
  repeat rewrite (Regular_add_zero (VX v) _ Hx).
  repeat rewrite (Regular_add_zero (VY v) _ Hy).
  repeat rewrite (Regular_add_zero (VZ v) _ Hz).
  now destruct v.
Qed.

(** The identity transform leaves finite positions alone. *)
Lemma Scalar_TransformPosition_identity_regular (v : FVector) :
  Regular (VX v) -> Regular (VY v) -> Regular (VZ v) ->
  Scalar.TransformPosition TransformIdentity v = v.
Proof.
  intros Hx Hy Hz. unfold Scalar.TransformPosition, TransformIdentity.
  cbn [Rotation Scale3D Translation].
  assert (Hm : vmul OneVector v = v).
  { unfold vmul, OneVector. cbn [VX VY VZ].
    rewrite !F32_mul_one_l by (now apply Regular_valid). now destruct v. }
  rewrite Hm. unfold Scalar.RotateVector, QuatIdentity. cbn [QX QY QZ QW].
  change F32.zero with (S754_zero false).
  rewrite (Rotate_zero_regular false v Hx Hy Hz).
  unfold vadd, ZeroVector. cbn [VX VY VZ].
  change F32.zero with (S754_zero false).
  rewrite !Regular_add_zero by assumption. now destruct v.
Qed.

(** ** Whole-number locations *)

Lemma Regular_of_Z (n : Z) : - 2 ^ 24 <= n <= 2 ^ 24 -> Regular (F32.of_Z n).
Proof.
  intros Hn. destruct (Z.lt_trichotomy n 0) as [Hneg | [-> | Hpos]].
  - destruct (F32_of_Z_opp_rep (- n) ltac:(lia)) as (m & e & _ & Hr & Hb & _).
    rewrite Z.opp_involutive in Hr.
    right. exists true, m, e. split; [exact Hr |]. rewrite Hr. exact Hb.
  - now left.
  - destruct (F32_of_Z_rep n ltac:(lia)) as (m & e & Hr & Hb & _).
    right. exists false, m, e. split; [exact Hr |]. rewrite Hr. exact Hb.
Qed.

Lemma FloorToInt_whole (n : Z) :
  - 2 ^ 24 <= n <= 2 ^ 24 -> FloorToInt (F32.of_Z n) = n.
Proof.
  intros Hn. destruct (Z_le_gt_dec 0 n) as [Hp | Hneg].
  { apply FloorToInt_of_Z. lia. }
  destruct (F32_of_Z_opp_rep (- n) ltac:(lia)) as (m & e & _ & Hr & Hb & He & Hv).
  rewrite Z.opp_involutive in Hr. rewrite Hr.
  assert (Hf : F32.floor (S754_finite true m e) = Some n).
  { cbn [F32.floor]. f_equal.
    destruct (Z.leb_spec 0 e) as [Hle | Hlt].
    - replace (e + 23) with (23 + e) in Hv by lia.
      rewrite Z.pow_add_r in Hv by lia. lia.
    - assert (Hm : Zpos m = - n * 2 ^ (- e)).
      { assert (Hs : 2 ^ 23 = 2 ^ (- e) * 2 ^ (e + 23)).
        { rewrite <- Z.pow_add_r by lia. f_equal. lia. }
        rewrite Hs, Z.mul_assoc in Hv.
        pose proof (pow2_pos (e + 23) ltac:(lia)).
        apply Z.mul_reg_r in Hv; lia. }
      replace (Zneg m) with (n * 2 ^ (- e)) by lia.
      apply Z.div_mul. pose proof (pow2_pos (- e) ltac:(lia)). lia. }
  unfold FloorToInt. rewrite Hf. unfold INT32_MIN.
  destruct (Z.leb_spec (- 2 ^ 31) n); [| lia].
  destruct (Z.ltb_spec n (2 ^ 31)); [reflexivity | lia].
Qed.

Lemma Clamp_nearest (v n : Z) :
  1 <= n <= 2 ^ 31 ->
  u32 (Clamp v 0 (i32 (u32 (n - 1)))) = Z.max 0 (Z.min v (n - 1)).
Proof.
  intros Hn. rewrite (u32_small (n - 1)) by lia. rewrite i32_small by lia.
  unfold Clamp. destruct (Z.ltb_spec v 0); [rewrite u32_small; lia |].
  destruct (Z.ltb_spec v (n - 1)); rewrite u32_small; lia.
Qed.

(** X6.  On a map aligned with the world at one pixel per centimetre, the
    world location with whole-number coordinates [(i, j, h)] is mapped to
    the pixel [(i, j)] when that is inside the grid and to the nearest
    pixel of the border otherwise: each index is clamped on its own. *)
Theorem ToPixel_whole_location (W H : Z) (cells : list FRoadMapPixelData)
        (i j h : Z) :
  1 <= W <= 2 ^ 31 -> 1 <= H <= 2 ^ 31 ->
  - 2 ^ 24 <= i <= 2 ^ 24 -> - 2 ^ 24 <= j <= 2 ^ 24 -> - 2 ^ 24 <= h <= 2 ^ 24 ->
  ToPixel (AlignedMap 0 W H cells)
          (mkVector (F32.of_Z i) (F32.of_Z j) (F32.of_Z h))
  = (Z.max 0 (Z.min i (W - 1)), Z.max 0 (Z.min j (H - 1))).
Proof.
  intros HW HH Hi Hj Hh.
  pose proof (Regular_of_Z i Hi) as Ri.
  pose proof (Regular_of_Z j Hj) as Rj.
  pose proof (Regular_of_Z h Hh) as Rh.
  unfold ToPixel, AlignedMap.
  cbn [PixelsPerCentimeter WorldToMap MapOffset Width Height
       TransformPosition ScalarMath].
  rewrite Scalar_TransformPosition_identity_regular by assumption.
  unfold vsub, ZeroVector. cbn [VX VY VZ].
  rewrite !Regular_sub_zero by assumption.
  change (Pow2 0) with F32.one.
  rewrite !F32_mul_one_l by (now apply Regular_valid).
  unfold ClampFloatToUInt. rewrite !FloorToInt_whole by assumption.
  now rewrite !Clamp_nearest by assumption.
Qed.

(** X6, witness: a location left of and above a 4 x 3 map. *)
Lemma ToPixel_whole_location_witness :
  ToPixel (AlignedMap 0 4 3 (repeat DefaultPixel 12))
          (mkVector (F32.of_Z (-5)) (F32.of_Z 7) (F32.of_Z 2))
  = (Z.max 0 (Z.min (-5) (4 - 1)), Z.max 0 (Z.min 7 (3 - 1))).
Proof.
  exact (ToPixel_whole_location 4 3 (repeat DefaultPixel 12) (-5) 7 2
           ltac:(lia) ltac:(lia) ltac:(lia) ltac:(lia) ltac:(lia)).
Defined.

(** ** Lists of pixels *)

Lemma MapM_map {A B : Type} (f : A -> outcome B) (h : A -> B) (l : list A) :
  (forall a, In a l -> f a = Done (h a)) -> MapM f l = Done (map h l).
Proof.
  induction l as [| a l IH]; intros H; [reflexivity |].
  cbn [MapM map]. rewrite (H a (or_introl eq_refl)). cbn [bind].
  rewrite IH by (intros b Hb; apply H; now right). reflexivity.
Qed.

Lemma NoDup_list_prod {A B : Type} (l : list A) (l' : list B) :
  NoDup l -> NoDup l' -> NoDup (list_prod l l').
Proof.
  intros Hl Hl'. induction Hl as [| x l Hx Hl IH]; cbn [list_prod]; [constructor |].
  apply NoDup_app.
  - apply NoDup_map_NoDup_ForallPairs; [| assumption].
    intros a b _ _ E. congruence.
  - exact IH.
  - intros [a b] Ha Hb. apply in_map_iff in Ha as (b' & E & _).
    apply in_prod_iff in Hb as [Hb _]. congruence.
Qed.

Lemma UIntRange_In (n x : Z) : In x (UIntRange n) <-> 0 <= x < n.
Proof.
  unfold UIntRange. rewrite in_map_iff. split.
  - intros (k & <- & Hk). apply in_seq in Hk. lia.
  - intros Hx. exists (Z.to_nat x). split; [lia |]. apply in_seq. lia.
Qed.

Lemma UIntRange_length (n : Z) : 0 <= n -> Z.of_nat (length (UIntRange n)) = n.
Proof. intros Hn. unfold UIntRange. rewrite length_map, length_seq. lia. Qed.

Lemma UIntRange_NoDup (n : Z) : NoDup (UIntRange n).
Proof.
  unfold UIntRange. apply NoDup_map_NoDup_ForallPairs; [| apply seq_NoDup].
  intros a b _ _ E. lia.
Qed.

(** Inside the grid, the index of a pixel is inside the array and belongs
    to no other pixel. *)
Lemma PixelIndex_range (W H : Z) (p : Z * Z) :
  0 <= fst p < W -> 0 <= snd p < H -> 0 <= PixelIndex W p < H * W.
Proof. unfold PixelIndex. nia. Qed.

Lemma PixelIndex_inj (W : Z) (p q : Z * Z) :
  0 <= fst p < W -> 0 <= fst q < W -> 0 <= snd p -> 0 <= snd q ->
  PixelIndex W p = PixelIndex W q -> p = q.
Proof.
  unfold PixelIndex. destruct p as [x y], q as [x' y']. cbn [fst snd].
  intros Hx Hx' Hy Hy' E.
  assert (y = y') by nia. subst y'. f_equal. lia.
Qed.

Lemma GetDataAtPixel_nth (g : URoadMap) (p : Z * Z) :
  0 <= PixelIndex (Width g) p < Z.of_nat (length (RoadMap g)) ->
  GetDataAtPixel g (fst p) (snd p)
  = Done (nth (Z.to_nat (PixelIndex (Width g) p)) (RoadMap g) DefaultPixel).
Proof.
  intros Hi. unfold GetDataAtPixel. fold (PixelIndex (Width g) p).
  rewrite (nth_error_nth' (RoadMap g) DefaultPixel) by lia.
  destruct (Z.leb_spec 0 (PixelIndex (Width g) p)); [reflexivity | lia].
Qed.

Lemma Encode_opaque (d : FRoadMapPixelData) : A (Encode d) = 255.
Proof.
  unfold Encode. destruct (bIsOffRoad d); [reflexivity |].
  now destruct (negb (bHasDirection d)).
Qed.

(** ** [SaveAsPNG] *)

(** X7.  With dimensions that fit [int32], [SaveAsPNG] returns [true]
    exactly on a valid map.  On an invalid map it only logs the error and
    writes nothing.  On a valid map it hands the engine one image of
    [Width x Height] opaque pixels, in the order of the array: the image
    pixel at row [y], column [x] is the colour of the map pixel [(x, y)]. *)
Theorem SaveAsPNG_image {SC : ScreenshotConfig} (g : URoadMap) (Path : string) :
  0 <= Width g < 2 ^ 31 -> 0 <= Height g < 2 ^ 31 ->
  fst (SaveAsPNG g Path) = IsValid g /\
  (IsValid g = false ->
   snd (SaveAsPNG g Path)
   = [LogError "Cannot save invalid road map to disk"%string]) /\
  (IsValid g = true ->
   exists BitMap,
     snd (SaveAsPNG g Path)
     = [SaveImage Path BitMap (Width g, Height g);
        LogSaved (ResultPathOf Path BitMap (Width g, Height g))] /\
     Z.of_nat (length BitMap) = Width g * Height g /\
     Forall (fun c => A c = 255) BitMap /\
     forall x y d,
       0 <= x < Width g -> 0 <= y < Height g ->
       GetDataAtPixel g x y = Done d ->
       nth_error BitMap (Z.to_nat (y * Width g + x)) = Some (Encode d)).
Proof.
  intros HW HH. unfold SaveAsPNG.
  rewrite (i32_small (Width g)), (i32_small (Height g)) by lia.
  destruct (IsValid g) eqn:EV; cbn [negb fst snd].
  - split; [reflexivity |]. split; [discriminate |]. intros _.
    exists (map Encode (RoadMap g)). split; [reflexivity |].
    unfold IsValid in EV. apply andb_true_iff in EV as [_ EL].
    apply Z.eqb_eq in EL.
    split; [rewrite length_map; lia |]. split.
    + apply Forall_forall. intros c Hc. apply in_map_iff in Hc as (d & <- & _).
      apply Encode_opaque.
    + intros x y d Hx Hy Hd.
      pose proof (PixelIndex_range (Width g) (Height g) (x, y) Hx Hy) as Hi.
      pose proof (GetDataAtPixel_nth g (x, y) ltac:(lia)) as Hn.
      cbn [fst snd] in Hn. rewrite Hn in Hd.
      injection Hd as <-. unfold PixelIndex. cbn [fst snd].
      rewrite nth_error_map.
      rewrite (nth_error_nth' (RoadMap g) DefaultPixel); [reflexivity |].
      unfold PixelIndex in Hi. cbn [fst snd] in Hi. lia.
  - split; [reflexivity |]. split; [reflexivity | discriminate].
Qed.

(** X7, witness: the freshly constructed map. *)
Lemma SaveAsPNG_image_witness :
  (0 <= Width NewRoadMap < 2 ^ 31 /\ 0 <= Height NewRoadMap < 2 ^ 31) /\
  fst (SaveAsPNG NewRoadMap "map.png") = IsValid NewRoadMap.
Proof.
  assert (H1 : 0 <= Width NewRoadMap < 2 ^ 31) by (cbn; lia).
  assert (H2 : 0 <= Height NewRoadMap < 2 ^ 31) by (cbn; lia).
  split; [exact (conj H1 H2) |].
  exact (proj1 (SaveAsPNG_image NewRoadMap "map.png" H1 H2)).
Defined.

(** ** [DrawDebugPixelsToLevel] *)

(** X8.  On a valid map [DrawDebugPixelsToLevel] does not fail: after the
    flush it draws one point per pixel, column by column, at the world
    location of the pixel and in the colour of the pixel.  The points are
    as many as the stored pixels and no stored pixel is drawn twice.  When
    asked only to flush, it draws nothing. *)
Theorem DrawDebugPixelsToLevel_valid {TM : TransformMath} (g : URoadMap) :
  InRange g -> IsValid g = true ->
  let pixels := list_prod (UIntRange (Width g)) (UIntRange (Height g)) in
  DrawDebugPixelsToLevel g false
  = Done (FlushPersistentDebugLines :: map (DebugPoint g) pixels) /\
  length pixels = length (RoadMap g) /\
  NoDup (map (PixelIndex (Width g)) pixels) /\
  Forall (fun p => 0 <= PixelIndex (Width g) p < Z.of_nat (length (RoadMap g)))
         pixels /\
  DrawDebugPixelsToLevel g true = Done [FlushPersistentDebugLines].
Proof.
  intros HR HV pixels.
  destruct (IsValid_dims g HR HV) as (HW & HH & HL).
  assert (Hin : forall p, In p pixels ->
                  0 <= fst p < Width g /\ 0 <= snd p < Height g).
  { intros [x y] Hp. apply in_prod_iff in Hp as [Hx Hy].
    apply UIntRange_In in Hx, Hy. cbn [fst snd]. lia. }
  assert (Hidx : forall p, In p pixels ->
                   0 <= PixelIndex (Width g) p < Z.of_nat (length (RoadMap g))).
  { intros p Hp. destruct (Hin p Hp) as [Hx Hy]. rewrite HL.
    now apply PixelIndex_range. }
  split; [| split; [| split; [| split]]].
  - unfold DrawDebugPixelsToLevel. cbn [negb]. fold pixels.
    rewrite (MapM_map (DrawPixel g) (DebugPoint g)); [reflexivity |].
    intros p Hp. unfold DrawPixel, DebugPoint.
    now rewrite (GetDataAtPixel_nth g p (Hidx p Hp)).
  - apply Nat2Z.inj. unfold pixels.
    rewrite length_prod, Nat2Z.inj_mul, !UIntRange_length by lia. lia.
  - apply NoDup_map_NoDup_ForallPairs.
    + intros p q Hp Hq E. destruct (Hin p Hp), (Hin q Hq).
      apply (PixelIndex_inj (Width g)); lia.
    + apply NoDup_list_prod; apply UIntRange_NoDup.
  - apply Forall_forall. exact Hidx.
  - reflexivity.
Qed.

(** X8, witness: the freshly constructed map. *)
Lemma DrawDebugPixelsToLevel_valid_witness :
  (InRange NewRoadMap /\ IsValid NewRoadMap = true) /\
  DrawDebugPixelsToLevel NewRoadMap false
  = Done (FlushPersistentDebugLines
            :: map (DebugPoint NewRoadMap)
                 (list_prod (UIntRange (Width NewRoadMap))
                            (UIntRange (Height NewRoadMap)))).
Proof.
  assert (H1 : InRange NewRoadMap) by (unfold InRange; cbn; lia).
  assert (H2 : IsValid NewRoadMap = true) by reflexivity.
  split; [exact (conj H1 H2) |].
  exact (proj1 (DrawDebugPixelsToLevel_valid NewRoadMap H1 H2)).
Defined.

(** ** More on [AppendPixel] *)

(** The pixel appended for a tag, given the direction flag and the rotator
    after the [switch]. *)
Lemma AppendPixel_last {TM : TransformMath} {RM : RotatorMath} (g : URoadMap)
      (Tag : ECityMapMeshTag) (T : FTransform) (inv : bool) :
  AppendPixel g Tag T inv
  = mkRoadMap (WorldToMap g) (MapOffset g) (PixelsPerCentimeter g)
              (Width g) (Height g)
              (RoadMap g ++
               [let '(Rot, HasDirection) :=
                  SwitchTag Tag (Rotator (Rotation T)) false in
                mkPixel false HasDirection
                  (if HasDirection then
                     let Forward := GetForwardVector (MakeQuat Rot) in
                     if inv then vscale Forward F32.minus_one else Forward
                   else ZeroVector)]).
Proof.
  unfold AppendPixel, AppendEmptyPixel.
  cbn [RoadMap WorldToMap MapOffset PixelsPerCentimeter Width Height].
  rewrite last_last, removelast_last. cbn [bHasDirection DefaultPixel Direction].
  destruct (SwitchTag Tag (Rotator (Rotation T)) false) as [Rot HasDirection].
  reflexivity.
Qed.

(** X9.  A tag outside the six lane tags appends an on-road pixel without
    direction: the placement transform and the inversion flag are not
    looked at, the pixels already stored and the other members of the map
    are left as they are. *)
Theorem AppendPixel_other_tag {TM : TransformMath} {RM : RotatorMath}
        (g : URoadMap) (n : nat) (T : FTransform) (inv : bool) :
  AppendPixel g (OtherTag n) T inv
  = mkRoadMap (WorldToMap g) (MapOffset g) (PixelsPerCentimeter g)
              (Width g) (Height g)
              (RoadMap g ++ [mkPixel false false ZeroVector]).
Proof. rewrite AppendPixel_last. reflexivity. Qed.

(** X10.  The yaw of the six lane tags, for a placement whose rotator has
    a yaw of a whole number [n] of degrees with [|n| <= 2^23]: lane 0 of a
    90-degree turn and the right lane of a two-lane road use the yaw [n],
    lane 1 and the left lane use [n + 180], lane 2 uses [n + 90] and lane 3
    uses [n + 270].  The sums are whole numbers again: the [float] addition
    does not round them, and nothing reduces them modulo 360. *)
Theorem AppendPixel_turn_lanes {TM : TransformMath} {RM : RotatorMath}
        (g : URoadMap) (T : FTransform) (inv : bool) (p r : float) (n : Z) :
  - 2 ^ 23 <= n <= 2 ^ 23 ->
  Rotator (Rotation T) = mkRotator p (F32.of_Z n) r ->
  let Cell := fun yaw : Z =>
    let Forward := GetForwardVector (MakeQuat (mkRotator p (F32.of_Z yaw) r)) in
    mkPixel false true (if inv then vscale Forward F32.minus_one else Forward) in
  RoadMap (AppendPixel g Road90DegTurn_Lane0 T inv) = RoadMap g ++ [Cell n] /\
  RoadMap (AppendPixel g Road90DegTurn_Lane1 T inv) = RoadMap g ++ [Cell (n + 180)] /\
  RoadMap (AppendPixel g Road90DegTurn_Lane2 T inv) = RoadMap g ++ [Cell (n + 90)] /\
  RoadMap (AppendPixel g Road90DegTurn_Lane3 T inv) = RoadMap g ++ [Cell (n + 270)] /\
  RoadMap (AppendPixel g RoadTwoLanes_LaneRight T inv) = RoadMap g ++ [Cell n] /\
  RoadMap (AppendPixel g RoadTwoLanes_LaneLeft T inv) = RoadMap g ++ [Cell (n + 180)].
Proof.
  intros Hn Hr Cell. unfold Cell.
  repeat split; apply AppendPixel_rotator; cbn [SwitchTag]; rewrite Hr;
    unfold AddYaw; cbn [Pitch Yaw Roll];
    try rewrite (F32_add_whole n 180) by lia;
    try rewrite (F32_add_whole n 90) by lia;
    try rewrite (F32_add_whole n 270) by lia; reflexivity.
Qed.

(** X10, witness: lane 2 appended to the fresh map with the identity
    placement. *)
Lemma AppendPixel_turn_lanes_witness :
  RoadMap (AppendPixel NewRoadMap Road90DegTurn_Lane2 TransformIdentity false)
  = RoadMap NewRoadMap ++
    [mkPixel false true
       (GetForwardVector (MakeQuat (mkRotator F32.zero (F32.of_Z (0 + 90)) F32.zero)))].
Proof.
  exact (proj1 (proj2 (proj2
           (AppendPixel_turn_lanes NewRoadMap TransformIdentity false
              F32.zero F32.zero 0 ltac:(lia) eq_refl)))).
Defined.

(** ** Populating a map *)

Lemma AppendPixels_cells {TM : TransformMath} {RM : RotatorMath}
      (l : list Placement) :
  forall g, exists cells,
    RoadMap (AppendPixels g l) = RoadMap g ++ cells /\
    length cells = length l /\
    Forall (fun c => bIsOffRoad c = false) cells /\
    Width (AppendPixels g l) = Width g /\
    Height (AppendPixels g l) = Height g /\
    PixelsPerCentimeter (AppendPixels g l) = PixelsPerCentimeter g /\
    WorldToMap (AppendPixels g l) = WorldToMap g /\
    MapOffset (AppendPixels g l) = MapOffset g.
Proof.
  induction l as [| [[Tag T] inv] l IH]; intros g.
  - exists []. rewrite app_nil_r. repeat split; constructor.
  - change (AppendPixels g ((Tag, T, inv) :: l))
      with (AppendPixels (AppendPixel g Tag T inv) l).
    destruct (IH (AppendPixel g Tag T inv))
      as (cells & Hc & Hl & Hf & HW & HH & HP & HT & HO).
    rewrite Hc, HW, HH, HP, HT, HO, AppendPixel_last.
    cbn [RoadMap Width Height PixelsPerCentimeter WorldToMap MapOffset].
    set (d := let '(Rot, HasDirection) :=
                SwitchTag Tag (Rotator (Rotation T)) false in
              mkPixel false HasDirection
                (if HasDirection then
                   let Forward := GetForwardVector (MakeQuat Rot) in
                   if inv then vscale Forward F32.minus_one else Forward
                 else ZeroVector)).
    assert (Hd : bIsOffRoad d = false).
    { unfold d. now destruct (SwitchTag Tag (Rotator (Rotation T)) false). }
    exists (d :: cells). rewrite <- app_assoc.
    split; [reflexivity |]. split; [cbn [length]; lia |].
    split; [now constructor |]. repeat split.
Qed.

(** X11.  [Set] keeps the stored pixels, and the constructor has stored
    one: after construction, [Set] and any sequence of [n] calls of
    [AppendPixel], the map holds [n + 1] pixels, of which the first is the
    off-road pixel of the constructor and the others are on the road.  It
    is valid exactly when [n + 1] is [Height * Width], and its pixel
    [(0, 0)] is then off the road. *)
Theorem populate_after_construction {TM : TransformMath} {RM : RotatorMath}
        (w h : Z) (ppc : float) (t : FTransform) (o : FVector)
        (l : list Placement) :
  let g := AppendPixels (SetMap NewRoadMap w h ppc t o) l in
  (exists cells,
      RoadMap g = DefaultPixel :: cells /\ length cells = length l /\
      Forall (fun c => bIsOffRoad c = false) cells) /\
  Width g = w /\ Height g = h /\ PixelsPerCentimeter g = ppc /\
  WorldToMap g = t /\ MapOffset g = o /\
  (IsValid g = true <-> Z.of_nat (S (length l)) = h * w) /\
  GetDataAtPixel g 0 0 = Done DefaultPixel.
Proof.
  intros g.
  destruct (AppendPixels_cells l (SetMap NewRoadMap w h ppc t o))
    as (cells & Hc & Hl & Hf & HW & HH & HP & HT & HO).
  fold g in Hc, HW, HH, HP, HT, HO.
  change (RoadMap (SetMap NewRoadMap w h ppc t o)) with [DefaultPixel] in Hc.
  cbn [app] in Hc.
  split; [exists cells; auto |].
  repeat split; try assumption.
  - unfold IsValid. rewrite Hc, HW, HH. cbn [length]. rewrite Hl.
    intros H. apply andb_true_iff in H as [_ H]. now apply Z.eqb_eq in H.
  - unfold IsValid. rewrite Hc, HW, HH. cbn [length]. rewrite Hl.
    intros H. apply andb_true_iff. split; [apply Z.ltb_lt; lia | now apply Z.eqb_eq].
  - unfold GetDataAtPixel. rewrite Hc. reflexivity.
Qed.

(** ** The upper bound of the clamp as an [int32] *)

(** X14.  The bound [Width - 1] reaches [ClampFloatToUInt] as an [int32]:
    for a width above [2^31] it is negative, and the index is then 0 for a
    negative coordinate and [Width - 1] for every other one, whatever lies
    in between. *)
Theorem ClampFloatToUInt_wide (x : float) (n : Z) :
  2 ^ 31 < n < 2 ^ 32 ->
  ClampFloatToUInt x 0 (i32 (u32 (n - 1)))
  = if FloorToInt x <? 0 then 0 else n - 1.
Proof.
  intros Hn. unfold ClampFloatToUInt.
  rewrite (u32_small (n - 1)) by lia. rewrite i32_large by lia.
  unfold Clamp. destruct (Z.ltb_spec (FloorToInt x) 0); [reflexivity |].
  destruct (Z.ltb_spec (FloorToInt x) (n - 1 - 2 ^ 32)); [lia |].
  rewrite u32_wrap; lia.
Qed.

(** X14, witness: coordinate 5 on an axis of [2^31 + 2] pixels. *)
Lemma ClampFloatToUInt_wide_witness :
  ClampFloatToUInt (F32.of_Z 5) 0 (i32 (u32 (2147483650 - 1)))
  = if FloorToInt (F32.of_Z 5) <? 0 then 0 else 2147483650 - 1.
Proof.
  exact (ClampFloatToUInt_wide (F32.of_Z 5) 2147483650 ltac:(lia)).
Defined.
